(** * GNS administrative divisions: the deduplication pipeline and its tools

    A shallow embedding of the four scripts of the repository

      - [process_all_administrative_levels.py]  (the "full" script),
      - [process_all_admin_levels_simple.py]    (the "simple" script),
      - [split_by_country.py],
      - [query_subdivisions.py],

    written over lists of records: a pandas [DataFrame] is the list of its
    rows, a cell that pandas holds as NaN is [None] (or [NaN]).  Library
    functions of Python and pandas whose text is not part of the repository
    (string to number conversion, Unicode case mapping and character
    classes, regular expressions) are the fields of the class [Runtime];
    the sort of one integer column, whose order of equal keys matters, is
    written out as pandas and numpy run it (module [Numpy]). *)

From Stdlib Require Import List Bool ZArith QArith String Ascii Lia Lqa.
From Stdlib Require Import Permutation Sorted.
Import ListNotations.

(* ================================================================== *)
(** * Library functions the scripts call *)

Class Runtime : Type := {
  (** [pd.to_numeric(s, errors='coerce')] on one string: the number read,
      [None] when the conversion fails and the cell is coerced to NaN. *)
  str_to_num : string -> option Q;
  (** [str.upper]. *)
  upper : string -> string;
  (** [re.compile(pat)] followed by [search]: [None] when the pattern does
      not compile ([re.error] is raised), else the matcher. *)
  re_compile : string -> option (string -> bool);
  (** [str.isalpha], [str.isdigit], [str.isspace] on one character. *)
  isalpha : ascii -> bool;
  isdigit : ascii -> bool;
  isspace : ascii -> bool
}.

(* ================================================================== *)
(** * Three-way comparisons and the orders they give *)

(** A comparison that is a total preorder: what every sort key of a
    DataFrame column is. *)
Record total_cmp {A : Type} (cmp : A -> A -> comparison) : Prop := {
  cmp_opp : forall x y, cmp y x = CompOpp (cmp x y);
  cmp_trans : forall c x y z, cmp x y = c -> cmp y z = c -> cmp x z = c;
  cmp_eq_l : forall x y z, cmp x y = Eq -> cmp x z = cmp y z
}.

(** Lexicographic combination: the first key decides unless it ties. *)
Definition lex {A : Type} (c1 c2 : A -> A -> comparison) (x y : A) : comparison :=
  match c1 x y with
  | Eq => c2 x y
  | c => c
  end.

(** Comparison of a column: compare the values of the field. *)
Definition on {A B : Type} (f : B -> A) (cmp : A -> A -> comparison) (x y : B) : comparison :=
  cmp (f x) (f y).

(** [na_position='last']: a missing value sorts after every value. *)
Definition nan_last {A : Type} (cmp : A -> A -> comparison) (x y : option A) : comparison :=
  match x, y with
  | Some a, Some b => cmp a b
  | Some _, None => Lt
  | None, Some _ => Gt
  | None, None => Eq
  end.

Definition leb_of {A : Type} (cmp : A -> A -> comparison) (x y : A) : bool :=
  match cmp x y with
  | Gt => false
  | _ => true
  end.

Arguments cmp_opp {A cmp}.
Arguments cmp_trans {A cmp}.
Arguments cmp_eq_l {A cmp}.

(* ================================================================== *)
(** * Stable sorting

    [DataFrame.sort_values] with several keys sorts with a stable
    algorithm ([lexsort]).  The result of a stable sort by a total preorder
    is determined by its input, so any stable sort models it: here,
    insertion from the right, each row going in front of the rows that are
    not smaller than it. *)

Section StableSort.

Context {A : Type}.
Variable leb : A -> A -> bool.

Fixpoint insert (x : A) (l : list A) : list A :=
  match l with
  | [] => [x]
  | y :: l' => if leb x y then x :: l else y :: insert x l'
  end.

Fixpoint sort (l : list A) : list A :=
  match l with
  | [] => []
  | x :: l' => insert x (sort l')
  end.

End StableSort.

(* ================================================================== *)
(** * The data model *)

(** A cell of a column that pandas converts with [to_numeric]: missing, a
    number, or a string (a column that holds one string that is no number
    is read as a column of strings). *)
Inductive cell : Type :=
| NaN
| Num (q : Q)
| Str (s : string).

Definition notna {A : Type} (c : option A) : bool :=
  match c with
  | None => false
  | Some _ => true
  end.

(** One row of [Administrative_Regions.txt], with the columns that take
    part in a decision or reach the output (rk, fc and the three dates are
    read by the full script and never used). *)
Record admin_row : Type := {
  ufi : option Z;
  uni : option Z;
  full_name : option string;
  nt : option string;
  lat_dd : cell;
  long_dd : cell;
  desig_cd : option string;
  cc_ft : option string;
  adm1 : option string;
  name_rank : cell;
  lang_cd : option string;
  transl_cd : option string;
  script_cd : option string;
  display : option string;
  generic : option string
}.

(** One row of [Country_Codes.csv], with the three columns the scripts
    select. *)
Module CountryCodes.

Record row : Type := {
  Country_Code : option string;
  Short_Name : option string;
  Full_Name : option string
}.

End CountryCodes.

(** One row of the output frame [output_df], the sheet All_Admin_Divisions. *)
Record division : Type := {
  Country_Code : option string;
  Country_Name : option string;
  Country_Full_Name : option string;
  Administrative_Level : option string;
  Administrative_Name : option string;
  ADM1_Code : option string;
  latitude : option Q;
  longitude : option Q;
  Unique_Feature_ID : option Z;
  Unique_Name_ID : option Z;
  Name_Type : option string;
  Name_Rank : cell;
  Language_Code : option string;
  Transliteration_Code : option string;
  Script_Code : option string;
  Generic_Term : option string
}.

(** The two scripts that hold the pipeline. *)
Inductive script : Type :=
| Full
| Simple.

(** A Python dict with string keys, as the list of its items. *)
Fixpoint dict_get {V : Type} (d : list (string * V)) (k : string) : option V :=
  match d with
  | [] => None
  | (k', v) :: d' => if String.eqb k k' then Some v else dict_get d' k
  end.

Definition str_in (x : string) (l : list string) : bool :=
  existsb (String.eqb x) l.

Definition opt_eqb {A : Type} (eqb : A -> A -> bool) (x y : option A) : bool :=
  match x, y with
  | Some a, Some b => eqb a b
  | None, None => true
  | _, _ => false
  end.

(** [Series.fillna(v)] on one cell. *)
Definition fillna {A : Type} (v : A) (c : option A) : A :=
  match c with
  | Some a => a
  | None => v
  end.

(** The first entry that is not null, NaN when there is none: what
    [GroupBy.first] computes for one column of one group. *)
Fixpoint first_valid {A : Type} (l : list (option A)) : option A :=
  match l with
  | [] => None
  | Some a :: _ => Some a
  | None :: l' => first_valid l'
  end.

Fixpoint first_valid_cell (l : list cell) : cell :=
  match l with
  | [] => NaN
  | NaN :: l' => first_valid_cell l'
  | c :: _ => c
  end.

(* ================================================================== *)
(** * Filtering, scoring and deduplication
    ([process_gns_administrative_data], both scripts) *)

Section Deduplication.

Context {R : Runtime}.

(** [pd.to_numeric(column, errors='coerce')] on one cell. *)
Definition to_numeric (c : cell) : option Q :=
  match c with
  | NaN => None
  | Num q => Some q
  | Str s => str_to_num s
  end.

(** [admin_df['desig_cd'].str.startswith((...), na=False)] *)
Definition adm_prefixes : list string :=
  ["ADM1"; "ADM2"; "ADM3"; "ADM4"; "ADMD"]%string.

Definition adm_mask (r : admin_row) : bool :=
  match desig_cd r with
  | Some d => existsb (fun p => String.prefix p d) adm_prefixes
  | None => false
  end.

(** [admin_filtered['display'].fillna('').str.upper() == 'Y'] *)
Definition display_is_Y (r : admin_row) : bool :=
  String.eqb (upper (fillna ""%string (display r))) "Y".

(** [admin_filtered['display'].notna() & (admin_filtered['display'] != '')] *)
Definition display_nonempty (r : admin_row) : bool :=
  notna (display r) && negb (opt_eqb String.eqb (display r) (Some ""%string)).

(** The display filters: the full script applies both masks one after
    the other, the simple script the second one only. *)
Definition display_filter (s : script) (df : list admin_row) : list admin_row :=
  match s with
  | Full => filter display_nonempty (filter display_is_Y df)
  | Simple => filter display_nonempty df
  end.

(** [name_type_priority = {'N': 1, 'C': 2, 'D': 3, 'V': 4}] and
    [admin_filtered['nt'].map(name_type_priority).fillna(999)] *)
Definition name_type_priority : list (string * Z) :=
  [("N", 1); ("C", 2); ("D", 3); ("V", 4)]%string%Z.

Definition nt_priority (r : admin_row) : Z :=
  fillna 999%Z
    match nt r with
    | Some t => dict_get name_type_priority t
    | None => None
    end.

(** [pd.to_numeric(admin_filtered['name_rank'], errors='coerce').fillna(999)] *)
Definition name_rank_num (r : admin_row) : Q :=
  fillna (999 # 1) (to_numeric (name_rank r)).

Definition common_local_langs : list string :=
  ["spa"; "fra"; "deu"; "ita"; "por"; "rus"; "ara"; "zho"; "jpn"; "hin"]%string.

(** The lambda applied to [lang_cd]: three levels in the full script, two
    in the simple one.  A missing language is no string and falls
    through to the last level. *)
Definition lang_priority (s : script) (r : admin_row) : Z :=
  match s with
  | Full =>
      if opt_eqb String.eqb (lang_cd r) (Some "eng"%string) then 1%Z
      else if match lang_cd r with
              | Some x => str_in x common_local_langs
              | None => false
              end then 2%Z
      else 3%Z
  | Simple =>
      if opt_eqb String.eqb (lang_cd r) (Some "eng"%string) then 1%Z else 2%Z
  end.

(** Both coordinates convert to a number. *)
Definition coord_mask (r : admin_row) : bool :=
  notna (to_numeric (lat_dd r)) && notna (to_numeric (long_dd r)).

(** The frame [admin_filtered] just before it is sorted. *)
Definition admin_filtered (s : script) (admin_df : list admin_row) : list admin_row :=
  filter coord_mask (display_filter s (filter adm_mask admin_df)).

(** [sort_values(['ufi', 'nt_priority', 'name_rank_num', 'lang_priority'])] *)
Definition score_cmp (s : script) : admin_row -> admin_row -> comparison :=
  lex (on nt_priority Z.compare)
    (lex (on name_rank_num Qcompare)
       (on (lang_priority s) Z.compare)).

Definition sort_cmp (s : script) : admin_row -> admin_row -> comparison :=
  lex (on ufi (nan_last Z.compare)) (score_cmp s).

Definition sort_values (s : script) (df : list admin_row) : list admin_row :=
  sort (leb_of (sort_cmp s)) df.

(** [groupby('ufi')]: the keys are the values of ufi that are not null,
    in ascending order; a group holds its rows in the order of the
    frame. *)
Definition ufi_is (k : Z) (r : admin_row) : bool :=
  opt_eqb Z.eqb (ufi r) (Some k).

Definition ufi_values (df : list admin_row) : list Z :=
  flat_map (fun r => match ufi r with Some k => [k] | None => [] end) df.

Definition group_keys (df : list admin_row) : list Z :=
  sort Z.leb (nodup Z.eq_dec (ufi_values df)).

Definition group (k : Z) (df : list admin_row) : list admin_row :=
  filter (ufi_is k) df.

(** [.first()]: column by column, the first entry of the group that is
    not null; [.reset_index()] puts the key back as the column ufi. *)
Definition first (k : Z) (g : list admin_row) : admin_row :=
  {| ufi := Some k;
     uni := first_valid (map uni g);
     full_name := first_valid (map full_name g);
     nt := first_valid (map nt g);
     lat_dd := first_valid_cell (map lat_dd g);
     long_dd := first_valid_cell (map long_dd g);
     desig_cd := first_valid (map desig_cd g);
     cc_ft := first_valid (map cc_ft g);
     adm1 := first_valid (map adm1 g);
     name_rank := first_valid_cell (map name_rank g);
     lang_cd := first_valid (map lang_cd g);
     transl_cd := first_valid (map transl_cd g);
     script_cd := first_valid (map script_cd g);
     display := first_valid (map display g);
     generic := first_valid (map generic g) |}.

Definition groupby_first (df : list admin_row) : list admin_row :=
  map (fun k => first k (group k df)) (group_keys df).

(** [admin_deduplicated] *)
Definition admin_deduplicated (s : script) (admin_df : list admin_row) : list admin_row :=
  groupby_first (sort_values s (admin_filtered s admin_df)).

(** What a row has to pass to stay in [admin_filtered]. *)
Definition display_mask (s : script) (r : admin_row) : bool :=
  match s with
  | Full => display_is_Y r && display_nonempty r
  | Simple => display_nonempty r
  end.

Definition survives (s : script) (r : admin_row) : bool :=
  adm_mask r && display_mask s r && coord_mask r.

(** The triple the sort compares within one feature. *)
Definition score (s : script) (r : admin_row) : Z * Q * Z :=
  (nt_priority r, name_rank_num r, lang_priority s r).

End Deduplication.

(** Lexicographic order on score triples, lower is better. *)
Definition tuple_lt (a b : Z * Q * Z) : Prop :=
  let '(t1, r1, l1) := a in
  let '(t2, r2, l2) := b in
  (t1 < t2)%Z \/ (t1 = t2 /\ (r1 < r2 \/ (r1 == r2 /\ (l1 < l2)%Z))).

Definition tuple_eq (a b : Z * Q * Z) : Prop :=
  let '(t1, r1, l1) := a in
  let '(t2, r2, l2) := b in
  t1 = t2 /\ r1 == r2 /\ l1 = l2.

Definition tuple_le (a b : Z * Q * Z) : Prop := tuple_lt a b \/ tuple_eq a b.

(** [o] carries the value of [w] in every column where [w] has one. *)
Definition keeps {A : Type} (w o : option A) : Prop := w <> None -> o = w.
Definition keeps_cell (w o : cell) : Prop := w <> NaN -> o = w.

Definition built_on (w o : admin_row) : Prop :=
  ufi o = ufi w /\
  keeps (uni w) (uni o) /\
  keeps (full_name w) (full_name o) /\
  keeps (nt w) (nt o) /\
  keeps_cell (lat_dd w) (lat_dd o) /\
  keeps_cell (long_dd w) (long_dd o) /\
  keeps (desig_cd w) (desig_cd o) /\
  keeps (cc_ft w) (cc_ft o) /\
  keeps (adm1 w) (adm1 o) /\
  keeps_cell (name_rank w) (name_rank o) /\
  keeps (lang_cd w) (lang_cd o) /\
  keeps (transl_cd w) (transl_cd o) /\
  keeps (script_cd w) (script_cd o) /\
  keeps (display w) (display o) /\
  keeps (generic w) (generic o).

(* ================================================================== *)
(** * Coordinates, country join and the report frames
    ([process_gns_administrative_data], after the deduplication) *)

Section Report.

Context {R : Runtime}.

(** [admin_deduplicated] with the two columns latitude and longitude
    added. *)
Record coords_row : Type := {
  rec : admin_row;
  lat : option Q;
  long : option Q
}.

Definition with_coordinates (r : admin_row) : coords_row :=
  {| rec := r;
     lat := to_numeric (lat_dd r);
     long := to_numeric (long_dd r) |}.

(** The "final coordinate check" of the full script. *)
Definition final_coord_mask (c : coords_row) : bool :=
  notna (lat c) && notna (long c).

Definition admin_coords (s : script) (dedup : list admin_row) : list coords_row :=
  match s with
  | Full => filter final_coord_mask (map with_coordinates dedup)
  | Simple => map with_coordinates dedup
  end.

(** [left.merge(right, left_on='cc_ft', right_on='Country_Code', how='left')]:
    every left row, in order, once with each right row of the same key,
    and once with nulls when there is none.  pandas joins a null key with
    a null key. *)
Definition key_match (l : coords_row) (c : CountryCodes.row) : bool :=
  opt_eqb String.eqb (cc_ft (rec l)) (CountryCodes.Country_Code c).

Definition no_country : CountryCodes.row :=
  {| CountryCodes.Country_Code := None;
     CountryCodes.Short_Name := None;
     CountryCodes.Full_Name := None |}.

Definition merge_row (countries_df : list CountryCodes.row) (l : coords_row)
  : list (coords_row * CountryCodes.row) :=
  match filter (key_match l) countries_df with
  | [] => [(l, no_country)]
  | matches => map (pair l) matches
  end.

Definition merge (left : list coords_row) (countries_df : list CountryCodes.row)
  : list (coords_row * CountryCodes.row) :=
  flat_map (merge_row countries_df) left.

(** Renaming and selecting the final columns. *)
Definition output_row (m : coords_row * CountryCodes.row) : division :=
  let r := rec (fst m) in
  {| Country_Code := CountryCodes.Country_Code (snd m);
     Country_Name := CountryCodes.Short_Name (snd m);
     Country_Full_Name := CountryCodes.Full_Name (snd m);
     Administrative_Level := desig_cd r;
     Administrative_Name := full_name r;
     ADM1_Code := adm1 r;
     latitude := lat (fst m);
     longitude := long (fst m);
     Unique_Feature_ID := ufi r;
     Unique_Name_ID := uni r;
     Name_Type := nt r;
     Name_Rank := name_rank r;
     Language_Code := lang_cd r;
     Transliteration_Code := transl_cd r;
     Script_Code := script_cd r;
     Generic_Term := generic r |}.

(** [sort_values(['Country_Name', 'Administrative_Level', 'Administrative_Name'])] *)
Definition primary_cmp : division -> division -> comparison :=
  lex (on Country_Name (nan_last String.compare))
    (lex (on Administrative_Level (nan_last String.compare))
       (on Administrative_Name (nan_last String.compare))).

(** [output_df]: the whole pipeline, from the two frames read. *)
Definition output_df (s : script) (countries_df : list CountryCodes.row)
    (admin_df : list admin_row) : list division :=
  sort (leb_of primary_cmp)
    (map output_row
       (merge (admin_coords s (admin_deduplicated s admin_df)) countries_df)).

(** The sheets by level: [output_df[output_df['Administrative_Level'] == level]],
    written when not empty. *)
Definition level_data (level : string) (out : list division) : list division :=
  filter (fun d => opt_eqb String.eqb (Administrative_Level d) (Some level)) out.

Definition level_sheets (out : list division) : list (string * list division) :=
  flat_map
    (fun level =>
       match level_data level out with
       | [] => []
       | rows => [((level ++ "_Divisions")%string, rows)]
       end)
    ["ADM1"; "ADM2"; "ADM3"; "ADM4"; "ADMD"]%string.

End Report.

(* ================================================================== *)
(** * The country summary *)

Definition summary_key : Type := (string * string) * string.

Definition pair_eq_dec (x y : string * string) : {x = y} + {x <> y}.
Proof. decide equality; apply string_dec. Defined.

Definition key_eq_dec (x y : summary_key) : {x = y} + {x <> y}.
Proof. decide equality; [apply string_dec | apply pair_eq_dec]. Defined.

Definition pair_cmp : string * string -> string * string -> comparison :=
  lex (on fst String.compare) (on snd String.compare).

Definition key_cmp : summary_key -> summary_key -> comparison :=
  lex (on fst pair_cmp) (on snd String.compare).

(** [groupby] drops the rows where one of the keys is null. *)
Definition summary_keys (out : list division) : list summary_key :=
  flat_map
    (fun d =>
       match Country_Code d, Country_Name d, Administrative_Level d with
       | Some c, Some n, Some l => [((c, n), l)]
       | _, _, _ => []
       end)
    out.

(** [output_df.groupby(['Country_Code', 'Country_Name', 'Administrative_Level'])
      .size().reset_index(name='Count')] *)
Definition country_summary (out : list division) : list (summary_key * Z) :=
  let keys := summary_keys out in
  map (fun k => (k, Z.of_nat (count_occ key_eq_dec keys k)))
    (sort (leb_of key_cmp) (nodup key_eq_dec keys)).

(** One row of the pivot: the index, one count per level column, Total. *)
Record pivot_row : Type := {
  index : string * string;
  counts : list (string * Z);
  Total : Z
}.

Definition pivot_index (summary : list (summary_key * Z)) : list (string * string) :=
  sort (leb_of pair_cmp) (nodup pair_eq_dec (map (fun e => fst (fst e)) summary)).

Definition pivot_columns (summary : list (summary_key * Z)) : list string :=
  sort (leb_of String.compare) (nodup string_dec (map (fun e => snd (fst e)) summary)).

(** The cell of the pivot at one index and one column: the Count of the
    summary row with these keys, NaN when there is none. *)
Fixpoint pivot_value (summary : list (summary_key * Z)) (k : summary_key) : option Z :=
  match summary with
  | [] => None
  | (k', n) :: summary' =>
      if key_eq_dec k k' then Some n else pivot_value summary' k
  end.

Definition sum (l : list Z) : Z := fold_right Z.add 0%Z l.

(** [country_summary.pivot(index=['Country_Code', 'Country_Name'],
      columns='Administrative_Level', values='Count').fillna(0).astype(int)]
    followed by [country_pivot['Total'] = country_pivot.sum(axis=1)]. *)
Definition country_pivot (out : list division) : list pivot_row :=
  let summary := country_summary out in
  map
    (fun i =>
       let cs := map (fun l => (l, fillna 0%Z (pivot_value summary (i, l))))
                   (pivot_columns summary) in
       {| index := i; counts := cs; Total := sum (map snd cs) |})
    (pivot_index summary).

(** What [country_pivot.sort_values('Total', ascending=False)] is asked
    for: the rows of the pivot, rearranged in descending order of Total.
    The sort has one key, so it is numpy's default quicksort, which is
    not stable; the frame it returns is [sort_values_Total] below. *)
Definition sort_values_Total_desc (pivot sorted : list pivot_row) : Prop :=
  Permutation pivot sorted /\
  StronglySorted (fun a b => (Total b <= Total a)%Z) sorted.

(** The rearrangement that a stable sort would return ([kind='stable']). *)
Definition stable_Total_desc (pivot : list pivot_row) : list pivot_row :=
  sort (leb_of (on Total (fun a b => Z.compare b a))) pivot.

(** [country_pivot.head(30)] *)
Definition top_countries (sorted : list pivot_row) : list pivot_row :=
  firstn 30 sorted.

(** Rows of equal Total stand in ascending order of country code. *)
Definition ties_by_code_ascending (sorted : list pivot_row) : Prop :=
  forall pre a mid b post,
    sorted = pre ++ a :: mid ++ b :: post ->
    Total a = Total b ->
    String.compare (fst (index a)) (fst (index b)) <> Gt.

(** The number of rows of one country in the output, over the rows that
    the summary keeps. *)
Definition country_rows_count (out : list division) (i : string * string) : Z :=
  Z.of_nat (List.length (filter (fun k => if pair_eq_dec (fst k) i then true else false)
                      (summary_keys out))).

(* ================================================================== *)
(** * The per-country splitter ([split_by_country.py]) *)

Module SplitByCountry.

Section Split.

Context {R : Runtime}.

(** The export directory: what each file name holds. *)
Definition directory : Type := string -> option (list division).

(** [DataFrame.to_excel(path)]: the file is created or replaced. *)
Definition to_excel (path : string) (rows : list division) (fs : directory) : directory :=
  fun p => if String.eqb p path then Some rows else fs p.

(** [Series.unique()]: the values in order of first appearance, NaN
    among them. *)
Fixpoint unique_from (seen : list (option string)) (l : list (option string))
  : list (option string) :=
  match l with
  | [] => []
  | x :: l' =>
      if existsb (opt_eqb String.eqb x) seen then unique_from seen l'
      else x :: unique_from (x :: seen) l'
  end.

Definition unique (l : list (option string)) : list (option string) :=
  unique_from [] l.

Fixpoint str_filter (p : ascii -> bool) (s : string) : string :=
  match s with
  | EmptyString => EmptyString
  | String c s' => if p c then String c (str_filter p s') else str_filter p s'
  end.

(** [str.rstrip()]: trailing whitespace removed. *)
Fixpoint rstrip (s : string) : string :=
  match s with
  | EmptyString => EmptyString
  | String c s' =>
      match rstrip s' with
      | EmptyString => if isspace c then EmptyString else String c EmptyString
      | t => String c t
      end
  end.

(** ["".join([c for c in country if c.isalpha() or c.isdigit() or c.isspace()]).rstrip()] *)
Definition safe_filename (country : string) : string :=
  rstrip (str_filter (fun c => isalpha c || isdigit c || isspace c) country).

(** [output_dir / f"{safe_filename}.xlsx"], as a name inside the directory. *)
Definition output_file (country : string) : string :=
  (safe_filename country ++ ".xlsx")%string.

(** [df[df['Country_Name'] == country]] *)
Definition country_df (df : list division) (country : string) : list division :=
  filter (fun d => opt_eqb String.eqb (Country_Name d) (Some country)) df.

(** The body of the loop, for one value of [countries]. *)
Definition export_country (df : list division) (fs : directory)
    (country : option string) : directory :=
  match country with
  | None => fs
  | Some c => to_excel (output_file c) (country_df df c) fs
  end.

(** [split_data_by_country], from the frame read and the directory as it
    is found. *)
Definition split_data_by_country (df : list division) (fs : directory) : directory :=
  fold_left (export_country df) (unique (map Country_Name df)) fs.

End Split.

End SplitByCountry.

(* ================================================================== *)
(** * The subdivision query tool ([query_subdivisions.py]) *)

Module QuerySubdivisions.

(** One row of the merged frame of [load_data]. *)
Record row : Type := {
  Country_Code : option string;
  Subdivision_Code : option string;
  Subdivision_Name : option string;
  Country_Short_Name : option string;
  Country_Full_Name : option string
}.

Section Search.

Context {R : Runtime}.

Definition is_empty {A : Type} (l : list A) : bool :=
  match l with
  | [] => true
  | _ => false
  end.

(** [df[col].str.upper().str.contains(pat, na=False)] on one row, with the
    compiled pattern. *)
Definition contains (matcher : string -> bool) (c : option string) : bool :=
  match c with
  | Some v => matcher (upper v)
  | None => false
  end.

(** [search_country(df, query)]; [None] when the call raises. *)
Definition search_country (df : list row) (query : string) : option (list row) :=
  let query_upper := upper query in
  let country_code_match :=
    filter (fun r => opt_eqb String.eqb (Country_Code r) (Some query_upper)) df in
  if negb (is_empty country_code_match) then Some country_code_match
  else
    match re_compile query_upper with
    | None => None
    | Some matcher =>
        let name_match :=
          filter (fun r => contains matcher (Country_Short_Name r)) df in
        if negb (is_empty name_match) then Some name_match
        else
          let full_name_match :=
            filter (fun r => contains matcher (Country_Full_Name r)) df in
          if negb (is_empty full_name_match) then Some full_name_match
          else Some []
    end.

End Search.

End QuerySubdivisions.

(* ================================================================== *)
(** * A runtime for plain ASCII text

    Used to run the scripts on concrete frames: numbers are unsigned
    decimal integers, letters are the 52 ASCII letters, a pattern is
    searched as a literal substring. *)

Module AsciiText.

Definition code (c : ascii) : N := N_of_ascii c.

Definition is_lower (c : ascii) : bool := (97 <=? code c)%N && (code c <=? 122)%N.
Definition is_upper (c : ascii) : bool := (65 <=? code c)%N && (code c <=? 90)%N.

Definition isalpha (c : ascii) : bool := is_lower c || is_upper c.
Definition isdigit (c : ascii) : bool := (48 <=? code c)%N && (code c <=? 57)%N.
Definition isspace (c : ascii) : bool :=
  (code c =? 32)%N || ((9 <=? code c)%N && (code c <=? 13)%N)
  || ((28 <=? code c)%N && (code c <=? 31)%N).

Definition upper_char (c : ascii) : ascii :=
  if is_lower c then ascii_of_N (code c - 32) else c.

Fixpoint upper (s : string) : string :=
  match s with
  | EmptyString => EmptyString
  | String c s' => String (upper_char c) (upper s')
  end.

Fixpoint digits (acc : Z) (s : string) : option Z :=
  match s with
  | EmptyString => Some acc
  | String c s' =>
      if isdigit c then digits (10 * acc + Z.of_N (code c - 48)) s' else None
  end.

Definition str_to_num (s : string) : option Q :=
  match s with
  | EmptyString => None
  | _ => option_map inject_Z (digits 0 s)
  end.

Fixpoint substring_of (pat s : string) : bool :=
  String.prefix pat s
  || match s with
     | EmptyString => false
     | String _ s' => substring_of pat s'
     end.

Definition re_compile (pat : string) : option (string -> bool) :=
  Some (substring_of pat).

End AsciiText.

Definition ascii_runtime : Runtime :=
  {| str_to_num := AsciiText.str_to_num;
     upper := AsciiText.upper;
     re_compile := AsciiText.re_compile;
     isalpha := AsciiText.isalpha;
     isdigit := AsciiText.isdigit;
     isspace := AsciiText.isspace |}.

(* ================================================================== *)
(** * Concrete frames *)

Module Examples.

(** The scenario of two name variants of feature 100: a variant name of
    rank 1 in English and an approved name of rank 5 in French. *)
Definition variant_row : admin_row :=
  {| ufi := Some 100%Z; uni := Some 1%Z;
     full_name := Some "Bavaria"%string; nt := Some "V"%string;
     lat_dd := Num (48 # 1); long_dd := Num (11 # 1);
     desig_cd := Some "ADM1"%string; cc_ft := Some "DEU"%string;
     adm1 := Some "02"%string; name_rank := Num (1 # 1);
     lang_cd := Some "eng"%string; transl_cd := None; script_cd := None;
     display := Some "Y"%string; generic := None |}.

Definition approved_row : admin_row :=
  {| ufi := Some 100%Z; uni := Some 2%Z;
     full_name := Some "Bayern"%string; nt := Some "N"%string;
     lat_dd := Num (48 # 1); long_dd := Num (11 # 1);
     desig_cd := Some "ADM1"%string; cc_ft := Some "DEU"%string;
     adm1 := Some "02"%string; name_rank := Num (5 # 1);
     lang_cd := Some "fra"%string; transl_cd := None; script_cd := None;
     display := Some "Y"%string; generic := None |}.

(** Two approved names of the same rank and language: a tie. *)
Definition approved_twin : admin_row :=
  {| ufi := Some 100%Z; uni := Some 3%Z;
     full_name := Some "Baviere"%string; nt := Some "N"%string;
     lat_dd := Num (48 # 1); long_dd := Num (11 # 1);
     desig_cd := Some "ADM1"%string; cc_ft := Some "DEU"%string;
     adm1 := Some "02"%string; name_rank := Num (5 # 1);
     lang_cd := Some "fra"%string; transl_cd := None; script_cd := None;
     display := Some "Y"%string; generic := None |}.

(** An approved name whose language is not recorded. *)
Definition approved_no_lang : admin_row :=
  {| ufi := Some 100%Z; uni := Some 2%Z;
     full_name := Some "Bayern"%string; nt := Some "N"%string;
     lat_dd := Num (48 # 1); long_dd := Num (11 # 1);
     desig_cd := Some "ADM1"%string; cc_ft := Some "DEU"%string;
     adm1 := Some "02"%string; name_rank := Num (1 # 1);
     lang_cd := None; transl_cd := None; script_cd := None;
     display := Some "Y"%string; generic := None |}.

(** What [first] returns for the group of [approved_no_lang] and
    [variant_row]. *)
Definition mixed_row : admin_row :=
  {| ufi := Some 100%Z; uni := Some 2%Z;
     full_name := Some "Bayern"%string; nt := Some "N"%string;
     lat_dd := Num (48 # 1); long_dd := Num (11 # 1);
     desig_cd := Some "ADM1"%string; cc_ft := Some "DEU"%string;
     adm1 := Some "02"%string; name_rank := Num (1 # 1);
     lang_cd := Some "eng"%string; transl_cd := None; script_cd := None;
     display := Some "Y"%string; generic := None |}.

(** An approved name whose rank is no number, and one of rank 1000. *)
Definition unranked : admin_row :=
  {| ufi := Some 100%Z; uni := Some 4%Z;
     full_name := Some "Bayern"%string; nt := Some "N"%string;
     lat_dd := Num (48 # 1); long_dd := Num (11 # 1);
     desig_cd := Some "ADM1"%string; cc_ft := Some "DEU"%string;
     adm1 := Some "02"%string; name_rank := Str "unknown";
     lang_cd := Some "deu"%string; transl_cd := None; script_cd := None;
     display := Some "Y"%string; generic := None |}.

Definition ranked_1000 : admin_row :=
  {| ufi := Some 100%Z; uni := Some 5%Z;
     full_name := Some "Freistaat Bayern"%string; nt := Some "N"%string;
     lat_dd := Num (48 # 1); long_dd := Num (11 # 1);
     desig_cd := Some "ADM1"%string; cc_ft := Some "DEU"%string;
     adm1 := Some "02"%string; name_rank := Num (1000 # 1);
     lang_cd := Some "deu"%string; transl_cd := None; script_cd := None;
     display := Some "Y"%string; generic := None |}.

(** A record with an empty display flag, at level ADM1. *)
Definition hidden_row : admin_row :=
  {| ufi := Some 200%Z; uni := Some 6%Z;
     full_name := Some "Hessen"%string; nt := Some "N"%string;
     lat_dd := Num (50 # 1); long_dd := Num (9 # 1);
     desig_cd := Some "ADM1"%string; cc_ft := Some "DEU"%string;
     adm1 := Some "05"%string; name_rank := Num (1 # 1);
     lang_cd := Some "deu"%string; transl_cd := None; script_cd := None;
     display := Some ""%string; generic := None |}.

(** A division of another country. *)
Definition bretagne_row : admin_row :=
  {| ufi := Some 300%Z; uni := Some 7%Z;
     full_name := Some "Bretagne"%string; nt := Some "N"%string;
     lat_dd := Num (48 # 1); long_dd := Num (-3 # 1);
     desig_cd := Some "ADM1"%string; cc_ft := Some "FRA"%string;
     adm1 := Some "53"%string; name_rank := Num (1 # 1);
     lang_cd := Some "fra"%string; transl_cd := None; script_cd := None;
     display := Some "Y"%string; generic := None |}.

Definition germany : CountryCodes.row :=
  {| CountryCodes.Country_Code := Some "DEU"%string;
     CountryCodes.Short_Name := Some "Germany"%string;
     CountryCodes.Full_Name := Some "Federal Republic of Germany"%string |}.

Definition france : CountryCodes.row :=
  {| CountryCodes.Country_Code := Some "FRA"%string;
     CountryCodes.Short_Name := Some "France"%string;
     CountryCodes.Full_Name := Some "French Republic"%string |}.

(** The output for one division of Germany and one of France, and the two
    rows of its summary. *)
Definition two_countries : list division :=
  @output_df ascii_runtime Full [germany; france] [approved_row; bretagne_row].

Definition germany_total : pivot_row :=
  {| index := ("DEU", "Germany")%string;
     counts := [("ADM1"%string, 1%Z)];
     Total := 1%Z |}.

Definition france_total : pivot_row :=
  {| index := ("FRA", "France")%string;
     counts := [("ADM1"%string, 1%Z)];
     Total := 1%Z |}.

(** Eighteen countries with one division each: eighteen equal totals. *)
Definition tied_codes : list string :=
  ["C01"; "C02"; "C03"; "C04"; "C05"; "C06"; "C07"; "C08"; "C09";
   "C10"; "C11"; "C12"; "C13"; "C14"; "C15"; "C16"; "C17"; "C18"]%string.

Definition capital_of (code : string) : division :=
  {| Country_Code := Some code; Country_Name := Some code;
     Country_Full_Name := Some code;
     Administrative_Level := Some "ADM1"%string;
     Administrative_Name := Some "Capital"%string; ADM1_Code := None;
     latitude := Some (1 # 1); longitude := Some (1 # 1);
     Unique_Feature_ID := None; Unique_Name_ID := None;
     Name_Type := Some "N"%string; Name_Rank := Num (1 # 1);
     Language_Code := None; Transliteration_Code := None;
     Script_Code := None; Generic_Term := None |}.

Definition tied_countries : list division := map capital_of tied_codes.

Definition tied_total (code : string) : pivot_row :=
  {| index := (code, code);
     counts := [("ADM1"%string, 1%Z)];
     Total := 1%Z |}.

(** Two rows of the sheet All_Admin_Divisions whose country names differ
    by a hyphen only, and one row with no country name. *)
Definition division_of (country : option string) (name : string) : division :=
  {| Country_Code := None; Country_Name := country; Country_Full_Name := None;
     Administrative_Level := Some "ADM1"%string;
     Administrative_Name := Some name; ADM1_Code := None;
     latitude := Some (1 # 1); longitude := Some (1 # 1);
     Unique_Feature_ID := None; Unique_Name_ID := None;
     Name_Type := Some "N"%string; Name_Rank := Num (1 # 1);
     Language_Code := None; Transliteration_Code := None;
     Script_Code := None; Generic_Term := None |}.

Definition bafata : division := division_of (Some "Guinea-Bissau"%string) "Bafata".
Definition conakry : division := division_of (Some "GuineaBissau"%string) "Conakry".
Definition nowhere : division := division_of None "Nowhere".

Definition empty_directory : SplitByCountry.directory := fun _ => None.

(** Rows of the query tool: Indonesia, whose name contains the code of
    India, and India. *)
Definition jakarta : QuerySubdivisions.row :=
  {| QuerySubdivisions.Country_Code := Some "IDN"%string;
     QuerySubdivisions.Subdivision_Code := Some "ID-JK"%string;
     QuerySubdivisions.Subdivision_Name := Some "Jakarta"%string;
     QuerySubdivisions.Country_Short_Name := Some "Indonesia"%string;
     QuerySubdivisions.Country_Full_Name := Some "Republic of Indonesia"%string |}.

Definition goa : QuerySubdivisions.row :=
  {| QuerySubdivisions.Country_Code := Some "IND"%string;
     QuerySubdivisions.Subdivision_Code := Some "IN-GA"%string;
     QuerySubdivisions.Subdivision_Name := Some "Goa"%string;
     QuerySubdivisions.Country_Short_Name := Some "India"%string;
     QuerySubdivisions.Country_Full_Name := Some "Republic of India"%string |}.

End Examples.

(* ================================================================== *)
(** * Notions used to state further properties *)

(** A record with a value in every column. *)
Definition complete (r : admin_row) : Prop :=
  uni r <> None /\ full_name r <> None /\ nt r <> None /\
  lat_dd r <> NaN /\ long_dd r <> NaN /\ desig_cd r <> None /\
  cc_ft r <> None /\ adm1 r <> None /\ name_rank r <> NaN /\
  lang_cd r <> None /\ transl_cd r <> None /\ script_cd r <> None /\
  display r <> None /\ generic r <> None.

(** The levels that have a sheet of their own, as the loop over the
    sheets lists them. *)
Definition sheet_levels : list string :=
  ["ADM1"; "ADM2"; "ADM3"; "ADM4"; "ADMD"]%string.

(** The rows that [groupby] keeps for the country summary. *)
Definition summary_row (d : division) : bool :=
  notna (Country_Code d) && notna (Country_Name d) && notna (Administrative_Level d).

(** The countries of the loop of the splitter that write the file [p]. *)
Definition writes_to {R : Runtime} (p : string) (country : option string) : bool :=
  match country with
  | Some c => String.eqb (SplitByCountry.output_file c) p
  | None => false
  end.

(* ================================================================== *)
(** * Loading the frame of the query tool ([load_data]) *)

Module LoadData.

(** One row of [ADM1_Codes.csv], with the columns the tool shows. *)
Record adm1_row : Type := {
  Country_Code : option string;
  First_Order_Administrative_Subdivision_Code : option string;
  Name : option string
}.

Definition code_match (s : adm1_row) (c : CountryCodes.row) : bool :=
  opt_eqb String.eqb (Country_Code s) (CountryCodes.Country_Code c).

(** One merged row, after the renaming of the columns. *)
Definition merged_row (s : adm1_row) (short full : option string) : QuerySubdivisions.row :=
  {| QuerySubdivisions.Country_Code := Country_Code s;
     QuerySubdivisions.Subdivision_Code := First_Order_Administrative_Subdivision_Code s;
     QuerySubdivisions.Subdivision_Name := Name s;
     QuerySubdivisions.Country_Short_Name := short;
     QuerySubdivisions.Country_Full_Name := full |}.

(** [subdivisions_df.merge(countries_df[[...]], on='Country_Code', how='left')]
    and the renaming. *)
Definition load_data (subdivisions_df : list adm1_row)
    (countries_df : list CountryCodes.row) : list QuerySubdivisions.row :=
  flat_map
    (fun s =>
       match filter (code_match s) countries_df with
       | [] => [merged_row s None None]
       | matches =>
           map (fun c => merged_row s (CountryCodes.Short_Name c) (CountryCodes.Full_Name c))
             matches
       end)
    subdivisions_df.

(** The columns of a merged row that come from [ADM1_Codes.csv]. *)
Definition subdivision_of (r : QuerySubdivisions.row) : adm1_row :=
  {| Country_Code := QuerySubdivisions.Country_Code r;
     First_Order_Administrative_Subdivision_Code := QuerySubdivisions.Subdivision_Code r;
     Name := QuerySubdivisions.Subdivision_Name r |}.

End LoadData.

(* ================================================================== *)
(** * More concrete frames *)

Module Examples2.

(** A historical first-order division: its code begins with ADM1. *)
Definition historical_row : admin_row :=
  {| ufi := Some 400%Z; uni := Some 8%Z;
     full_name := Some "Preussen"%string; nt := Some "N"%string;
     lat_dd := Num (52 # 1); long_dd := Num (13 # 1);
     desig_cd := Some "ADM1H"%string; cc_ft := Some "DEU"%string;
     adm1 := Some "00"%string; name_rank := Num (1 # 1);
     lang_cd := Some "deu"%string; transl_cd := None; script_cd := None;
     display := Some "Y"%string; generic := None |}.

(** A record with a value in every column. *)
Definition full_row : admin_row :=
  {| ufi := Some 500%Z; uni := Some 9%Z;
     full_name := Some "Sachsen"%string; nt := Some "N"%string;
     lat_dd := Num (51 # 1); long_dd := Num (13 # 1);
     desig_cd := Some "ADM1"%string; cc_ft := Some "DEU"%string;
     adm1 := Some "13"%string; name_rank := Num (1 # 1);
     lang_cd := Some "deu"%string; transl_cd := Some "NT"%string;
     script_cd := Some "LATN"%string;
     display := Some "Y"%string; generic := Some "Freistaat"%string |}.

(** A variant name of the feature of [full_row], itself with a value in
    every column, that stands before it in the input. *)
Definition full_variant : admin_row :=
  {| ufi := Some 500%Z; uni := Some 10%Z;
     full_name := Some "Saxony"%string; nt := Some "V"%string;
     lat_dd := Num (50 # 1); long_dd := Num (12 # 1);
     desig_cd := Some "ADM1"%string; cc_ft := Some "DEU"%string;
     adm1 := Some "14"%string; name_rank := Num (2 # 1);
     lang_cd := Some "eng"%string; transl_cd := Some "XX"%string;
     script_cd := Some "LATN"%string;
     display := Some "Y"%string; generic := Some "State"%string |}.

Definition bayern_division : division :=
  output_row
    (@with_coordinates ascii_runtime Examples.approved_row, Examples.germany).

Definition goa_code : LoadData.adm1_row :=
  {| LoadData.Country_Code := Some "IND"%string;
     LoadData.First_Order_Administrative_Subdivision_Code := Some "IN-GA"%string;
     LoadData.Name := Some "Goa"%string |}.

Definition jakarta_code : LoadData.adm1_row :=
  {| LoadData.Country_Code := Some "IDN"%string;
     LoadData.First_Order_Administrative_Subdivision_Code := Some "ID-JK"%string;
     LoadData.Name := Some "Jakarta"%string |}.

Definition india : CountryCodes.row :=
  {| CountryCodes.Country_Code := Some "IND"%string;
     CountryCodes.Short_Name := Some "India"%string;
     CountryCodes.Full_Name := Some "Republic of India"%string |}.

Definition indonesia : CountryCodes.row :=
  {| CountryCodes.Country_Code := Some "IDN"%string;
     CountryCodes.Short_Name := Some "Indonesia"%string;
     CountryCodes.Full_Name := Some "Republic of Indonesia"%string |}.

End Examples2.

(* ================================================================== *)
(** * The sort of the summary by Total

    [country_pivot.sort_values('Total', ascending=False)] sorts on one
    column with the default [kind='quicksort']: pandas' [nargsort]
    reverses the column, calls numpy's [argsort] on it and reverses the
    indexer it gets.  For an integer column [argsort] is numpy's
    [aquicksort_]: an introsort over an array of indices, with a median
    of three as pivot, an insertion sort for the segments of at most
    seventeen entries and a heap sort once the depth limit is spent. *)

Module Numpy.

Local Open Scope nat_scope.

(** [npy_intp *tosort]: the array of indices, read and written in place. *)
Definition get (a : list nat) (p : nat) : nat := nth p a 0%nat.

Fixpoint set (a : list nat) (p : nat) (x : nat) : list nat :=
  match a, p with
  | [], _ => []
  | _ :: a', O => x :: a'
  | y :: a', S p' => y :: set a' p' x
  end.

(** [INTP_SWAP]: the entries at [p] and [q] change places. *)
Definition INTP_SWAP (a : list nat) (p q : nat) : list nat :=
  set (set a p (get a q)) q (get a p).

(** [SMALL_QUICKSORT] *)
Definition SMALL_QUICKSORT : nat := 16.

(** [npy_get_msb(num)]: the number of times [num] can be halved before
    it is zero, less one. *)
Definition npy_get_msb (num : nat) : Z := Z.log2 (Z.of_nat num).

Section Argsort.

(** [npy_long *v]: the keys, never written. *)
Variable v : list Z.

(** [v[i]] *)
Definition key (i : nat) : Z := nth i v 0%Z.

(** [Tag::less] on integers. *)
Definition less (x y : Z) : bool := (x <? y)%Z.

(** [do { ++pi; } while (less(v[*pi], vp));], stopped after [fuel] steps. *)
Fixpoint scan_up (fuel : nat) (a : list nat) (vp : Z) (pi : nat) : nat :=
  match fuel with
  | O => S pi
  | S fuel' =>
      if less (key (get a (S pi))) vp then scan_up fuel' a vp (S pi) else S pi
  end.

(** [do { --pj; } while (less(vp, v[*pj]));] *)
Fixpoint scan_down (a : list nat) (vp : Z) (pj : nat) : nat :=
  match pj with
  | O => O
  | S pj' => if less vp (key (get a pj')) then scan_down a vp pj' else pj'
  end.

(** The loop [for (;;)] of the partition: both scans, [break] when they
    have met, else the exchange. *)
Fixpoint partition_loop (fuel : nat) (a : list nat) (vp : Z) (pi pj : nat)
  : list nat * nat :=
  let pi := scan_up (List.length a) a vp pi in
  let pj := scan_down a vp pj in
  if pj <=? pi then (a, pi)
  else
    match fuel with
    | O => (a, pi)
    | S fuel' => partition_loop fuel' (INTP_SWAP a pi pj) vp pi pj
    end.

(** One round of the loop [while ((pr - pl) > SMALL_QUICKSORT)]: the
    median of three as pivot, parked at [pr - 1], the partition, and the
    pivot put at its place [pi], which is returned with the array. *)
Definition partition (a : list nat) (pl pr : nat) : list nat * nat :=
  let pm := pl + Nat.shiftr (pr - pl) 1 in
  let a := if less (key (get a pm)) (key (get a pl)) then INTP_SWAP a pm pl else a in
  let a := if less (key (get a pr)) (key (get a pm)) then INTP_SWAP a pr pm else a in
  let a := if less (key (get a pm)) (key (get a pl)) then INTP_SWAP a pm pl else a in
  let vp := key (get a pm) in
  let pi := pl in
  let pj := pr - 1 in
  let a := INTP_SWAP a pm pj in
  let '(a, pi) := partition_loop (pr - pl) a vp pi pj in
  let pk := pr - 1 in
  (INTP_SWAP a pi pk, pi).

(** [while (pj > pl && less(vp, v[*pk])) { *pj-- = *pk--; }], where [pk]
    is [pj - 1] throughout. *)
Fixpoint shift (a : list nat) (vp : Z) (pl pj : nat) : list nat * nat :=
  match pj with
  | O => (a, pj)
  | S pk =>
      if (pl <? pj) && less vp (key (get a pk))
      then shift (set a pj (get a pk)) vp pl pk
      else (a, pj)
  end.

(** The insertion sort [for (pi = pl + 1; pi <= pr; ++pi)], with [n]
    rounds left. *)
Fixpoint insertion_sort (n : nat) (a : list nat) (pl pi : nat) : list nat :=
  match n with
  | O => a
  | S n' =>
      let vi := get a pi in
      let vp := key vi in
      let '(a, pj) := shift a vp pl pi in
      insertion_sort n' (set a pj vi) pl (S pi)
  end.

(** [a = tosort - 1]: the heap sort counts the entries of its segment
    from one, entry [k] standing at [pl + k - 1]. *)
Definition heap_at (pl k : nat) : nat := pl + k - 1.

(** The loop [for (...; j <= n;)] that lets the entry in hand, [tmp],
    sink from [i], and the assignment [a[i] = tmp] that follows it:
    the greater child goes up as long as it is greater than [tmp].  The
    loop doubles [j] at each round; [fuel] bounds the rounds. *)
Fixpoint sift_down (fuel : nat) (a : list nat) (pl n tmp i j : nat) : list nat :=
  match fuel with
  | O => set a (heap_at pl i) tmp
  | S fuel' =>
      if j <=? n then
        let j :=
          if (j <? n) &&
             less (key (get a (heap_at pl j))) (key (get a (heap_at pl (j + 1))))
          then j + 1 else j in
        if less (key tmp) (key (get a (heap_at pl j)))
        then sift_down fuel' (set a (heap_at pl i) (get a (heap_at pl j)))
               pl n tmp j (j + j)
        else set a (heap_at pl i) tmp
      else set a (heap_at pl i) tmp
  end.

(** [for (l = n >> 1; l > 0; --l)]: the heap is built. *)
Fixpoint build_heap (l : nat) (a : list nat) (pl n : nat) : list nat :=
  match l with
  | O => a
  | S l' =>
      build_heap l'
        (sift_down n a pl n (get a (heap_at pl l)) l (Nat.shiftl l 1)) pl n
  end.

(** [for (; n > 1;)]: the greatest entry goes to the end of the heap,
    which is then one entry shorter. *)
Fixpoint extract (n : nat) (a : list nat) (pl : nat) : list nat :=
  match n with
  | O => a
  | S n' =>
      if 1 <? n then
        let tmp := get a (heap_at pl n) in
        let a := set a (heap_at pl n) (get a (heap_at pl 1)) in
        extract n' (sift_down n' a pl n' tmp 1 2) pl
      else a
  end.

(** [aheapsort_(vv, pl, n)], the sort of last resort. *)
Definition aheapsort (a : list nat) (pl n : nat) : list nat :=
  extract n (build_heap (Nat.shiftr n 1) a pl n) pl.

(** The loop [while (1)] of [aquicksort_], one segment [pl .. pr] in
    hand and the others on the stack with their depths.  [inner] tells
    that the control is inside the loop of the partitions, where the
    depth is not looked at.  The C loop ends when the stack is empty;
    [None] is the run that [fuel] rounds did not end. *)
Fixpoint aquicksort_loop (fuel : nat) (inner : bool) (a : list nat) (pl pr : nat)
    (cdepth : Z) (stack : list (nat * nat * Z)) : option (list nat) :=
  match fuel with
  | O => None
  | S fuel' =>
      let stack_pop (a : list nat) :=
        match stack with
        | [] => Some a
        | (pl', pr', cdepth') :: stack' =>
            aquicksort_loop fuel' false a pl' pr' cdepth' stack'
        end in
      if negb inner && (cdepth <? 0)%Z then
        stack_pop (aheapsort a pl (pr - pl + 1))
      else if SMALL_QUICKSORT <? pr - pl then
        let '(a, pi) := partition a pl pr in
        if pi - pl <? pr - pi then
          aquicksort_loop fuel' true a pl (pi - 1) (cdepth - 1)
            ((pi + 1, pr, (cdepth - 1)%Z) :: stack)
        else
          aquicksort_loop fuel' true a (pi + 1) pr (cdepth - 1)
            ((pl, pi - 1, (cdepth - 1)%Z) :: stack)
      else
        stack_pop (insertion_sort (pr - pl) a pl (pl + 1))
  end.

(** [aquicksort_(v, tosort, num)] on the indices [0 .. num - 1]. *)
Definition aquicksort (num : nat) : option (list nat) :=
  aquicksort_loop (2 * num + 2) false (seq 0 num) 0 (num - 1)
    (2 * npy_get_msb num) [].

End Argsort.

(** What a sort of the segment [l .. r] in place is held to: it leaves
    the rest of the array alone, it exchanges entries of the segment
    among themselves, and the keys of the segment end up in ascending
    order. *)
Definition agree_outside (a a' : list nat) (l r : nat) : Prop :=
  forall k, k < l \/ r < k -> get a' k = get a k.

Definition within (a a' : list nat) (l r : nat) : Prop :=
  forall j, l <= j <= r -> exists j', l <= j' <= r /\ get a' j = get a j'.

Definition rearranges (a a' : list nat) (l r : nat) : Prop :=
  List.length a' = List.length a /\ agree_outside a a' l r /\
  within a a' l r /\ Permutation a a'.

Definition sorted_seg (v : list Z) (a : list nat) (l r : nat) : Prop :=
  forall i j, l <= i -> i <= j -> j <= r ->
    (key v (get a i) <= key v (get a j))%Z.

Definition sorts_segment (v : list Z) (a : list nat) (l r : nat) (a' : list nat)
  : Prop :=
  rearranges a a' l r /\ sorted_seg v a' l r.

(** The segments still to sort, in the order the loop takes them: the
    one in hand, then the stack from its top. *)
Fixpoint chain (v : list Z) (a : list nat) (segs : list (nat * nat)) (a' : list nat)
  : Prop :=
  match segs with
  | [] => a' = a
  | (l, r) :: segs' =>
      exists a1, sorts_segment v a l r a1 /\ chain v a1 segs' a'
  end.

(** The heap of the heap sort: entry [c] is a child of entry [k], and
    from entry [lo] on no child is above its parent. *)
Definition child (k c : nat) : Prop := c = 2 * k \/ c = 2 * k + 1.

Definition heap_from (v : list Z) (a : list nat) (pl lo n : nat) : Prop :=
  forall k c, lo <= k -> child k c -> c <= n ->
    (key v (get a (heap_at pl c)) <= key v (get a (heap_at pl k)))%Z.

(** The heap while [tmp] sinks: the place [i] is free, the heap holds
    around it, and what stands above [i] is above its children and
    above [tmp]. *)
Definition sift_inv (v : list Z) (a : list nat) (pl lo n tmp i : nat) : Prop :=
  (forall k c, lo <= k -> child k c -> c <= n -> k <> i -> c <> i ->
     (key v (get a (heap_at pl c)) <= key v (get a (heap_at pl k)))%Z) /\
  (forall p c, lo <= p -> child p i -> child i c -> c <= n ->
     (key v (get a (heap_at pl c)) <= key v (get a (heap_at pl p)))%Z) /\
  (forall p, lo <= p -> child p i ->
     (key v tmp <= key v (get a (heap_at pl p)))%Z).

(** A bound on the rounds of the loop that the segments still need. *)
Fixpoint work (segs : list (nat * nat)) : nat :=
  match segs with
  | [] => 0
  | (l, r) :: segs' => 2 * (r - l) + 3 + work segs'
  end.

(** [non_nans.argsort(kind='quicksort')] *)
Definition argsort (items : list Z) : option (list nat) :=
  aquicksort items (List.length items).

End Numpy.

(** [nargsort(items, kind='quicksort', ascending=False)] on a column
    that holds no null, as Total does: the column and the places are
    reversed, the reversed column goes through [argsort], the places are
    read through the order it returns, and the result is reversed. *)
Definition nargsort_descending (items : list Z) : option (list nat) :=
  let idx := seq 0 (List.length items) in
  let non_nans := rev items in
  let non_nan_idx := rev idx in
  match Numpy.argsort non_nans with
  | Some order => Some (rev (map (fun i => nth i non_nan_idx 0%nat) order))
  | None => None
  end.

(** [DataFrame.take(indexer)]: the rows at the places of the indexer;
    [None] is the [IndexError] of a place that is not in the frame. *)
Fixpoint take {A : Type} (df : list A) (indexer : list nat) : option (list A) :=
  match indexer with
  | [] => Some []
  | i :: indexer' =>
      match nth_error df i, take df indexer' with
      | Some row, Some rows => Some (row :: rows)
      | _, _ => None
      end
  end.

(** [country_pivot.sort_values('Total', ascending=False)], as pandas and
    numpy run it; [None] is a call that does not return a frame. *)
Definition sort_values_Total (pivot : list pivot_row) : option (list pivot_row) :=
  match nargsort_descending (map Total pivot) with
  | Some indexer => take pivot indexer
  | None => None
  end.

Module Examples3.

(** The order in which the quicksort leaves the eighteen countries of
    [Examples.tied_countries], all of one division. *)
Definition quicksort_order : list string :=
  ["C01"; "C02"; "C17"; "C16"; "C15"; "C14"; "C13"; "C12"; "C11"; "C10";
   "C09"; "C08"; "C07"; "C06"; "C05"; "C04"; "C03"; "C18"]%string.

End Examples3.
(* ================================================================== *)
(** * Facts about comparisons and the stable sort *)

Lemma CompOpp_eq_inj (c d : comparison) : CompOpp c = CompOpp d -> c = d.
Proof. destruct c, d; simpl; congruence. Qed.

Lemma cmp_eq_r {A : Type} {cmp : A -> A -> comparison} (H : total_cmp cmp) x y z :
  cmp y z = Eq -> cmp x y = cmp x z.
Proof.
  intros E. apply CompOpp_eq_inj.
  rewrite <- !(cmp_opp H). apply (cmp_eq_l H). exact E.
Qed.

Lemma cmp_refl {A : Type} {cmp : A -> A -> comparison} (H : total_cmp cmp) x :
  cmp x x = Eq.
Proof.
  pose proof (cmp_opp H x x) as E. destruct (cmp x x); simpl in E; congruence.
Qed.

Lemma lex_total_cmp {A : Type} (c1 c2 : A -> A -> comparison) :
  total_cmp c1 -> total_cmp c2 -> total_cmp (lex c1 c2).
Proof.
  intros H1 H2. split.
  - intros x y. unfold lex. rewrite (cmp_opp H1 x y), (cmp_opp H2 x y).
    destruct (c1 x y); reflexivity.
  - intros c x y z. unfold lex.
    destruct (c1 x y) eqn:Exy.
    + rewrite (cmp_eq_l H1 _ _ z Exy).
      destruct (c1 y z) eqn:Eyz; intros Hxy Hyz; try exact Hyz.
      exact (cmp_trans H2 _ _ _ _ Hxy Hyz).
    + intros <-. destruct (c1 y z) eqn:Eyz; intros Hyz.
      * rewrite <- (cmp_eq_r H1 x _ _ Eyz), Exy. reflexivity.
      * rewrite (cmp_trans H1 _ _ _ _ Exy Eyz). reflexivity.
      * discriminate.
    + intros <-. destruct (c1 y z) eqn:Eyz; intros Hyz.
      * rewrite <- (cmp_eq_r H1 x _ _ Eyz), Exy. reflexivity.
      * discriminate.
      * rewrite (cmp_trans H1 _ _ _ _ Exy Eyz). reflexivity.
  - intros x y z. unfold lex.
    destruct (c1 x y) eqn:Exy; try discriminate.
    intros E2. rewrite (cmp_eq_l H1 _ _ z Exy), (cmp_eq_l H2 _ _ z E2). reflexivity.
Qed.

Lemma on_total_cmp {A B : Type} (f : B -> A) (cmp : A -> A -> comparison) :
  total_cmp cmp -> total_cmp (on f cmp).
Proof.
  intros H. split; unfold on.
  - intros x y. apply (cmp_opp H).
  - intros c x y z. apply (cmp_trans H).
  - intros x y z. apply (cmp_eq_l H).
Qed.

Lemma nan_last_total_cmp {A : Type} (cmp : A -> A -> comparison) :
  total_cmp cmp -> total_cmp (nan_last cmp).
Proof.
  intros H. split.
  - intros [x|] [y|]; simpl; try reflexivity. apply (cmp_opp H).
  - intros c [x|] [y|] [z|]; simpl; try congruence. apply (cmp_trans H).
  - intros [x|] [y|] [z|]; simpl; try congruence. apply (cmp_eq_l H).
Qed.

Lemma Z_total_cmp : total_cmp Z.compare.
Proof.
  split.
  - intros x y. apply Z.compare_antisym.
  - intros c x y z.
    destruct c; rewrite ?Z.compare_eq_iff, ?Z.compare_lt_iff, ?Z.compare_gt_iff; lia.
  - intros x y z E. apply Z.compare_eq_iff in E. subst. reflexivity.
Qed.

Lemma Q_total_cmp : total_cmp Qcompare.
Proof.
  split.
  - intros x y. symmetry. apply Qcompare_antisym.
  - intros c x y z.
    destruct c; rewrite <- ?Qeq_alt, <- ?Qlt_alt, <- ?Qgt_alt; lra.
  - intros x y z E. apply Qeq_alt in E. rewrite E. reflexivity.
Qed.

Lemma leb_of_total {A : Type} {cmp : A -> A -> comparison} (H : total_cmp cmp) x y :
  leb_of cmp x y = false -> leb_of cmp y x = true.
Proof.
  unfold leb_of. rewrite (cmp_opp H x y). destruct (cmp x y); simpl; congruence.
Qed.

Lemma leb_of_trans {A : Type} {cmp : A -> A -> comparison} (H : total_cmp cmp) x y z :
  leb_of cmp x y = true -> leb_of cmp y z = true -> leb_of cmp x z = true.
Proof.
  unfold leb_of.
  destruct (cmp x y) eqn:Exy; try discriminate; intros _.
  - rewrite (cmp_eq_l H _ _ z Exy). trivial.
  - destruct (cmp y z) eqn:Eyz; try discriminate; intros _.
    + rewrite <- (cmp_eq_r H x _ _ Eyz), Exy. reflexivity.
    + rewrite (cmp_trans H _ _ _ _ Exy Eyz). reflexivity.
Qed.

Section StableSortFacts.

Context {A : Type}.
Variable leb : A -> A -> bool.

Lemma insert_perm x l : Permutation (x :: l) (insert leb x l).
Proof.
  induction l as [|y l IH]; simpl.
  - apply Permutation_refl.
  - destruct (leb x y).
    + apply Permutation_refl.
    + eapply perm_trans; [apply perm_swap|]. apply perm_skip, IH.
Qed.

Lemma sort_perm l : Permutation l (sort leb l).
Proof.
  induction l as [|x l IH]; simpl.
  - apply perm_nil.
  - eapply perm_trans; [apply perm_skip, IH|]. apply insert_perm.
Qed.

Lemma sort_In x l : In x (sort leb l) <-> In x l.
Proof.
  split; apply Permutation_in;
    [apply Permutation_sym|]; apply sort_perm.
Qed.

Hypothesis leb_total : forall x y, leb x y = false -> leb y x = true.
Hypothesis leb_trans : forall x y z, leb x y = true -> leb y z = true -> leb x z = true.

Let le (x y : A) : Prop := leb x y = true.

Lemma insert_sorted x l : StronglySorted le l -> StronglySorted le (insert leb x l).
Proof.
  induction 1 as [|y l Hs IH Hy]; simpl.
  - constructor; constructor.
  - destruct (leb x y) eqn:E.
    + constructor.
      * constructor; assumption.
      * constructor; [exact E|].
        rewrite Forall_forall in *. intros z Hz.
        exact (leb_trans _ _ _ E (Hy z Hz)).
    + constructor; [exact IH|].
      rewrite Forall_forall in *. intros z Hz.
      apply (Permutation_in _ (Permutation_sym (insert_perm x l))) in Hz.
      destruct Hz as [<-|Hz]; [apply leb_total, E|apply Hy, Hz].
Qed.

Lemma sort_sorted l : StronglySorted le (sort leb l).
Proof.
  induction l; simpl; [constructor|apply insert_sorted; assumption].
Qed.

(** Selecting rows commutes with inserting into a sorted frame. *)
Lemma filter_insert (p : A -> bool) x l :
  StronglySorted le l ->
  filter p (insert leb x l) = if p x then insert leb x (filter p l) else filter p l.
Proof.
  induction 1 as [|y l Hs IH Hy]; simpl.
  - destruct (p x); reflexivity.
  - destruct (leb x y) eqn:E; simpl.
    + destruct (p x) eqn:Px; [|reflexivity].
      destruct (p y) eqn:Py; simpl; [rewrite E; reflexivity|].
      (* x goes in front of the first selected row of l *)
      clear IH. induction l as [|z l IHl]; simpl; [reflexivity|].
      inversion Hy as [|? ? Hz Hy']; subst.
      inversion Hs as [|? ? Hs' Hz']; subst.
      destruct (p z); simpl.
      * rewrite (leb_trans _ _ _ E Hz). reflexivity.
      * apply IHl; assumption.
    + rewrite IH. destruct (p y) eqn:Py; simpl.
      * destruct (p x); [rewrite E|]; reflexivity.
      * reflexivity.
Qed.

(** Selecting rows of a stably sorted frame is sorting the selected
    rows: the relative order of the selected rows is that of the sort. *)
Lemma filter_sort (p : A -> bool) l : filter p (sort leb l) = sort leb (filter p l).
Proof.
  induction l as [|x l IH]; simpl; [reflexivity|].
  rewrite filter_insert by apply sort_sorted.
  rewrite IH. destruct (p x); reflexivity.
Qed.

(** The first row of a stably sorted frame: every row before it in the
    input is strictly larger, every row after it is at least as large. *)
Lemma sort_head_split l w rest :
  sort leb l = w :: rest ->
  exists pre post, l = pre ++ w :: post /\
    (forall r, In r pre -> leb r w = false) /\
    (forall r, In r post -> leb w r = true).
Proof.
  revert w rest. induction l as [|x l IH]; simpl; intros w rest E; [discriminate|].
  destruct (sort leb l) as [|w' rest'] eqn:Es.
  - simpl in E. injection E as <- <-.
    destruct l as [|y l].
    + exists [], []. repeat split; simpl; tauto.
    + exfalso. pose proof (sort_perm (y :: l)) as P. rewrite Es in P.
      apply Permutation_sym, Permutation_nil in P. discriminate.
  - destruct (IH _ _ eq_refl) as (pre & post & -> & Hpre & Hpost).
    simpl in E. destruct (leb x w') eqn:Exw; injection E as <- <-.
    + exists [], (pre ++ w' :: post). repeat split; simpl; try tauto.
      intros r Hr. apply in_app_or in Hr. destruct Hr as [Hr|[<-|Hr]].
      * apply (leb_trans _ _ _ Exw). apply leb_total, Hpre, Hr.
      * exact Exw.
      * exact (leb_trans _ _ _ Exw (Hpost r Hr)).
    + exists (x :: pre), post. repeat split; simpl.
      * intros r [<-|Hr]; [exact Exw|apply Hpre, Hr].
      * exact Hpost.
Qed.

(** Rows that all tie keep their order. *)
Lemma sort_all_tied l :
  (forall x y, In x l -> In y l -> leb x y = true) -> sort leb l = l.
Proof.
  induction l as [|x l IH]; simpl; intros H; [reflexivity|].
  rewrite IH by (intros a b Ha Hb; apply H; right; assumption).
  destruct l as [|y l]; simpl; [reflexivity|].
  rewrite (H x y); [reflexivity|left; reflexivity|right; left; reflexivity].
Qed.

End StableSortFacts.

Lemma N_total_cmp : total_cmp N.compare.
Proof.
  split.
  - intros x y. apply N.compare_antisym.
  - intros c x y z.
    destruct c; rewrite ?N.compare_eq_iff, ?N.compare_lt_iff, ?N.compare_gt_iff; lia.
  - intros x y z E. apply N.compare_eq_iff in E. subst. reflexivity.
Qed.

Lemma ascii_total_cmp : total_cmp Ascii.compare.
Proof. exact (on_total_cmp N_of_ascii N.compare N_total_cmp). Qed.

Lemma string_compare_lt_trans (x y z : string) :
  String.compare x y = Lt -> String.compare y z = Lt -> String.compare x z = Lt.
Proof.
  revert y z. induction x as [|a x IH]; intros [|b y] [|c z]; simpl; try congruence.
  destruct (Ascii.compare a b) eqn:Eab; destruct (Ascii.compare b c) eqn:Ebc;
    try discriminate.
  - apply Ascii.compare_eq_iff in Eab, Ebc. subst.
    rewrite (cmp_refl ascii_total_cmp). apply IH.
  - apply Ascii.compare_eq_iff in Eab. subst. rewrite Ebc. reflexivity.
  - apply Ascii.compare_eq_iff in Ebc. subst. rewrite Eab. reflexivity.
  - rewrite (cmp_trans ascii_total_cmp _ _ _ _ Eab Ebc). reflexivity.
Qed.

(** Strings compare by code, character by character: a total order. *)
Lemma string_total_cmp : total_cmp String.compare.
Proof.
  split.
  - intros x y. apply String.compare_antisym.
  - intros [] x y z Hxy Hyz.
    + apply String.compare_eq_iff in Hxy. subst. exact Hyz.
    + exact (string_compare_lt_trans x y z Hxy Hyz).
    + rewrite String.compare_antisym in Hxy, Hyz |- *.
      destruct (String.compare y x) eqn:E1; try discriminate.
      destruct (String.compare z y) eqn:E2; try discriminate.
      rewrite (string_compare_lt_trans z y x E2 E1). reflexivity.
  - intros x y z E. apply String.compare_eq_iff in E. subst. reflexivity.
Qed.

(* ================================================================== *)
(** * Facts about the deduplication *)

Section DeduplicationFacts.

Context {R : Runtime}.

Lemma score_cmp_total (s : script) : total_cmp (score_cmp s).
Proof.
  unfold score_cmp.
  repeat apply lex_total_cmp; apply on_total_cmp;
    first [exact Z_total_cmp | exact Q_total_cmp].
Qed.

Lemma sort_cmp_total (s : script) : total_cmp (sort_cmp s).
Proof.
  unfold sort_cmp. apply lex_total_cmp.
  - apply on_total_cmp, nan_last_total_cmp, Z_total_cmp.
  - apply score_cmp_total.
Qed.

Lemma score_leb_true (s : script) (a b : admin_row) :
  leb_of (score_cmp s) a b = true <-> tuple_le (score s a) (score s b).
Proof.
  unfold leb_of, score_cmp, lex, on, tuple_le, tuple_lt, tuple_eq, score.
  destruct (Z.compare_spec (nt_priority a) (nt_priority b));
    destruct (Qcompare_spec (name_rank_num a) (name_rank_num b));
    destruct (Z.compare_spec (lang_priority s a) (lang_priority s b));
    split; intros H'; try reflexivity; try discriminate;
    intuition (try lia; try lra).
Qed.

Lemma score_leb_false (s : script) (a b : admin_row) :
  leb_of (score_cmp s) a b = false <-> tuple_lt (score s b) (score s a).
Proof.
  unfold leb_of, score_cmp, lex, on, tuple_lt, score.
  destruct (Z.compare_spec (nt_priority a) (nt_priority b));
    destruct (Qcompare_spec (name_rank_num a) (name_rank_num b));
    destruct (Z.compare_spec (lang_priority s a) (lang_priority s b));
    split; intros H'; try reflexivity; try discriminate;
    intuition (try lia; try lra).
Qed.

Lemma ufi_is_true (k : Z) (r : admin_row) : ufi_is k r = true <-> ufi r = Some k.
Proof.
  unfold ufi_is, opt_eqb. destruct (ufi r) as [u|].
  - rewrite Z.eqb_eq. split; congruence.
  - split; discriminate.
Qed.

Lemma sort_cmp_same_ufi (s : script) (k : Z) (a b : admin_row) :
  ufi a = Some k -> ufi b = Some k -> sort_cmp s a b = score_cmp s a b.
Proof.
  intros Ha Hb. unfold sort_cmp, lex at 1, on at 1.
  rewrite Ha, Hb. simpl. rewrite Z.compare_refl. reflexivity.
Qed.

Lemma first_valid_head {A : Type} (x : option A) (l : list (option A)) :
  keeps x (first_valid (x :: l)).
Proof. intros H. destruct x; simpl; congruence. Qed.

Lemma first_valid_cell_head (x : cell) (l : list cell) :
  keeps_cell x (first_valid_cell (x :: l)).
Proof. intros H. destruct x; simpl; congruence. Qed.

(** The row that [first] builds carries every value of the head of its
    group. *)
Lemma first_built_on_head (k : Z) (w : admin_row) (rest : list admin_row) :
  ufi w = Some k -> built_on w (first k (w :: rest)).
Proof.
  intros Hk. unfold built_on, first; simpl.
  repeat split;
    first [ symmetry; exact Hk
          | apply first_valid_head
          | apply first_valid_cell_head ].
Qed.

Lemma ufi_values_In (k : Z) (df : list admin_row) :
  In k (ufi_values df) <-> exists r, In r df /\ ufi r = Some k.
Proof.
  unfold ufi_values. rewrite in_flat_map. split.
  - intros (r & Hr & Hk). exists r. split; [exact Hr|].
    destruct (ufi r); simpl in Hk; [destruct Hk as [->|[]]; reflexivity|contradiction].
  - intros (r & Hr & Hk). exists r. split; [exact Hr|].
    rewrite Hk. simpl. auto.
Qed.

Lemma group_keys_In (k : Z) (df : list admin_row) :
  In k (group_keys df) <-> exists r, In r df /\ ufi r = Some k.
Proof.
  unfold group_keys. rewrite sort_In, nodup_In. apply ufi_values_In.
Qed.

Lemma group_keys_NoDup (df : list admin_row) : NoDup (group_keys df).
Proof.
  unfold group_keys.
  eapply Permutation_NoDup; [apply sort_perm|]. apply NoDup_nodup.
Qed.

Lemma group_In (k : Z) (r : admin_row) (df : list admin_row) :
  In r (group k df) <-> In r df /\ ufi r = Some k.
Proof. unfold group. rewrite filter_In, ufi_is_true. reflexivity. Qed.

(** Every row of [admin_deduplicated] is [first] of one group, the group is
    not empty, and its head in sorted order splits the group, taken in
    input order, into rows that score strictly worse (before it) and rows
    that score no better (after it). *)
Lemma dedup_row_origin (s : script) (df : list admin_row) (o : admin_row) :
  In o (admin_deduplicated s df) ->
  exists k pre w post,
    ufi o = Some k /\
    group k (admin_filtered s df) = pre ++ w :: post /\
    built_on w o /\
    (forall r, In r pre -> tuple_lt (score s w) (score s r)) /\
    (forall r, In r post -> tuple_le (score s w) (score s r)).
Proof.
  unfold admin_deduplicated, groupby_first. rewrite in_map_iff.
  intros (k & <- & Hk).
  set (F := admin_filtered s df) in *.
  apply group_keys_In in Hk. destruct Hk as (r0 & Hr0 & Hk0).
  unfold sort_values in *.
  assert (Hg : group k (sort (leb_of (sort_cmp s)) F)
               = sort (leb_of (sort_cmp s)) (group k F)).
  { unfold group. apply filter_sort.
    - intros x y. apply leb_of_total, sort_cmp_total.
    - intros x y z. apply leb_of_trans, sort_cmp_total. }
  rewrite Hg.
  destruct (sort (leb_of (sort_cmp s)) (group k F)) as [|w rest] eqn:Es.
  - exfalso. assert (Hin : In r0 (sort (leb_of (sort_cmp s)) (group k F))).
    { rewrite sort_In, group_In. split; [|exact Hk0].
      rewrite <- (sort_In (leb_of (sort_cmp s))). exact Hr0. }
    rewrite Es in Hin. exact Hin.
  - destruct (sort_head_split (leb_of (sort_cmp s))) with (l := group k F)
      (w := w) (rest := rest) as (pre & post & Hsplit & Hpre & Hpost).
    + intros x y. apply leb_of_total, sort_cmp_total.
    + intros x y z. apply leb_of_trans, sort_cmp_total.
    + exact Es.
    + assert (Hall : forall r, In r (group k F) -> ufi r = Some k).
      { intros r Hr. apply group_In in Hr. tauto. }
      assert (Hw : ufi w = Some k).
      { apply Hall. rewrite Hsplit. apply in_or_app. right. left. reflexivity. }
      exists k, pre, w, post.
      split; [reflexivity|]. split; [exact Hsplit|].
      split; [apply first_built_on_head, Hw|]. split.
      * intros r Hr. apply score_leb_false. unfold leb_of.
        rewrite <- (sort_cmp_same_ufi s k r w).
        -- exact (Hpre r Hr).
        -- apply Hall. rewrite Hsplit. apply in_or_app. left. exact Hr.
        -- exact Hw.
      * intros r Hr. apply score_leb_true. unfold leb_of.
        rewrite <- (sort_cmp_same_ufi s k w r).
        -- exact (Hpost r Hr).
        -- exact Hw.
        -- apply Hall. rewrite Hsplit. apply in_or_app. right. right. exact Hr.
Qed.

End DeduplicationFacts.

(* ================================================================== *)
(** * Priority, ties *)

Section PriorityFacts.

Context {R : Runtime}.

Lemma nt_priority_min (r : admin_row) : (1 <= nt_priority r)%Z.
Proof.
  unfold nt_priority. destruct (nt r) as [t|]; simpl; [|lia].
  repeat match goal with
         | |- context [String.eqb ?a ?b] => destruct (String.eqb a b); simpl
         end; lia.
Qed.

Lemma nt_priority_approved (r : admin_row) :
  nt_priority r = 1%Z <-> nt r = Some "N"%string.
Proof.
  unfold nt_priority. destruct (nt r) as [t|]; simpl.
  - destruct (String.eqb t "N") eqn:E; simpl.
    + apply String.eqb_eq in E. subst t. tauto.
    + apply String.eqb_neq in E.
      repeat match goal with
             | |- context [String.eqb ?a ?b] => destruct (String.eqb a b); simpl
             end; split; intros H; try lia; try congruence.
  - split; [lia|discriminate].
Qed.

Lemma tuple_lt_not_eq (a b : Z * Q * Z) : tuple_lt a b -> ~ tuple_eq b a.
Proof.
  destruct a as [[t1 r1] l1], b as [[t2 r2] l2]. unfold tuple_lt, tuple_eq.
  intuition (try lia; try lra).
Qed.

Lemma tuple_lt_not_le (a b : Z * Q * Z) : tuple_lt a b -> ~ tuple_le b a.
Proof.
  destruct a as [[t1 r1] l1], b as [[t2 r2] l2]. unfold tuple_le, tuple_lt, tuple_eq.
  intuition (try lia; try lra).
Qed.

Lemma tuple_le_refl (a : Z * Q * Z) : tuple_le a a.
Proof.
  destruct a as [[t r] l]. right. unfold tuple_eq. repeat split; reflexivity.
Qed.

Lemma tuple_le_fst (a b : Z * Q * Z) : tuple_le a b -> (fst (fst a) <= fst (fst b))%Z.
Proof.
  destruct a as [[t1 r1] l1], b as [[t2 r2] l2]. unfold tuple_le, tuple_lt, tuple_eq.
  simpl. intuition lia.
Qed.

End PriorityFacts.

(** C1.  Every row of the deduplicated frame is built on one record of its
    feature group, a record that survived the three filters, and the score
    triple (type, rank, language) of that record is lexicographically the
    smallest of the group.  In particular, as soon as the group holds an
    approved name, the record selected is an approved name, and it is that
    record when the group holds only one, whatever the ranks and languages
    of the variant names next to it. *)
Theorem dedup_selects_least_score
    (R : Runtime) (s : script) (admin_df : list admin_row) (o : admin_row) :
  In o (admin_deduplicated s admin_df) ->
  exists w,
    In w (admin_filtered s admin_df) /\
    ufi w = ufi o /\
    built_on w o /\
    (forall r, In r (admin_filtered s admin_df) -> ufi r = ufi o ->
               tuple_le (score s w) (score s r)) /\
    (forall a, In a (admin_filtered s admin_df) -> ufi a = ufi o ->
               nt a = Some "N"%string ->
               nt w = Some "N"%string /\ nt o = Some "N"%string /\
               ((forall r, In r (admin_filtered s admin_df) -> ufi r = ufi o ->
                           nt r = Some "N"%string -> r = a) ->
                w = a)).
Proof.
  intros Ho.
  destruct (dedup_row_origin s admin_df o Ho)
    as (k & pre & w & post & Hk & Hsplit & Hbuilt & Hpre & Hpost).
  assert (Hw : In w (admin_filtered s admin_df) /\ ufi w = Some k).
  { apply group_In. rewrite Hsplit. apply in_or_app. right. left. reflexivity. }
  destruct Hw as [Hw Hwk].
  assert (Hmin : forall r, In r (admin_filtered s admin_df) -> ufi r = ufi o ->
                           tuple_le (score s w) (score s r)).
  { intros r Hr Hru. rewrite Hk in Hru.
    assert (Hg : In r (group k (admin_filtered s admin_df)))
      by (apply group_In; split; assumption).
    rewrite Hsplit in Hg. apply in_app_or in Hg. destruct Hg as [Hg|[<-|Hg]].
    - left. apply Hpre, Hg.
    - apply tuple_le_refl.
    - apply Hpost, Hg. }
  exists w. split; [exact Hw|]. split; [congruence|]. split; [exact Hbuilt|].
  split; [exact Hmin|].
  intros a Ha Hau Hnt.
  assert (Hwn : nt w = Some "N"%string).
  { apply nt_priority_approved.
    pose proof (tuple_le_fst _ _ (Hmin a Ha Hau)) as Hle. simpl in Hle.
    apply nt_priority_approved in Hnt. pose proof (nt_priority_min w). lia. }
  split; [exact Hwn|]. split.
  - destruct Hbuilt as (_ & _ & _ & Hkeep & _).
    rewrite Hkeep; [exact Hwn|congruence].
  - intros Honly. apply Honly; [exact Hw|congruence|exact Hwn].
Qed.

Lemma dedup_selects_least_score_witness :
  In Examples.approved_row
    (@admin_deduplicated ascii_runtime Full
       [Examples.variant_row; Examples.approved_row]) /\
  exists w,
    In w (@admin_filtered ascii_runtime Full
            [Examples.variant_row; Examples.approved_row]) /\
    ufi w = ufi Examples.approved_row /\
    built_on w Examples.approved_row /\
    (forall r, In r (@admin_filtered ascii_runtime Full
                       [Examples.variant_row; Examples.approved_row]) ->
               ufi r = ufi Examples.approved_row ->
               tuple_le (@score ascii_runtime Full w) (@score ascii_runtime Full r)) /\
    (forall a, In a (@admin_filtered ascii_runtime Full
                       [Examples.variant_row; Examples.approved_row]) ->
               ufi a = ufi Examples.approved_row ->
               nt a = Some "N"%string ->
               nt w = Some "N"%string /\ nt Examples.approved_row = Some "N"%string /\
               ((forall r, In r (@admin_filtered ascii_runtime Full
                                   [Examples.variant_row; Examples.approved_row]) ->
                           ufi r = ufi Examples.approved_row ->
                           nt r = Some "N"%string -> r = a) ->
                w = a)).
Proof.
  split.
  - vm_compute. left. reflexivity.
  - apply (dedup_selects_least_score ascii_runtime Full).
    vm_compute. left. reflexivity.
Defined.

(** The scenario of the specification, run on both scripts: the approved
    name of rank 5 in French wins over the variant name of rank 1 in
    English, in whichever order the two rows are read. *)
Example approved_beats_variant :
  forall s,
    @admin_deduplicated ascii_runtime s [Examples.variant_row; Examples.approved_row]
      = [Examples.approved_row] /\
    @admin_deduplicated ascii_runtime s [Examples.approved_row; Examples.variant_row]
      = [Examples.approved_row].
Proof. intros []; split; vm_compute; reflexivity. Qed.

(** C4.  Within a feature group, taken in the order of the input, the
    record selected comes after records that all score strictly worse and
    before records that score no better: among the records whose score
    triples are identical to the best one, the one that occurs first in the
    input is selected. *)
Theorem dedup_ties_first_in_input
    (R : Runtime) (s : script) (admin_df : list admin_row) (o : admin_row) :
  In o (admin_deduplicated s admin_df) ->
  exists k pre w post,
    ufi o = Some k /\
    group k (admin_filtered s admin_df) = pre ++ w :: post /\
    built_on w o /\
    (forall r, In r pre ->
               tuple_lt (score s w) (score s r) /\
               ~ tuple_eq (score s r) (score s w)) /\
    (forall r, In r post -> tuple_le (score s w) (score s r)).
Proof.
  intros Ho.
  destruct (dedup_row_origin s admin_df o Ho)
    as (k & pre & w & post & Hk & Hsplit & Hbuilt & Hpre & Hpost).
  exists k, pre, w, post. repeat (split; [assumption|]). split; [|exact Hpost].
  intros r Hr. split; [apply Hpre, Hr|]. apply tuple_lt_not_eq, Hpre, Hr.
Qed.

Lemma dedup_ties_first_in_input_witness :
  In Examples.approved_row
    (@admin_deduplicated ascii_runtime Simple
       [Examples.variant_row; Examples.approved_row; Examples.approved_twin]) /\
  exists k pre w post,
    ufi Examples.approved_row = Some k /\
    group k (@admin_filtered ascii_runtime Simple
               [Examples.variant_row; Examples.approved_row; Examples.approved_twin])
      = pre ++ w :: post /\
    built_on w Examples.approved_row /\
    (forall r, In r pre ->
               tuple_lt (@score ascii_runtime Simple w) (@score ascii_runtime Simple r) /\
               ~ tuple_eq (@score ascii_runtime Simple r) (@score ascii_runtime Simple w)) /\
    (forall r, In r post ->
               tuple_le (@score ascii_runtime Simple w) (@score ascii_runtime Simple r)).
Proof.
  split.
  - vm_compute. left. reflexivity.
  - apply (dedup_ties_first_in_input ascii_runtime Simple).
    vm_compute. left. reflexivity.
Defined.

(** Two tied approved names: each order of the input selects the one read
    first. *)
Example tie_follows_input_order :
  forall s,
    @admin_deduplicated ascii_runtime s
      [Examples.variant_row; Examples.approved_row; Examples.approved_twin]
      = [Examples.approved_row] /\
    @admin_deduplicated ascii_runtime s
      [Examples.approved_twin; Examples.variant_row; Examples.approved_row]
      = [Examples.approved_twin].
Proof. intros []; split; vm_compute; reflexivity. Qed.

(* ================================================================== *)
(** * Facts about the filters, the groups and the join *)

Section PipelineFacts.

Context {R : Runtime}.

Lemma filter_all {A : Type} (p : A -> bool) (l : list A) :
  (forall x, In x l -> p x = true) -> filter p l = l.
Proof.
  induction l as [|x l IH]; simpl; intros H; [reflexivity|].
  rewrite (H x (or_introl eq_refl)). f_equal. apply IH. intros y Hy. apply H. right. exact Hy.
Qed.

Lemma filter_filter {A : Type} (p q : A -> bool) (l : list A) :
  filter q (filter p l) = filter (fun x => p x && q x) l.
Proof.
  induction l as [|x l IH]; simpl; [reflexivity|].
  destruct (p x); simpl; [destruct (q x)|]; rewrite IH; reflexivity.
Qed.

Lemma display_filter_mask (s : script) (df : list admin_row) :
  display_filter s df = filter (display_mask s) df.
Proof. destruct s; simpl; [apply filter_filter|reflexivity]. Qed.

Lemma admin_filtered_survives (s : script) (df : list admin_row) :
  admin_filtered s df = filter (survives s) df.
Proof.
  unfold admin_filtered, survives.
  rewrite display_filter_mask, !filter_filter.
  apply filter_ext. intros r. rewrite andb_assoc. reflexivity.
Qed.

Lemma admin_filtered_In (s : script) (df : list admin_row) (r : admin_row) :
  In r (admin_filtered s df) <-> In r df /\ survives s r = true.
Proof. rewrite admin_filtered_survives. apply filter_In. Qed.

Lemma to_numeric_notna (c : cell) : notna (to_numeric c) = true -> c <> NaN.
Proof. destruct c; simpl; congruence. Qed.

(** Every deduplicated row has the coordinates of the record it is built
    on, and they are numbers. *)
Lemma dedup_coord_mask (s : script) (df : list admin_row) (o : admin_row) :
  In o (admin_deduplicated s df) -> coord_mask o = true.
Proof.
  intros Ho.
  destruct (dedup_row_origin s df o Ho)
    as (k & pre & w & post & Hk & Hsplit & Hbuilt & _).
  assert (Hw : In w (admin_filtered s df)).
  { apply (group_In k). rewrite Hsplit. apply in_or_app. right. left. reflexivity. }
  apply admin_filtered_In in Hw. destruct Hw as [_ Hw].
  unfold survives in Hw. apply andb_true_iff in Hw. destruct Hw as [_ Hc].
  unfold coord_mask in *. apply andb_true_iff in Hc. destruct Hc as [Hlat Hlong].
  destruct Hbuilt as (_ & _ & _ & _ & Klat & Klong & _).
  rewrite (Klat (to_numeric_notna _ Hlat)), (Klong (to_numeric_notna _ Hlong)).
  rewrite Hlat, Hlong. reflexivity.
Qed.

(** The final coordinate check of the full script drops nothing. *)
Lemma admin_coords_all (s : script) (df : list admin_row) :
  admin_coords s (admin_deduplicated s df)
  = map with_coordinates (admin_deduplicated s df).
Proof.
  destruct s; simpl; [|reflexivity].
  apply filter_all. intros c Hc. apply in_map_iff in Hc.
  destruct Hc as (o & <- & Ho). exact (dedup_coord_mask Full df o Ho).
Qed.

Lemma dedup_ufi (s : script) (df : list admin_row) :
  map ufi (admin_deduplicated s df)
  = map Some (group_keys (sort_values s (admin_filtered s df))).
Proof.
  unfold admin_deduplicated, groupby_first. rewrite map_map. reflexivity.
Qed.

Lemma NoDup_map_Some {A : Type} (l : list A) : NoDup l -> NoDup (map Some l).
Proof.
  induction 1 as [|x l Hx Hl IH]; simpl; constructor; [|exact IH].
  rewrite in_map_iff. intros (y & E & Hy). injection E as ->. exact (Hx Hy).
Qed.

Lemma dedup_ufi_NoDup (s : script) (df : list admin_row) :
  NoDup (map ufi (admin_deduplicated s df)).
Proof. rewrite dedup_ufi. apply NoDup_map_Some, group_keys_NoDup. Qed.

Lemma dedup_ufi_In (s : script) (df : list admin_row) (k : Z) :
  In (Some k) (map ufi (admin_deduplicated s df))
  <-> exists r, In r (admin_filtered s df) /\ ufi r = Some k.
Proof.
  rewrite dedup_ufi. rewrite in_map_iff. split.
  - intros (k' & E & Hk). injection E as ->. apply group_keys_In in Hk.
    destruct Hk as (r & Hr & Hu). exists r. split; [|exact Hu].
    unfold sort_values in Hr. apply sort_In in Hr. exact Hr.
  - intros (r & Hr & Hu). exists k. split; [reflexivity|].
    apply group_keys_In. exists r. split; [|exact Hu].
    unfold sort_values. apply sort_In. exact Hr.
Qed.

Lemma opt_string_eqb_eq (x y : option string) :
  opt_eqb String.eqb x y = true <-> x = y.
Proof.
  destruct x as [a|], y as [b|]; simpl; try (split; congruence).
  rewrite String.eqb_eq. split; congruence.
Qed.

Lemma key_match_spec (l : coords_row) (c : CountryCodes.row) :
  key_match l c = true <-> CountryCodes.Country_Code c = cc_ft (rec l).
Proof. unfold key_match. rewrite opt_string_eqb_eq. split; congruence. Qed.

(** A left row whose key is nowhere in the reference is joined once, with
    nulls. *)
Lemma merge_row_unmatched (countries_df : list CountryCodes.row) (l : coords_row) :
  (forall c, In c countries_df -> CountryCodes.Country_Code c <> cc_ft (rec l)) ->
  merge_row countries_df l = [(l, no_country)].
Proof.
  intros H. unfold merge_row.
  replace (filter (key_match l) countries_df) with (@nil CountryCodes.row); [reflexivity|].
  symmetry. induction countries_df as [|c cs IH]; simpl; [reflexivity|].
  destruct (key_match l c) eqn:E.
  - apply key_match_spec in E. exfalso. apply (H c); [left; reflexivity|exact E].
  - apply IH. intros c' Hc'. apply H. right. exact Hc'.
Qed.


Lemma merge_fst_In (countries_df : list CountryCodes.row) (left : list coords_row)
    (m : coords_row * CountryCodes.row) :
  In m (merge left countries_df) ->
  In (fst m) left /\ In m (merge_row countries_df (fst m)).
Proof.
  unfold merge. rewrite in_flat_map. intros (l & Hl & Hm).
  assert (E : fst m = l).
  { unfold merge_row in Hm.
    destruct (filter (key_match l) countries_df) as [|c cs].
    - destruct Hm as [<-|[]]. reflexivity.
    - apply in_map_iff in Hm. destruct Hm as (c' & <- & _). reflexivity. }
  rewrite E. split; assumption.
Qed.



Lemma output_df_In (s : script) (countries_df : list CountryCodes.row)
    (admin_df : list admin_row) (d : division) :
  In d (output_df s countries_df admin_df)
  <-> exists m,
        In m (merge (map with_coordinates (admin_deduplicated s admin_df)) countries_df)
        /\ d = output_row m.
Proof.
  unfold output_df. rewrite sort_In, in_map_iff, admin_coords_all.
  split; intros (m & H1 & H2); exists m; split; auto.
Qed.

End PipelineFacts.

Lemma NoDup_map_inj_In {A B : Type} (f : A -> B) (l : list A) (x y : A) :
  NoDup (map f l) -> In x l -> In y l -> f x = f y -> x = y.
Proof.
  induction l as [|a l IH]; simpl; intros Hnd Hx Hy E; [contradiction|].
  inversion Hnd as [|? ? Hnotin Hnd']; subst.
  destruct Hx as [->|Hx], Hy as [->|Hy].
  - reflexivity.
  - exfalso. apply Hnotin. rewrite E. apply in_map, Hy.
  - exfalso. apply Hnotin. rewrite <- E. apply in_map, Hx.
  - apply IH; assumption.
Qed.

(* ================================================================== *)
(** * One row per feature *)




(* ================================================================== *)
(** * The row of a group *)

(** C3, on the code.  [GroupBy.first] fills each column with the first
    entry of the group that is not null: when the best record of a group
    lacks a value that a later record has, the row that comes out is
    neither of them.  Here the approved name has no language and the row
    takes the language of the variant name. *)
Theorem first_assembles_row_from_several_variants :
  forall s,
    @admin_deduplicated ascii_runtime s
      [Examples.approved_no_lang; Examples.variant_row] = [Examples.mixed_row] /\
    uni Examples.mixed_row = uni Examples.approved_no_lang /\
    full_name Examples.mixed_row = full_name Examples.approved_no_lang /\
    lang_cd Examples.approved_no_lang = None /\
    lang_cd Examples.mixed_row = lang_cd Examples.variant_row /\
    ~ In Examples.mixed_row [Examples.approved_no_lang; Examples.variant_row].
Proof.
  intros s. split; [destruct s; vm_compute; reflexivity|].
  repeat split. intros [E|[E|[]]]; discriminate E.
Qed.

(* ================================================================== *)
(** * Enrichment *)

(** C6.  A deduplicated row whose country code is the code of no row of
    the reference (an empty reference is one such) comes out once, its
    three country columns empty and every other column as the
    deduplication left it; the join is a total function. *)
Theorem unmatched_country_left_empty
    (R : Runtime) (s : script) (countries_df : list CountryCodes.row)
    (admin_df : list admin_row) (r : admin_row) :
  In r (admin_deduplicated s admin_df) ->
  (forall c, In c countries_df -> CountryCodes.Country_Code c <> cc_ft r) ->
  exists d,
    In d (output_df s countries_df admin_df) /\
    (forall d', In d' (output_df s countries_df admin_df) ->
                Unique_Feature_ID d' = ufi r -> d' = d) /\
    Country_Code d = None /\ Country_Name d = None /\ Country_Full_Name d = None /\
    Administrative_Level d = desig_cd r /\
    Administrative_Name d = full_name r /\
    ADM1_Code d = adm1 r /\
    latitude d = to_numeric (lat_dd r) /\
    longitude d = to_numeric (long_dd r) /\
    Unique_Feature_ID d = ufi r /\
    Unique_Name_ID d = uni r /\
    Name_Type d = nt r /\
    Name_Rank d = name_rank r /\
    Language_Code d = lang_cd r /\
    Transliteration_Code d = transl_cd r /\
    Script_Code d = script_cd r /\
    Generic_Term d = generic r.
Proof.
  intros Hr Hno.
  pose proof (merge_row_unmatched countries_df (with_coordinates r) Hno) as Hrow.
  exists (output_row (with_coordinates r, no_country)).
  split; [|split].
  - apply output_df_In. exists (with_coordinates r, no_country). split; [|reflexivity].
    unfold merge. apply in_flat_map. exists (with_coordinates r). split.
    + apply in_map, Hr.
    + rewrite Hrow. left. reflexivity.
  - intros d' Hd' Hid. apply output_df_In in Hd'. destruct Hd' as (m & Hm & ->).
    apply merge_fst_In in Hm. destruct Hm as [Hfst Hm].
    apply in_map_iff in Hfst. destruct Hfst as (r' & Er' & Hr').
    assert (r' = r).
    { apply (NoDup_map_inj_In ufi (admin_deduplicated s admin_df)).
      - apply dedup_ufi_NoDup.
      - exact Hr'.
      - exact Hr.
      - simpl in Hid. rewrite <- Er' in Hid. exact Hid. }
    subst r'. rewrite <- Er', Hrow in Hm. destruct Hm as [<-|[]]. reflexivity.
  - repeat split.
Qed.

Lemma unmatched_country_left_empty_witness :
  In Examples.approved_row
    (@admin_deduplicated ascii_runtime Full
       [Examples.variant_row; Examples.approved_row]) /\
  (forall c, In c [Examples.france] ->
             CountryCodes.Country_Code c <> cc_ft Examples.approved_row) /\
  exists d,
    In d (@output_df ascii_runtime Full [Examples.france]
            [Examples.variant_row; Examples.approved_row]) /\
    Country_Name d = None /\
    Administrative_Name d = Some "Bayern"%string.
Proof.
  assert (H1 : In Examples.approved_row
                 (@admin_deduplicated ascii_runtime Full
                    [Examples.variant_row; Examples.approved_row]))
    by (vm_compute; left; reflexivity).
  assert (H2 : forall c, In c [Examples.france] ->
                         CountryCodes.Country_Code c <> cc_ft Examples.approved_row).
  { intros c [<-|[]]. simpl. discriminate. }
  split; [exact H1|]. split; [exact H2|].
  destruct (unmatched_country_left_empty ascii_runtime Full [Examples.france]
              [Examples.variant_row; Examples.approved_row] Examples.approved_row H1 H2)
    as (d & Hd & _ & _ & Hn & _ & _ & Ha & _).
  exists d. split; [exact Hd|]. split; [exact Hn|exact Ha].
Defined.

(** With an empty reference every division comes out, its country columns
    empty. *)
Example empty_reference :
  forall s,
    map (fun d => (Unique_Feature_ID d, Country_Code d, Country_Name d, Country_Full_Name d))
      (@output_df ascii_runtime s [] [Examples.variant_row; Examples.approved_row])
    = [(Some 100%Z, None, None, None)].
Proof. intros []; vm_compute; reflexivity. Qed.

(* ================================================================== *)
(** * The display filter *)

Section DisplayFacts.

Context {R : Runtime}.



End DisplayFacts.



(** The scenario of the specification: one row at level ADM1 with an empty
    display flag, on both scripts. *)
Example hidden_row_in_no_view :
  forall s,
    @output_df ascii_runtime s [Examples.germany] [Examples.hidden_row] = [] /\
    level_sheets (@output_df ascii_runtime s [Examples.germany] [Examples.hidden_row]) = [] /\
    country_pivot (@output_df ascii_runtime s [Examples.germany] [Examples.hidden_row]) = [].
Proof. intros []; repeat split; vm_compute; reflexivity. Qed.

(* ================================================================== *)
(** * The rank score *)

Section RankFacts.

Context {R : Runtime}.

Lemma dedup_covers_features (s : script) (admin_df : list admin_row)
    (r : admin_row) (k : Z) :
  In r (admin_filtered s admin_df) -> ufi r = Some k ->
  exists o, In o (admin_deduplicated s admin_df) /\ ufi o = Some k.
Proof.
  intros Hr Hk.
  assert (H : In (Some k) (map ufi (admin_deduplicated s admin_df))).
  { apply dedup_ufi_In. exists r. split; assumption. }
  apply in_map_iff in H. destruct H as (o & Ho & Hin). exists o. split; assumption.
Qed.

End RankFacts.

(** C8, as the code has it.  A rank that does not convert to a number is
    scored 999: after every rank below 999 and before every rank above it.
    The record stays in the run: the rank takes no part in the filters and
    the feature of the record has its row in the deduplicated frame. *)
Theorem unparsable_rank_scores_999 (R : Runtime) (s : script) (r : admin_row) :
  to_numeric (name_rank r) = None ->
  name_rank_num r = 999 # 1 /\
  (forall r' q, to_numeric (name_rank r') = Some q ->
                (q < 999 # 1 -> name_rank_num r' < name_rank_num r) /\
                (999 # 1 < q -> name_rank_num r < name_rank_num r')) /\
  (forall admin_df k,
     In r admin_df -> survives s r = true -> ufi r = Some k ->
     In r (admin_filtered s admin_df) /\
     exists o, In o (admin_deduplicated s admin_df) /\ ufi o = Some k).
Proof.
  intros H.
  assert (E : name_rank_num r = 999 # 1) by (unfold name_rank_num; rewrite H; reflexivity).
  split; [exact E|]. split.
  - intros r' q Hq. unfold name_rank_num at 1 4. rewrite Hq, E. simpl. tauto.
  - intros admin_df k Hin Hs Hk.
    assert (Hf : In r (admin_filtered s admin_df))
      by (apply admin_filtered_In; split; assumption).
    split; [exact Hf|]. exact (dedup_covers_features s admin_df r k Hf Hk).
Qed.

Lemma unparsable_rank_scores_999_witness :
  @to_numeric ascii_runtime (name_rank Examples.unranked) = None /\
  @name_rank_num ascii_runtime Examples.unranked = 999 # 1.
Proof.
  assert (H : @to_numeric ascii_runtime (name_rank Examples.unranked) = None)
    by reflexivity.
  split; [exact H|].
  exact (proj1 (unparsable_rank_scores_999 ascii_runtime Full Examples.unranked H)).
Defined.

(** C8 as stated fails: 999 is not the worst rank.  Next to a name of
    rank 1000, read first, the name whose rank is no number scores better
    and is the one selected. *)
Lemma unranked_beats_rank_1000 :
  @to_numeric ascii_runtime (name_rank Examples.unranked) = None /\
  @name_rank_num ascii_runtime Examples.unranked
    < @name_rank_num ascii_runtime Examples.ranked_1000 /\
  forall s,
    @admin_deduplicated ascii_runtime s [Examples.ranked_1000; Examples.unranked]
    = [Examples.unranked].
Proof.
  split; [reflexivity|]. split; [reflexivity|].
  intros []; vm_compute; reflexivity.
Qed.

(* ================================================================== *)
(** * The country summary *)

Lemma sum_app (l1 l2 : list Z) : sum (l1 ++ l2) = (sum l1 + sum l2)%Z.
Proof. unfold sum. induction l1 as [|x l1 IH]; simpl; [reflexivity|]. rewrite IH. lia. Qed.

Lemma sum_map_add {A : Type} (f g : A -> Z) (l : list A) :
  sum (map (fun x => (f x + g x)%Z) l) = (sum (map f l) + sum (map g l))%Z.
Proof. unfold sum. induction l as [|x l IH]; simpl; [reflexivity|]. rewrite IH. lia. Qed.

Lemma sum_map_zero {A : Type} (f : A -> Z) (l : list A) :
  (forall x, In x l -> f x = 0%Z) -> sum (map f l) = 0%Z.
Proof.
  unfold sum. induction l as [|x l IH]; simpl; intros H; [reflexivity|].
  rewrite (H x (or_introl eq_refl)), IH; [reflexivity|].
  intros y Hy. apply H. right. exact Hy.
Qed.

(** One level [x] is counted once over a list of distinct columns that
    holds it. *)
Lemma sum_indicator (x : string) (cols : list string) :
  NoDup cols -> In x cols ->
  sum (map (fun l => if string_dec x l then 1%Z else 0%Z) cols) = 1%Z.
Proof.
  induction 1 as [|c cols Hc Hnd IH]; simpl; intros Hin; [contradiction|].
  change (((if string_dec x c then 1 else 0)
           + sum (map (fun l => if string_dec x l then 1%Z else 0%Z) cols))%Z = 1%Z).
  destruct (string_dec x c) as [->|Hne].
  - rewrite sum_map_zero; [reflexivity|].
    intros y Hy. destruct (string_dec c y) as [->|]; [contradiction|reflexivity].
  - destruct Hin as [->|Hin]; [contradiction|]. rewrite (IH Hin). reflexivity.
Qed.

(** Summing the counts of one country over the level columns counts the
    rows of the country. *)
Lemma sum_counts_by_level (keys : list summary_key) (i : string * string)
    (cols : list string) :
  NoDup cols ->
  (forall k, In k keys -> In (snd k) cols) ->
  sum (map (fun l => Z.of_nat (count_occ key_eq_dec keys (i, l))) cols)
  = Z.of_nat (List.length
                (filter (fun k => if pair_eq_dec (fst k) i then true else false) keys)).
Proof.
  intros Hnd. induction keys as [|k keys IH]; intros Hcols.
  - simpl. apply sum_map_zero. reflexivity.
  - assert (IH' := IH (fun k' Hk' => Hcols k' (or_intror Hk'))). clear IH.
    assert (Hk : In (snd k) cols) by (apply Hcols; left; reflexivity).
    destruct k as [i' l']. simpl in Hk.
    transitivity
      (sum (map (fun l => ((if pair_eq_dec i' i
                            then if string_dec l' l then 1 else 0
                            else 0)
                           + Z.of_nat (count_occ key_eq_dec keys (i, l)))%Z) cols)).
    + f_equal. apply map_ext. intros l.
      destruct (key_eq_dec (i', l') (i, l)) as [E|Hne].
      * rewrite (count_occ_cons_eq key_eq_dec keys E). injection E as -> ->.
        destruct (pair_eq_dec i i); [|contradiction].
        destruct (string_dec l l); [|contradiction]. lia.
      * rewrite (count_occ_cons_neq key_eq_dec keys Hne).
        destruct (pair_eq_dec i' i) as [->|]; [|lia].
        destruct (string_dec l' l) as [->|]; [contradiction|lia].
    + rewrite sum_map_add, IH'. cbn [filter fst].
      destruct (pair_eq_dec i' i) as [->|].
      * rewrite (sum_indicator l' cols Hnd Hk). cbn [List.length]. lia.
      * rewrite sum_map_zero by reflexivity. lia.
Qed.

Lemma pivot_value_In (f : summary_key -> Z) (K : list summary_key) (k : summary_key) :
  In k K -> pivot_value (map (fun k' => (k', f k')) K) k = Some (f k).
Proof.
  induction K as [|k' K IH]; intros Hin; [contradiction|].
  cbn [map pivot_value].
  destruct (key_eq_dec k k') as [E|Hne]; [subst k'; reflexivity|].
  apply IH. destruct Hin as [E|Hin]; [congruence|exact Hin].
Qed.

Lemma pivot_value_not_In (f : summary_key -> Z) (K : list summary_key) (k : summary_key) :
  ~ In k K -> pivot_value (map (fun k' => (k', f k')) K) k = None.
Proof.
  induction K as [|k' K IH]; intros Hin; [reflexivity|].
  cbn [map pivot_value].
  destruct (key_eq_dec k k') as [E|Hne].
  - exfalso. apply Hin. left. congruence.
  - apply IH. intros H. apply Hin. right. exact H.
Qed.

(** A cell of the pivot, once NaN is filled with 0, is the number of rows
    with that country and that level. *)
Lemma pivot_cell_count (out : list division) (k : summary_key) :
  fillna 0%Z (pivot_value (country_summary out) k)
  = Z.of_nat (count_occ key_eq_dec (summary_keys out) k).
Proof.
  unfold country_summary.
  destruct (in_dec key_eq_dec k (summary_keys out)) as [Hin|Hnot].
  - rewrite pivot_value_In; [reflexivity|]. apply sort_In, nodup_In. exact Hin.
  - rewrite pivot_value_not_In.
    + apply (count_occ_not_In key_eq_dec) in Hnot. rewrite Hnot. reflexivity.
    + intros H. apply Hnot. apply sort_In, nodup_In in H. exact H.
Qed.

Lemma pivot_columns_NoDup (out : list division) :
  NoDup (pivot_columns (country_summary out)).
Proof.
  unfold pivot_columns. eapply Permutation_NoDup; [apply sort_perm|]. apply NoDup_nodup.
Qed.

Lemma pivot_columns_In (out : list division) (k : summary_key) :
  In k (summary_keys out) -> In (snd k) (pivot_columns (country_summary out)).
Proof.
  intros Hk. unfold pivot_columns. apply sort_In, nodup_In.
  unfold country_summary. rewrite map_map. simpl.
  apply in_map_iff. exists k. split; [reflexivity|]. apply sort_In, nodup_In. exact Hk.
Qed.

(** Every row of the pivot: Total is the sum of the level columns of the
    row, and it is the number of divisions of the country. *)
Lemma country_pivot_totals (out : list division) (row : pivot_row) :
  In row (country_pivot out) ->
  Total row = sum (map snd (counts row)) /\
  Total row = country_rows_count out (index row).
Proof.
  unfold country_pivot. rewrite in_map_iff. intros (i & <- & _). simpl.
  split; [reflexivity|].
  rewrite map_map. simpl.
  rewrite (map_ext _ (fun l => Z.of_nat (count_occ key_eq_dec (summary_keys out) (i, l))))
    by (intros l; apply pivot_cell_count).
  apply sum_counts_by_level.
  - apply pivot_columns_NoDup.
  - intros k Hk. apply pivot_columns_In, Hk.
Qed.

Lemma pair_cmp_total : total_cmp pair_cmp.
Proof.
  unfold pair_cmp. apply lex_total_cmp; apply on_total_cmp, string_total_cmp.
Qed.

Lemma key_cmp_total : total_cmp key_cmp.
Proof.
  unfold key_cmp. apply lex_total_cmp; apply on_total_cmp;
    [apply pair_cmp_total|apply string_total_cmp].
Qed.

Lemma primary_cmp_total : total_cmp primary_cmp.
Proof.
  unfold primary_cmp.
  repeat apply lex_total_cmp; apply on_total_cmp, nan_last_total_cmp, string_total_cmp.
Qed.

(** The output frame stands in ascending order of country name, level and
    name. *)
Lemma output_df_sorted (R : Runtime) (s : script) (countries_df : list CountryCodes.row)
    (admin_df : list admin_row) :
  StronglySorted (fun a b => leb_of primary_cmp a b = true)
    (output_df s countries_df admin_df).
Proof.
  unfold output_df. apply sort_sorted.
  - intros x y. apply leb_of_total, primary_cmp_total.
  - intros x y z. apply leb_of_trans, primary_cmp_total.
Qed.

Lemma StronglySorted_map {A B : Type} (f : A -> B) (Rel : B -> B -> Prop) (l : list A) :
  StronglySorted Rel (map f l) -> StronglySorted (fun a b => Rel (f a) (f b)) l.
Proof.
  induction l as [|a l IH]; simpl; intros H; [constructor|].
  inversion H as [|? ? Hs Ha]; subst. constructor; [apply IH, Hs|].
  rewrite Forall_forall in *. intros x Hx. apply Ha, in_map, Hx.
Qed.

Lemma StronglySorted_filter {A : Type} (Rel : A -> A -> Prop) (p : A -> bool) (l : list A) :
  StronglySorted Rel l -> StronglySorted Rel (filter p l).
Proof.
  induction 1 as [|a l Hs IH Ha]; simpl; [constructor|].
  destruct (p a); [|exact IH]. constructor; [exact IH|].
  rewrite Forall_forall in *. intros x Hx. apply filter_In in Hx. apply Ha. tauto.
Qed.

Lemma StronglySorted_before {A : Type} (Rel : A -> A -> Prop) (l1 l2 l3 : list A) (a b : A) :
  StronglySorted Rel (l1 ++ a :: l2 ++ b :: l3) -> Rel a b.
Proof.
  induction l1 as [|x l1 IH]; simpl; intros H; inversion H as [|? ? Hs Ha]; subst.
  - rewrite Forall_forall in Ha. apply Ha. apply in_or_app. right. left. reflexivity.
  - apply IH, Hs.
Qed.

(** Before it is sorted by Total, the pivot stands in ascending order of
    country code, then country name. *)
Lemma country_pivot_by_code (out : list division) :
  StronglySorted (fun a b => leb_of pair_cmp (index a) (index b) = true)
    (country_pivot out).
Proof.
  apply StronglySorted_map with (Rel := fun i j => leb_of pair_cmp i j = true).
  unfold country_pivot. rewrite map_map. simpl. rewrite map_id.
  unfold pivot_index. apply sort_sorted.
  - intros x y. apply leb_of_total, pair_cmp_total.
  - intros x y z. apply leb_of_trans, pair_cmp_total.
Qed.

Lemma desc_total_cmp : total_cmp (on Total (fun a b => Z.compare b a)).
Proof.
  apply on_total_cmp. split.
  - intros x y. apply Z.compare_antisym.
  - intros c x y z.
    destruct c; rewrite ?Z.compare_eq_iff, ?Z.compare_lt_iff, ?Z.compare_gt_iff; lia.
  - intros x y z E. apply Z.compare_eq_iff in E. subst. reflexivity.
Qed.

Lemma desc_leb (a b : pivot_row) :
  leb_of (on Total (fun a b => Z.compare b a)) a b = true <-> (Total b <= Total a)%Z.
Proof.
  unfold leb_of, on. destruct (Z.compare_spec (Total b) (Total a)); split; intros H';
    try reflexivity; try discriminate; lia.
Qed.

(** A stable sort would bring the rows in descending order of Total and
    leave the rows of equal Total in ascending order of country code: the
    order of ties that the quicksort of the code does not keep. *)
Lemma stable_sort_breaks_ties_by_code (out : list division) :
  sort_values_Total_desc (country_pivot out)
    (stable_Total_desc (country_pivot out)) /\
  ties_by_code_ascending (stable_Total_desc (country_pivot out)).
Proof.
  assert (Htot : forall x y : pivot_row,
             leb_of (on Total (fun a b => Z.compare b a)) x y = false ->
             leb_of (on Total (fun a b => Z.compare b a)) y x = true)
    by (intros x y; apply leb_of_total, desc_total_cmp).
  assert (Htr : forall x y z : pivot_row,
             leb_of (on Total (fun a b => Z.compare b a)) x y = true ->
             leb_of (on Total (fun a b => Z.compare b a)) y z = true ->
             leb_of (on Total (fun a b => Z.compare b a)) x z = true)
    by (intros x y z; apply leb_of_trans, desc_total_cmp).
  split; [split|].
  - apply sort_perm.
  - unfold stable_Total_desc.
    pose proof (sort_sorted _ Htot Htr (country_pivot out)) as H.
    induction H as [|a l Hs IH Ha]; constructor; [exact IH|].
    rewrite Forall_forall in *. intros x Hx. apply desc_leb, Ha, Hx.
  - intros pre a mid b post Hsplit Hab.
    set (p := fun r : pivot_row => Z.eqb (Total r) (Total a)).
    assert (Hf : filter p (stable_Total_desc (country_pivot out))
                 = filter p (country_pivot out)).
    { unfold stable_Total_desc. rewrite (filter_sort _ Htot Htr).
      apply sort_all_tied. intros x y Hx Hy.
      apply filter_In in Hx, Hy. destruct Hx as [_ Hx], Hy as [_ Hy].
      unfold p in Hx, Hy. apply Z.eqb_eq in Hx, Hy.
      apply desc_leb. lia. }
    rewrite Hsplit in Hf. rewrite filter_app in Hf. simpl in Hf.
    rewrite filter_app in Hf. simpl in Hf.
    assert (Ha : p a = true) by (unfold p; apply Z.eqb_refl).
    assert (Hb : p b = true) by (unfold p; apply Z.eqb_eq; congruence).
    rewrite Ha, Hb in Hf.
    pose proof (StronglySorted_filter _ p _ (country_pivot_by_code out)) as Hs.
    rewrite <- Hf in Hs. apply StronglySorted_before in Hs.
    unfold leb_of, pair_cmp, lex, on in Hs.
    destruct (String.compare (fst (index a)) (fst (index b))); congruence.
Qed.

Lemma In_firstn {A : Type} (n : nat) (l : list A) (x : A) :
  In x (firstn n l) -> In x l.
Proof.
  revert l. induction n as [|n IH]; intros [|a l]; simpl; try tauto.
  intros [->|H]; [left; reflexivity|right; apply IH, H].
Qed.

Lemma StronglySorted_firstn {A : Type} (Rel : A -> A -> Prop) (n : nat) (l : list A) :
  StronglySorted Rel l -> StronglySorted Rel (firstn n l).
Proof.
  intros H. revert n.
  induction H as [|a l Hs IH Ha]; intros [|n]; simpl; try constructor.
  - apply IH.
  - rewrite Forall_forall in *. intros x Hx. apply Ha.
    apply (In_firstn n). exact Hx.
Qed.

Example two_countries_pivot :
  country_pivot Examples.two_countries
  = [Examples.germany_total; Examples.france_total].
Proof. vm_compute. reflexivity. Qed.

Example tied_countries_pivot :
  country_pivot Examples.tied_countries = map Examples.tied_total Examples.tied_codes.
Proof. vm_compute. reflexivity. Qed.

(* ================================================================== *)
(** * The per-country splitter *)

Section SplitFacts.

Import SplitByCountry.

Context {R : Runtime}.

Lemma unique_from_In (seen l : list (option string)) (x : option string) :
  In x (unique_from seen l) <-> In x l /\ ~ In x seen.
Proof.
  revert seen. induction l as [|y l IH]; intros seen; simpl; [tauto|].
  destruct (existsb (opt_eqb String.eqb y) seen) eqn:E.
  - apply existsb_exists in E. destruct E as (z & Hz & Ez).
    apply opt_string_eqb_eq in Ez. subst z.
    rewrite IH. split.
    + intros [H1 H2]. tauto.
    + intros [[->|H1] H2]; [contradiction|tauto].
  - assert (Hy : ~ In y seen).
    { intros Hin. apply Bool.not_true_iff_false in E. apply E.
      apply existsb_exists. exists y. split; [exact Hin|].
      apply opt_string_eqb_eq. reflexivity. }
    simpl. rewrite IH. simpl. split.
    + intros [<-|[H1 H2]]; [tauto|]. split; [tauto|]. intros H. apply H2. right. exact H.
    + intros [[<-|H1] H2]; [tauto|].
      destruct (opt_eqb String.eqb y x) eqn:Eyx.
      * left. apply opt_string_eqb_eq. exact Eyx.
      * right. split; [exact H1|]. intros [->|H]; [|contradiction].
        assert (Hxx : opt_eqb String.eqb x x = true)
          by (apply opt_string_eqb_eq; reflexivity).
        congruence.
Qed.

Lemma unique_In (l : list (option string)) (x : option string) :
  In x (unique l) <-> In x l.
Proof. unfold unique. rewrite unique_from_In. simpl. tauto. Qed.

Lemma to_excel_same (p : string) (rows : list division) (fs : directory) :
  to_excel p rows fs p = Some rows.
Proof. unfold to_excel. rewrite String.eqb_refl. reflexivity. Qed.

Lemma to_excel_other (p q : string) (rows : list division) (fs : directory) :
  q <> p -> to_excel p rows fs q = fs q.
Proof.
  intros H. unfold to_excel. destruct (String.eqb q p) eqn:E; [|reflexivity].
  apply String.eqb_eq in E. contradiction.
Qed.

(** A file that no country of the loop is named after is left as found. *)
Lemma export_untouched (df : list division) (cs : list (option string))
    (fs : directory) (p : string) :
  (forall c, In (Some c) cs -> output_file c <> p) ->
  fold_left (export_country df) cs fs p = fs p.
Proof.
  revert fs. induction cs as [|x cs IH]; intros fs H; simpl; [reflexivity|].
  rewrite IH by (intros c Hc; apply H; right; exact Hc).
  destruct x as [c|]; simpl; [|reflexivity].
  apply to_excel_other. intros E. apply (H c); [left; reflexivity|congruence].
Qed.

(** A file whose writers all write the same rows holds these rows. *)
Lemma export_written (df : list division) (cs : list (option string))
    (fs : directory) (p : string) (rows : list division) :
  (forall c, In (Some c) cs -> output_file c = p -> country_df df c = rows) ->
  fs p = Some rows \/ (exists c, In (Some c) cs /\ output_file c = p) ->
  fold_left (export_country df) cs fs p = Some rows.
Proof.
  revert fs. induction cs as [|x cs IH]; intros fs Hrows Hor; simpl.
  - destruct Hor as [H|(c & [] & _)]. exact H.
  - apply IH; [intros c Hc; apply Hrows; right; exact Hc|].
    destruct x as [c0|]; simpl.
    + destruct (string_dec (output_file c0) p) as [E|Hne].
      * left. rewrite <- E, to_excel_same. f_equal.
        apply Hrows; [left; reflexivity|exact E].
      * rewrite to_excel_other by congruence.
        destruct Hor as [H|(c & [Hc|Hc] & Hp)]; [left; exact H| |right; eauto].
        injection Hc as ->. contradiction.
    + destruct Hor as [H|(c & [Hc|Hc] & Hp)]; [left; exact H|discriminate|right; eauto].
Qed.

(** What a file holds after the loop: what it held before, or the rows of
    a country that is named after it. *)
Lemma export_origin (df : list division) (cs : list (option string))
    (fs : directory) (p : string) :
  fold_left (export_country df) cs fs p = fs p \/
  exists c, In (Some c) cs /\ output_file c = p /\
            fold_left (export_country df) cs fs p = Some (country_df df c).
Proof.
  revert fs. induction cs as [|x cs IH]; intros fs; simpl; [left; reflexivity|].
  destruct (IH (export_country df fs x)) as [H|(c & Hc & Hp & H)].
  - rewrite H. destruct x as [c0|]; simpl; [|left; reflexivity].
    destruct (string_dec p (output_file c0)) as [E|Hne].
    + right. exists c0. split; [left; reflexivity|]. split; [congruence|].
      rewrite E. apply to_excel_same.
    + left. apply to_excel_other, Hne.
  - right. exists c. split; [right; exact Hc|]. split; assumption.
Qed.

Lemma country_df_In (df : list division) (c : string) (d : division) :
  In d (country_df df c) <-> In d df /\ Country_Name d = Some c.
Proof. unfold country_df. rewrite filter_In, opt_string_eqb_eq. reflexivity. Qed.

Lemma str_filter_chars (p : ascii -> bool) (s : string) (c : ascii) :
  In c (list_ascii_of_string (str_filter p s)) ->
  In c (list_ascii_of_string s) /\ p c = true.
Proof.
  induction s as [|a s IH]; simpl; [tauto|].
  destruct (p a) eqn:E; simpl.
  - intros [<-|H]; [tauto|]. destruct (IH H). tauto.
  - intros H. destruct (IH H). tauto.
Qed.

Lemma rstrip_chars (s : string) (c : ascii) :
  In c (list_ascii_of_string (rstrip s)) -> In c (list_ascii_of_string s).
Proof.
  induction s as [|a s IH]; simpl; [tauto|].
  destruct (rstrip s) as [|b t] eqn:E.
  - destruct (isspace a); simpl; tauto.
  - simpl. intros [<-|H]; [tauto|]. right. apply IH. exact H.
Qed.

(** The stripped name ends with no whitespace. *)
Lemma rstrip_last (s : string) :
  rstrip s = EmptyString \/
  exists t c, rstrip s = (t ++ String c EmptyString)%string /\ isspace c = false.
Proof.
  induction s as [|a s IH]; simpl; [left; reflexivity|].
  destruct IH as [->|(t & c & -> & Hc)].
  - destruct (isspace a) eqn:E; [left; reflexivity|].
    right. exists EmptyString, a. split; [reflexivity|exact E].
  - right. destruct (t ++ String c "")%string as [|b u] eqn:E.
    + destruct t; discriminate.
    + exists (String a t), c. rewrite <- E. split; [reflexivity|exact Hc].
Qed.

End SplitFacts.

(** What the splitter does for the countries whose file name is their
    own.  For a country whose cleaned name is the
    cleaned name of no other country of the frame, the directory holds,
    under that name, the rows of the country and no other row.  The
    cleaned name keeps, in order, the letters, digits and whitespace of
    the display name and does not end with whitespace.  A file holds what
    it held before the run or the rows of one country named after it, so
    that a row without a country name is written nowhere, and the files
    named after no country are left as they were. *)
Theorem split_writes_country_file
    (R : Runtime) (df : list division) (fs : SplitByCountry.directory) (c : string) :
  In (Some c) (map Country_Name df) ->
  (forall c', In (Some c') (map Country_Name df) ->
              SplitByCountry.output_file c' = SplitByCountry.output_file c -> c' = c) ->
  SplitByCountry.split_data_by_country df fs (SplitByCountry.output_file c)
    = Some (SplitByCountry.country_df df c) /\
  (forall d, In d (SplitByCountry.country_df df c) <-> In d df /\ Country_Name d = Some c) /\
  (forall ch, In ch (list_ascii_of_string (SplitByCountry.safe_filename c)) ->
              In ch (list_ascii_of_string c) /\
              (isalpha ch || isdigit ch || isspace ch) = true) /\
  (SplitByCountry.safe_filename c = EmptyString \/
   exists t ch, SplitByCountry.safe_filename c = (t ++ String ch EmptyString)%string /\
                isspace ch = false) /\
  (forall p rows,
     SplitByCountry.split_data_by_country df fs p = Some rows ->
     fs p = Some rows \/
     exists c0, In (Some c0) (map Country_Name df) /\
                SplitByCountry.output_file c0 = p /\
                rows = SplitByCountry.country_df df c0 /\
                forall d, In d rows -> Country_Name d = Some c0) /\
  (forall p, (forall c0, In (Some c0) (map Country_Name df) ->
                         SplitByCountry.output_file c0 <> p) ->
             SplitByCountry.split_data_by_country df fs p = fs p).
Proof.
  intros Hc Hinj. unfold SplitByCountry.split_data_by_country.
  split; [|split; [|split; [|split; [|split]]]].
  - apply export_written.
    + intros c' Hc' E. apply (proj1 (unique_In _ _)) in Hc'. rewrite (Hinj c' Hc' E). reflexivity.
    + right. exists c. split; [apply (proj2 (unique_In _ _)), Hc|reflexivity].
  - intros d. apply country_df_In.
  - intros ch Hch. unfold SplitByCountry.safe_filename in Hch.
    apply rstrip_chars, str_filter_chars in Hch. exact Hch.
  - apply rstrip_last.
  - intros p rows H.
    destruct (export_origin df (SplitByCountry.unique (map Country_Name df)) fs p)
      as [E|(c0 & Hc0 & Hp & E)].
    + left. rewrite <- E. exact H.
    + right. exists c0. rewrite E in H. injection H as <-.
      split; [apply (proj1 (unique_In _ _)), Hc0|]. split; [exact Hp|]. split; [reflexivity|].
      intros d Hd. apply country_df_In in Hd. tauto.
  - intros p Hp. apply export_untouched.
    intros c0 Hc0. apply Hp, (proj1 (unique_In _ _)), Hc0.
Qed.

Lemma split_writes_country_file_witness :
  In (Some "Guinea-Bissau"%string)
    (map Country_Name [Examples.bafata; Examples.nowhere]) /\
  @SplitByCountry.split_data_by_country ascii_runtime
    [Examples.bafata; Examples.nowhere] Examples.empty_directory
    "GuineaBissau.xlsx"%string
  = Some [Examples.bafata].
Proof.
  assert (H : In (Some "Guinea-Bissau"%string)
                (map Country_Name [Examples.bafata; Examples.nowhere]))
    by (left; reflexivity).
  split; [exact H|].
  refine (proj1 (split_writes_country_file ascii_runtime
                   [Examples.bafata; Examples.nowhere] Examples.empty_directory
                   "Guinea-Bissau"%string H _)).
  intros c' [E|[E|[]]] _; [|discriminate E].
  simpl in E. injection E as <-. reflexivity.
Defined.

(** C9, on the code.  The splitter is to create a separate file for each
    country, and the claim has exactly one file per country with exactly
    the rows of that country.  Two country names that are cleaned to the
    same file name share one file: it is written twice and keeps the rows
    of the country met last.  Guinea-Bissau has rows, and after the run
    no file holds them. *)
Theorem colliding_names_share_one_file :
  @SplitByCountry.output_file ascii_runtime "Guinea-Bissau"%string
    = @SplitByCountry.output_file ascii_runtime "GuineaBissau"%string /\
  SplitByCountry.country_df [Examples.bafata; Examples.conakry]
    "Guinea-Bissau"%string = [Examples.bafata] /\
  @SplitByCountry.split_data_by_country ascii_runtime
    [Examples.bafata; Examples.conakry] Examples.empty_directory
    (@SplitByCountry.output_file ascii_runtime "Guinea-Bissau"%string)
  = Some [Examples.conakry] /\
  forall p,
    @SplitByCountry.split_data_by_country ascii_runtime
      [Examples.bafata; Examples.conakry] Examples.empty_directory p
    <> Some [Examples.bafata].
Proof.
  split; [reflexivity|]. split; [reflexivity|]. split; [vm_compute; reflexivity|].
  intros p H.
  destruct (@export_origin ascii_runtime [Examples.bafata; Examples.conakry]
              (SplitByCountry.unique
                 (map Country_Name [Examples.bafata; Examples.conakry]))
              Examples.empty_directory p) as [E|(c0 & Hc0 & Hp & _)].
  - unfold SplitByCountry.split_data_by_country in H. rewrite E in H.
    discriminate H.
  - destruct Hc0 as [Hc0|[Hc0|[]]]; injection Hc0 as <-; subst p;
      vm_compute in H; discriminate H.
Qed.

(* ================================================================== *)
(** * The query tool *)

(** C10.  As soon as one row carries the upper-cased query as its country
    code, [search_country] returns the rows with that code, all of them
    and only them, in the order of the frame.  The answer is the same
    whatever the pattern of the query compiles to, and also when it does
    not compile: the searches in the two name columns are not run. *)
Theorem search_country_code_first
    (R : Runtime) (df : list QuerySubdivisions.row) (query : string)
    (r : QuerySubdivisions.row) :
  In r df ->
  QuerySubdivisions.Country_Code r = Some (upper query) ->
  QuerySubdivisions.search_country df query
    = Some (filter
              (fun x => opt_eqb String.eqb (QuerySubdivisions.Country_Code x)
                          (Some (upper query)))
              df) /\
  (forall rows, QuerySubdivisions.search_country df query = Some rows ->
     forall x, In x rows <->
               In x df /\ QuerySubdivisions.Country_Code x = Some (upper query)).
Proof.
  intros Hr Hcode.
  assert (E : QuerySubdivisions.search_country df query
              = Some (filter
                        (fun x => opt_eqb String.eqb (QuerySubdivisions.Country_Code x)
                                    (Some (upper query)))
                        df)).
  { unfold QuerySubdivisions.search_country.
    destruct (filter _ df) as [|y ys] eqn:F; [|reflexivity].
    exfalso.
    assert (Hin : In r (filter
                          (fun x => opt_eqb String.eqb (QuerySubdivisions.Country_Code x)
                                      (Some (upper query)))
                          df)).
    { apply filter_In. split; [exact Hr|]. apply opt_string_eqb_eq. exact Hcode. }
    rewrite F in Hin. exact Hin. }
  split; [exact E|].
  intros rows Hrows x. rewrite E in Hrows. injection Hrows as <-.
  rewrite filter_In, opt_string_eqb_eq. reflexivity.
Qed.

Lemma search_country_code_first_witness :
  In Examples.goa [Examples.jakarta; Examples.goa] /\
  QuerySubdivisions.Country_Code Examples.goa
    = Some (@upper ascii_runtime "ind"%string) /\
  @QuerySubdivisions.search_country ascii_runtime
    [Examples.jakarta; Examples.goa] "ind"
  = Some [Examples.goa].
Proof.
  assert (H1 : In Examples.goa [Examples.jakarta; Examples.goa])
    by (right; left; reflexivity).
  assert (H2 : QuerySubdivisions.Country_Code Examples.goa
               = Some (@upper ascii_runtime "ind"%string)) by reflexivity.
  split; [exact H1|]. split; [exact H2|].
  exact (proj1 (search_country_code_first ascii_runtime
                  [Examples.jakarta; Examples.goa] "ind" Examples.goa H1 H2)).
Defined.

(** Without a row of that code the names are searched: the same frame,
    asked for "indo", answers with the rows of Indonesia. *)
Example search_country_by_name :
  @QuerySubdivisions.search_country ascii_runtime
    [Examples.jakarta; Examples.goa] "indo"
  = Some [Examples.jakarta].
Proof. vm_compute. reflexivity. Qed.

(* ================================================================== *)
(** * Further properties of the pipeline *)

Section MorePipelineFacts.

Context {R : Runtime}.

(** A deduplicated row passes the three filters again: the columns the
    filters read are those of a record that passed them. *)
Lemma dedup_survives (s : script) (df : list admin_row) (o : admin_row) :
  In o (admin_deduplicated s df) -> survives s o = true.
Proof.
  intros Ho.
  pose proof (dedup_coord_mask s df o Ho) as Hc.
  destruct (dedup_row_origin s df o Ho)
    as (k & pre & w & post & Hk & Hsplit & Hbuilt & _).
  assert (Hw : In w (admin_filtered s df)).
  { apply (group_In k). rewrite Hsplit. apply in_or_app. right. left. reflexivity. }
  apply admin_filtered_In in Hw. destruct Hw as [_ Hw].
  unfold survives in *. rewrite Hc.
  apply andb_true_iff in Hw. destruct Hw as [Hw _].
  apply andb_true_iff in Hw. destruct Hw as [Ha Hd].
  destruct Hbuilt as (_ & _ & _ & _ & _ & _ & Kdesig & _ & _ & _ & _ & _ & _ & Kdisp & _).
  assert (Ed : desig_cd o = desig_cd w).
  { apply Kdesig. unfold adm_mask in Ha. destruct (desig_cd w); congruence. }
  assert (Ep : display o = display w).
  { apply Kdisp. intros E.
    assert (display_nonempty w = false) by (unfold display_nonempty; rewrite E; reflexivity).
    destruct s; simpl in Hd; [apply andb_true_iff in Hd; destruct Hd|]; congruence. }
  assert (Ha' : adm_mask o = true) by (unfold adm_mask in *; rewrite Ed; exact Ha).
  assert (Hd' : display_mask s o = true).
  { destruct s; simpl in *; unfold display_is_Y, display_nonempty in *;
      rewrite Ep; exact Hd. }
  rewrite Ha', Hd'. reflexivity.
Qed.


End MorePipelineFacts.

(** X1.  Every row of the output frame has a latitude and a longitude that
    are numbers, a level that begins with one of the five administrative
    codes, and a feature identifier: the filters made before the
    deduplication still hold after it, after the join, in both scripts. *)
Theorem output_rows_located
    (R : Runtime) (s : script) (countries_df : list CountryCodes.row)
    (admin_df : list admin_row) (d : division) :
  In d (output_df s countries_df admin_df) ->
  (exists x y, latitude d = Some x /\ longitude d = Some y) /\
  (exists l p, Administrative_Level d = Some l /\ In p adm_prefixes /\
               String.prefix p l = true) /\
  (exists k, Unique_Feature_ID d = Some k).
Proof.
  intros Hd. apply output_df_In in Hd. destruct Hd as (m & Hm & ->).
  apply merge_fst_In in Hm. destruct Hm as [Hfst _].
  apply in_map_iff in Hfst. destruct Hfst as (o & Eo & Ho).
  pose proof (dedup_survives s admin_df o Ho) as Hs.
  unfold survives in Hs. apply andb_true_iff in Hs. destruct Hs as [Hs Hc].
  apply andb_true_iff in Hs. destruct Hs as [Ha _].
  unfold output_row. rewrite <- Eo. simpl.
  split; [|split].
  - unfold coord_mask in Hc. apply andb_true_iff in Hc. destruct Hc as [H1 H2].
    destruct (to_numeric (lat_dd o)) as [x|]; [|discriminate].
    destruct (to_numeric (long_dd o)) as [y|]; [|discriminate].
    exists x, y. split; reflexivity.
  - unfold adm_mask in Ha. destruct (desig_cd o) as [l|]; [|discriminate].
    apply existsb_exists in Ha. destruct Ha as (p & Hp & Hpre).
    exists l, p. repeat split; assumption.
  - assert (H : In (ufi o) (map ufi (admin_deduplicated s admin_df)))
      by (apply in_map, Ho).
    rewrite dedup_ufi in H. apply in_map_iff in H. destruct H as (k & Hk & _).
    exists k. symmetry. exact Hk.
Qed.

Lemma output_rows_located_witness :
  In Examples2.bayern_division
    (@output_df ascii_runtime Full [Examples.germany]
       [Examples.variant_row; Examples.approved_row]) /\
  exists x y, latitude Examples2.bayern_division = Some x /\
              longitude Examples2.bayern_division = Some y.
Proof.
  assert (H : In Examples2.bayern_division
                (@output_df ascii_runtime Full [Examples.germany]
                   [Examples.variant_row; Examples.approved_row]))
    by (vm_compute; left; reflexivity).
  split; [exact H|].
  exact (proj1 (output_rows_located ascii_runtime Full [Examples.germany]
                  [Examples.variant_row; Examples.approved_row]
                  Examples2.bayern_division H)).
Defined.

(** X2.  The output frame is a rearrangement of the joined rows in
    ascending order of country name, then level, then division name, a
    missing value last: a row never stands before a row that compares
    smaller. *)
Theorem primary_view_sorted
    (R : Runtime) (s : script) (countries_df : list CountryCodes.row)
    (admin_df : list admin_row) :
  Permutation
    (map output_row (merge (admin_coords s (admin_deduplicated s admin_df)) countries_df))
    (output_df s countries_df admin_df) /\
  forall pre a mid b post,
    output_df s countries_df admin_df = pre ++ a :: mid ++ b :: post ->
    primary_cmp a b <> Gt.
Proof.
  split; [apply sort_perm|].
  intros pre a mid b post E.
  pose proof (output_df_sorted R s countries_df admin_df) as H.
  rewrite E in H. apply StronglySorted_before in H.
  unfold leb_of in H. destruct (primary_cmp a b); congruence.
Qed.

(** X3.  A row of the output is on one of the sheets by level exactly when
    its level is, to the letter, one of ADM1, ADM2, ADM3, ADM4, ADMD; the
    sheet is then the one named after that level.  Every sheet written is
    not empty and holds the rows of its level in the order of the output.
    A level such as ADM1H passes the level filter and is on no sheet by
    level. *)
Theorem level_sheets_hold_exact_levels (out : list division) (d : division) :
  In d out ->
  ((exists name rows, In (name, rows) (level_sheets out) /\ In d rows)
   <-> exists l, In l sheet_levels /\ Administrative_Level d = Some l) /\
  (forall name rows,
     In (name, rows) (level_sheets out) ->
     rows <> [] /\
     exists l, In l sheet_levels /\ name = (l ++ "_Divisions")%string /\
               rows = level_data l out /\
               forall x, In x rows <-> In x out /\ Administrative_Level x = Some l).
Proof.
  intros Hd.
  assert (Hsheet : forall name rows,
             In (name, rows) (level_sheets out) ->
             rows <> [] /\
             exists l, In l sheet_levels /\ name = (l ++ "_Divisions")%string /\
                       rows = level_data l out /\
                       forall x, In x rows <-> In x out /\ Administrative_Level x = Some l).
  { intros name rows H. unfold level_sheets in H. apply in_flat_map in H.
    destruct H as (l & Hl & H).
    destruct (level_data l out) as [|y ys] eqn:E; [contradiction|].
    destruct H as [H|[]]. injection H as <- <-.
    split; [discriminate|]. exists l. split; [exact Hl|]. split; [reflexivity|].
    split; [symmetry; exact E|]. intros x. rewrite <- E. unfold level_data.
    rewrite filter_In, opt_string_eqb_eq. reflexivity. }
  split; [|exact Hsheet].
  split.
  - intros (name & rows & Hin & Hrow).
    destruct (Hsheet name rows Hin) as (_ & l & Hl & _ & _ & Hx).
    exists l. split; [exact Hl|]. apply Hx. exact Hrow.
  - intros (l & Hl & Hlevel).
    assert (Hdl : In d (level_data l out)).
    { unfold level_data. apply filter_In. split; [exact Hd|].
      apply opt_string_eqb_eq. exact Hlevel. }
    exists (l ++ "_Divisions")%string, (level_data l out). split; [|exact Hdl].
    unfold level_sheets. apply in_flat_map. exists l. split; [exact Hl|].
    destruct (level_data l out) as [|y ys]; [contradiction|]. left. reflexivity.
Qed.

Lemma level_sheets_hold_exact_levels_witness :
  In Examples2.bayern_division [Examples2.bayern_division] /\
  exists name rows,
    In (name, rows) (level_sheets [Examples2.bayern_division]) /\
    In Examples2.bayern_division rows.
Proof.
  assert (H : In Examples2.bayern_division [Examples2.bayern_division])
    by (left; reflexivity).
  split; [exact H|].
  apply (proj1 (level_sheets_hold_exact_levels [Examples2.bayern_division]
                  Examples2.bayern_division H)).
  exists "ADM1"%string. split; [left; reflexivity|reflexivity].
Defined.

(** A historical division goes through both scripts and is on no sheet by
    level. *)
Example historical_division_on_no_level_sheet :
  forall s,
    map Administrative_Level
      (@output_df ascii_runtime s [Examples.germany] [Examples2.historical_row])
    = [Some "ADM1H"%string] /\
    level_sheets (@output_df ascii_runtime s [Examples.germany] [Examples2.historical_row])
    = [].
Proof. intros []; split; vm_compute; reflexivity. Qed.



(** X5.  The full script keeps the rows that the simple script keeps and
    whose display flag, in upper case, is Y.  As the empty string is not
    turned into Y, the second display filter of the full script removes
    nothing after the first, and every record the full script keeps has a
    display flag that reads Y. *)
Theorem full_script_keeps_simple_rows_flagged_Y (R : Runtime) (admin_df : list admin_row) :
  upper ""%string <> "Y"%string ->
  admin_filtered Full admin_df = filter display_is_Y (admin_filtered Simple admin_df) /\
  (forall df, display_filter Full df = filter display_is_Y df) /\
  (forall r, In r (admin_filtered Full admin_df) ->
             In r (admin_filtered Simple admin_df) /\
             exists v, display r = Some v /\ upper v = "Y"%string).
Proof.
  intros Hup.
  assert (HY : forall r, display_is_Y r = true ->
                         display_nonempty r = true /\
                         exists v, display r = Some v /\ upper v = "Y"%string).
  { intros r H. unfold display_is_Y in H. apply String.eqb_eq in H.
    unfold display_nonempty. destruct (display r) as [v|]; simpl in *; [|contradiction].
    split; [|exists v; split; [reflexivity|exact H]].
    destruct (String.eqb v "") eqn:E; [|reflexivity].
    apply String.eqb_eq in E. subst v. contradiction. }
  assert (E1 : admin_filtered Full admin_df
               = filter display_is_Y (admin_filtered Simple admin_df)).
  { rewrite !admin_filtered_survives, filter_filter. apply filter_ext.
    intros r. unfold survives. simpl.
    destruct (adm_mask r), (display_is_Y r), (display_nonempty r), (coord_mask r);
      reflexivity. }
  split; [exact E1|]. split.
  - intros df. simpl. rewrite filter_filter. apply filter_ext. intros r.
    destruct (display_is_Y r) eqn:E; [|reflexivity].
    rewrite (proj1 (HY r E)). reflexivity.
  - intros r Hr. rewrite E1 in Hr. apply filter_In in Hr. destruct Hr as [Hs Hy].
    split; [exact Hs|]. exact (proj2 (HY r Hy)).
Qed.

Lemma full_script_keeps_simple_rows_flagged_Y_witness :
  @upper ascii_runtime ""%string <> "Y"%string /\
  @admin_filtered ascii_runtime Full [Examples.hidden_row; Examples.approved_row]
  = filter (@display_is_Y ascii_runtime)
      (@admin_filtered ascii_runtime Simple [Examples.hidden_row; Examples.approved_row]).
Proof.
  assert (H : @upper ascii_runtime ""%string <> "Y"%string) by (simpl; discriminate).
  split; [exact H|].
  exact (proj1 (full_script_keeps_simple_rows_flagged_Y ascii_runtime
                  [Examples.hidden_row; Examples.approved_row] H)).
Defined.

(* ================================================================== *)
(** * When the row of a feature is one record *)

Section WholeRecordFacts.

Context {R : Runtime}.

Lemma first_single (k : Z) (o : admin_row) :
  ufi o = Some k -> first k [o] = o.
Proof.
  intros H. destruct o as [u ? ? ? la lo ? ? ? nr ? ? ? ? ?]. simpl in H. subst u.
  unfold first. simpl.
  repeat match goal with
         | |- context [match ?x with Some _ => _ | None => _ end] => destruct x
         | |- context [match ?x with NaN => _ | Num _ => _ | Str _ => _ end] => destruct x
         end; reflexivity.
Qed.

Lemma built_on_complete (w o : admin_row) :
  built_on w o -> complete w -> o = w.
Proof.
  intros (H0 & H1 & H2 & H3 & H4 & H5 & H6 & H7 & H8 & H9 & H10 & H11 & H12 & H13 & H14)
         (C1 & C2 & C3 & C4 & C5 & C6 & C7 & C8 & C9 & C10 & C11 & C12 & C13 & C14).
  specialize (H1 C1). specialize (H2 C2). specialize (H3 C3). specialize (H4 C4).
  specialize (H5 C5). specialize (H6 C6). specialize (H7 C7). specialize (H8 C8).
  specialize (H9 C9). specialize (H10 C10). specialize (H11 C11). specialize (H12 C12).
  specialize (H13 C13). specialize (H14 C14).
  destruct o, w. simpl in *. congruence.
Qed.

End WholeRecordFacts.

(** X6.  When the record selected for a feature, the first of the best of
    its group, has a value in every column, the deduplicated row is that
    record, cell for cell. *)
Theorem complete_winner_is_the_row
    (R : Runtime) (s : script) (admin_df : list admin_row) (o : admin_row) :
  In o (admin_deduplicated s admin_df) ->
  exists k pre w post,
    ufi o = Some k /\
    group k (admin_filtered s admin_df) = pre ++ w :: post /\
    (forall r, In r pre -> tuple_lt (score s w) (score s r)) /\
    (forall r, In r post -> tuple_le (score s w) (score s r)) /\
    (complete w -> o = w).
Proof.
  intros Ho.
  destruct (dedup_row_origin s admin_df o Ho)
    as (k & pre & w & post & Hk & Hsplit & Hbuilt & Hpre & Hpost).
  exists k, pre, w, post. repeat (split; [assumption|]).
  apply built_on_complete, Hbuilt.
Qed.

Lemma complete_winner_is_the_row_witness :
  In Examples2.full_row
    (@admin_deduplicated ascii_runtime Full
       [Examples2.full_variant; Examples2.full_row]) /\
  group 500 (@admin_filtered ascii_runtime Full
               [Examples2.full_variant; Examples2.full_row])
  = [Examples2.full_variant] ++ Examples2.full_row :: [] /\
  exists k pre w post,
    ufi Examples2.full_row = Some k /\
    group k (@admin_filtered ascii_runtime Full
               [Examples2.full_variant; Examples2.full_row]) = pre ++ w :: post /\
    complete w /\
    Examples2.full_row = w.
Proof.
  assert (H : In Examples2.full_row
                (@admin_deduplicated ascii_runtime Full
                   [Examples2.full_variant; Examples2.full_row]))
    by (vm_compute; left; reflexivity).
  assert (Hg : group 500 (@admin_filtered ascii_runtime Full
                            [Examples2.full_variant; Examples2.full_row])
               = [Examples2.full_variant] ++ Examples2.full_row :: [])
    by (vm_compute; reflexivity).
  split; [exact H|]. split; [exact Hg|].
  destruct (complete_winner_is_the_row ascii_runtime Full
              [Examples2.full_variant; Examples2.full_row] Examples2.full_row H)
    as (k & pre & w & post & H1 & H2 & H3 & H4 & H5).
  assert (Ek : k = 500%Z) by (simpl in H1; congruence).
  assert (Hc : complete w).
  { subst k. rewrite Hg in H2.
    destruct pre as [|p pre].
    - exfalso. simpl in H2. injection H2 as Ew Epost. subst w post.
      specialize (H4 Examples2.full_row (or_introl eq_refl)).
      vm_compute in H4.
      destruct H4 as [[H4|[H4 _]]|[H4 _]]; discriminate.
    - simpl in H2. injection H2 as Ep Erest.
      destruct pre as [|p' pre].
      + simpl in Erest. injection Erest as Ew Epost. subst w.
        unfold complete. simpl. repeat split; discriminate.
      + exfalso. simpl in Erest. injection Erest as Ep' Erest.
        destruct pre; discriminate. }
  exists k, pre, w, post.
  split; [exact H1|]. split; [exact H2|]. split; [exact Hc|]. exact (H5 Hc).
Defined.

(** X7.  A feature with one surviving record comes out as that record,
    cell for cell, its empty cells left empty. *)
Theorem lone_record_unchanged
    (R : Runtime) (s : script) (admin_df : list admin_row) (w : admin_row) (k : Z) :
  ufi w = Some k ->
  group k (admin_filtered s admin_df) = [w] ->
  In w (admin_deduplicated s admin_df) /\
  forall o, In o (admin_deduplicated s admin_df) -> ufi o = Some k -> o = w.
Proof.
  intros Hk Hg.
  assert (Hsorted : group k (sort_values s (admin_filtered s admin_df)) = [w]).
  { unfold sort_values, group.
    rewrite filter_sort.
    - fold (group k (admin_filtered s admin_df)). rewrite Hg. reflexivity.
    - intros x y. apply leb_of_total, sort_cmp_total.
    - intros x y z. apply leb_of_trans, sort_cmp_total. }
  assert (Hkey : In k (group_keys (sort_values s (admin_filtered s admin_df)))).
  { apply group_keys_In. exists w. split; [|exact Hk].
    unfold sort_values. apply sort_In.
    apply (group_In k). rewrite Hg. left. reflexivity. }
  assert (Hrow : forall o, In o (admin_deduplicated s admin_df) -> ufi o = Some k -> o = w).
  { intros o Ho Ho_k. unfold admin_deduplicated, groupby_first in Ho.
    apply in_map_iff in Ho. destruct Ho as (k' & <- & _). simpl in Ho_k.
    injection Ho_k as ->. rewrite Hsorted. apply first_single, Hk. }
  split; [|exact Hrow].
  unfold admin_deduplicated, groupby_first. apply in_map_iff.
  exists k. split; [|exact Hkey]. rewrite Hsorted. apply first_single, Hk.
Qed.

Lemma lone_record_unchanged_witness :
  ufi Examples.approved_no_lang = Some 100%Z /\
  In Examples.approved_no_lang
    (@admin_deduplicated ascii_runtime Full
       [Examples.hidden_row; Examples.approved_no_lang]).
Proof.
  assert (H1 : ufi Examples.approved_no_lang = Some 100%Z) by reflexivity.
  assert (H2 : group 100 (@admin_filtered ascii_runtime Full
                            [Examples.hidden_row; Examples.approved_no_lang])
               = [Examples.approved_no_lang]) by (vm_compute; reflexivity).
  split; [exact H1|].
  exact (proj1 (lone_record_unchanged ascii_runtime Full
                  [Examples.hidden_row; Examples.approved_no_lang]
                  Examples.approved_no_lang 100 H1 H2)).
Defined.

(* ================================================================== *)
(** * Sorted frames *)

Lemma Permutation_filter {A : Type} (p : A -> bool) (l l' : list A) :
  Permutation l l' -> Permutation (filter p l) (filter p l').
Proof.
  induction 1 as [|x l l' H IH|x y l|l l' l'' H1 IH1 H2 IH2]; simpl.
  - apply perm_nil.
  - destruct (p x); [apply perm_skip|]; exact IH.
  - destruct (p x), (p y); try apply Permutation_refl. apply perm_swap.
  - eapply perm_trans; eassumption.
Qed.

Section SortedFacts.

Context {A : Type}.
Variable leb : A -> A -> bool.

(** A frame already in order is left as it is. *)
Lemma sort_of_sorted (l : list A) :
  StronglySorted (fun a b => leb a b = true) l -> sort leb l = l.
Proof.
  induction 1 as [|x l Hs IH Hx]; simpl; [reflexivity|].
  rewrite IH. destruct l as [|y l]; simpl; [reflexivity|].
  inversion Hx as [|? ? Hxy _]; subst. rewrite Hxy. reflexivity.
Qed.

(** Two frames in order that hold the same rows are the same frame, when
    no two different rows compare equal. *)
Lemma sorted_perm_eq (l1 l2 : list A) :
  StronglySorted (fun a b => leb a b = true) l1 ->
  StronglySorted (fun a b => leb a b = true) l2 ->
  Permutation l1 l2 ->
  (forall a b, In a l1 -> In b l1 -> leb a b = true -> leb b a = true -> a = b) ->
  l1 = l2.
Proof.
  intros H1. revert l2. induction H1 as [|a l1 Hs1 IH Ha]; intros l2 H2 P Hanti.
  - apply Permutation_nil in P. symmetry. exact P.
  - destruct l2 as [|b l2].
    + apply Permutation_sym, Permutation_nil in P. discriminate.
    + inversion H2 as [|? ? Hs2 Hb]; subst.
      rewrite Forall_forall in Ha, Hb.
      assert (E : a = b).
      { assert (Hin_a : In a (b :: l2))
          by (apply (Permutation_in _ P); left; reflexivity).
        assert (Hin_b : In b (a :: l1))
          by (apply (Permutation_in _ (Permutation_sym P)); left; reflexivity).
        destruct Hin_a as [->|Hin_a]; [reflexivity|].
        destruct Hin_b as [->|Hin_b]; [reflexivity|].
        apply Hanti.
        - left. reflexivity.
        - right. exact Hin_b.
        - apply Ha, Hin_b.
        - apply Hb, Hin_a. }
      subst b. f_equal. apply IH.
      * exact Hs2.
      * apply Permutation_cons_inv in P. exact P.
      * intros x y Hx Hy. apply Hanti; right; assumption.
Qed.

Hypothesis leb_total : forall x y, leb x y = false -> leb y x = true.
Hypothesis leb_trans : forall x y z, leb x y = true -> leb y z = true -> leb x z = true.

(** Sorting does not depend on the order of the input when no two
    different rows compare equal. *)
Lemma sort_perm_invariant (l1 l2 : list A) :
  Permutation l1 l2 ->
  (forall a b, In a l1 -> In b l1 -> leb a b = true -> leb b a = true -> a = b) ->
  sort leb l1 = sort leb l2.
Proof.
  intros P Hanti. apply sorted_perm_eq.
  - apply sort_sorted; assumption.
  - apply sort_sorted; assumption.
  - eapply perm_trans; [apply Permutation_sym, sort_perm|].
    eapply perm_trans; [exact P|apply sort_perm].
  - intros a b Ha Hb. apply Hanti; apply (sort_In leb); assumption.
Qed.

End SortedFacts.

Lemma Z_leb_total (x y : Z) : Z.leb x y = false -> Z.leb y x = true.
Proof. rewrite Z.leb_gt, Z.leb_le. lia. Qed.

Lemma Z_leb_trans (x y z : Z) : Z.leb x y = true -> Z.leb y z = true -> Z.leb x z = true.
Proof. rewrite !Z.leb_le. lia. Qed.

Section OrderFacts.

Context {R : Runtime}.

Lemma group_keys_perm (df df' : list admin_row) :
  Permutation df df' -> group_keys df = group_keys df'.
Proof.
  intros P. unfold group_keys.
  apply (sort_perm_invariant Z.leb Z_leb_total Z_leb_trans).
  - apply NoDup_Permutation; try apply NoDup_nodup.
    intros k. rewrite !nodup_In. unfold ufi_values.
    split; apply Permutation_in; [|apply Permutation_sym];
      apply Permutation_flat_map, P.
  - intros a b _ _ Hab Hba. apply Z.leb_le in Hab, Hba. lia.
Qed.

Lemma tuple_le_antisym (a b : Z * Q * Z) : tuple_le a b -> tuple_le b a -> tuple_eq a b.
Proof.
  destruct a as [[t1 r1] l1], b as [[t2 r2] l2]. unfold tuple_le, tuple_lt, tuple_eq.
  intuition (try lia; try lra).
Qed.

End OrderFacts.

(** X8.  When no two different surviving records of one feature have the
    same score triple, the deduplicated frame and the output frame do not
    depend on the order in which the records are read. *)
Theorem dedup_independent_of_input_order
    (R : Runtime) (s : script) (countries_df : list CountryCodes.row)
    (admin_df admin_df' : list admin_row) :
  Permutation admin_df admin_df' ->
  (forall k a b,
     In a (admin_filtered s admin_df) -> In b (admin_filtered s admin_df) ->
     ufi a = Some k -> ufi b = Some k ->
     tuple_eq (score s a) (score s b) -> a = b) ->
  admin_deduplicated s admin_df = admin_deduplicated s admin_df' /\
  output_df s countries_df admin_df = output_df s countries_df admin_df'.
Proof.
  intros P Hties.
  assert (PF : Permutation (admin_filtered s admin_df) (admin_filtered s admin_df')).
  { rewrite !admin_filtered_survives. apply Permutation_filter, P. }
  assert (Htot : forall x y, leb_of (sort_cmp s) x y = false ->
                             leb_of (sort_cmp s) y x = true)
    by (intros x y; apply leb_of_total, sort_cmp_total).
  assert (Htr : forall x y z, leb_of (sort_cmp s) x y = true ->
                              leb_of (sort_cmp s) y z = true ->
                              leb_of (sort_cmp s) x z = true)
    by (intros x y z; apply leb_of_trans, sort_cmp_total).
  assert (E : admin_deduplicated s admin_df = admin_deduplicated s admin_df').
  { unfold admin_deduplicated, groupby_first, sort_values.
    rewrite (group_keys_perm _ (sort (leb_of (sort_cmp s)) (admin_filtered s admin_df'))).
    - apply map_ext. intros k. f_equal. unfold group.
      rewrite !(filter_sort _ Htot Htr).
      apply (sort_perm_invariant _ Htot Htr).
      + apply Permutation_filter, PF.
      + intros a b Ha Hb Hab Hba.
        apply (group_In k) in Ha, Hb. destruct Ha as [Ha Hka], Hb as [Hb Hkb].
        apply (Hties k a b Ha Hb Hka Hkb).
        apply tuple_le_antisym; apply score_leb_true; unfold leb_of.
        * rewrite <- (sort_cmp_same_ufi s k a b Hka Hkb). exact Hab.
        * rewrite <- (sort_cmp_same_ufi s k b a Hkb Hka). exact Hba.
    - eapply perm_trans; [apply Permutation_sym, sort_perm|].
      eapply perm_trans; [exact PF|apply sort_perm]. }
  split; [exact E|]. unfold output_df. rewrite E. reflexivity.
Qed.

Lemma dedup_independent_of_input_order_witness :
  Permutation [Examples.variant_row; Examples.approved_row]
    [Examples.approved_row; Examples.variant_row] /\
  @admin_deduplicated ascii_runtime Full [Examples.variant_row; Examples.approved_row]
  = @admin_deduplicated ascii_runtime Full [Examples.approved_row; Examples.variant_row].
Proof.
  assert (H1 : Permutation [Examples.variant_row; Examples.approved_row]
                 [Examples.approved_row; Examples.variant_row]) by apply perm_swap.
  split; [exact H1|].
  refine (proj1 (dedup_independent_of_input_order ascii_runtime Full []
                   [Examples.variant_row; Examples.approved_row]
                   [Examples.approved_row; Examples.variant_row] H1 _)).
  intros k a b Ha Hb _ _ Hs.
  assert (Ea : a = Examples.variant_row \/ a = Examples.approved_row).
  { vm_compute in Ha. destruct Ha as [<-|[<-|[]]]; [left|right]; reflexivity. }
  assert (Eb : b = Examples.variant_row \/ b = Examples.approved_row).
  { vm_compute in Hb. destruct Hb as [<-|[<-|[]]]; [left|right]; reflexivity. }
  destruct Ea as [-> | ->], Eb as [-> | ->]; try reflexivity;
    exfalso; vm_compute in Hs; destruct Hs as [Hs _]; discriminate Hs.
Defined.

(* ================================================================== *)
(** * Deduplicating twice *)

Lemma StronglySorted_strict (l : list Z) :
  StronglySorted (fun a b => Z.leb a b = true) l -> NoDup l ->
  StronglySorted Z.lt l.
Proof.
  induction 1 as [|a l Hs IH Ha]; intros Hnd; constructor;
    inversion Hnd as [|? ? Hnotin Hnd']; subst.
  - apply IH, Hnd'.
  - rewrite Forall_forall in *. intros x Hx.
    pose proof (Ha x Hx) as Hle. apply Z.leb_le in Hle.
    assert (a <> x) by (intros ->; contradiction). lia.
Qed.

Section TwiceFacts.

Context {R : Runtime}.

Lemma group_keys_strict (df : list admin_row) : StronglySorted Z.lt (group_keys df).
Proof.
  apply StronglySorted_strict; [|apply group_keys_NoDup].
  unfold group_keys. apply sort_sorted; [apply Z_leb_total|apply Z_leb_trans].
Qed.

Variable g : Z -> admin_row.
Hypothesis g_ufi : forall k, ufi (g k) = Some k.

Lemma ufi_values_map (K : list Z) : ufi_values (map g K) = K.
Proof.
  unfold ufi_values. induction K as [|k K IH]; simpl; [reflexivity|].
  rewrite g_ufi. simpl. f_equal. exact IH.
Qed.

Lemma group_absent (k : Z) (K : list Z) : ~ In k K -> group k (map g K) = [].
Proof.
  unfold group. induction K as [|k0 K IH]; simpl; intros H; [reflexivity|].
  destruct (ufi_is k (g k0)) eqn:E.
  - apply ufi_is_true in E. rewrite g_ufi in E. injection E as ->.
    exfalso. apply H. left. reflexivity.
  - apply IH. intros Hin. apply H. right. exact Hin.
Qed.

Lemma group_present (k : Z) (K : list Z) :
  NoDup K -> In k K -> group k (map g K) = [g k].
Proof.
  induction 1 as [|k0 K Hnotin Hnd IH]; intros Hin; [contradiction|].
  unfold group. simpl. fold (group k (map g K)).
  destruct (ufi_is k (g k0)) eqn:E.
  - apply ufi_is_true in E. rewrite g_ufi in E. injection E as ->.
    rewrite (group_absent k K Hnotin). reflexivity.
  - destruct Hin as [->|Hin]; [|apply IH, Hin].
    exfalso. apply Bool.not_true_iff_false in E. apply E.
    apply ufi_is_true, g_ufi.
Qed.

Lemma map_sorted_by_ufi (s : script) (K : list Z) :
  StronglySorted Z.lt K ->
  StronglySorted (fun a b => leb_of (sort_cmp s) a b = true) (map g K).
Proof.
  induction 1 as [|k K Hs IH Hk]; simpl; constructor; [exact IH|].
  rewrite Forall_forall in *. intros x Hx.
  apply in_map_iff in Hx. destruct Hx as (k' & <- & Hk').
  unfold leb_of, sort_cmp, lex, on. rewrite !g_ufi. simpl.
  pose proof (Hk k' Hk') as Hlt. apply Z.compare_lt_iff in Hlt. rewrite Hlt. reflexivity.
Qed.

(** A frame with one row for each key, in ascending order of the keys,
    whose rows pass the filters, is left as it is. *)
Lemma dedup_fixed (s : script) (K : list Z) :
  StronglySorted Z.lt K ->
  (forall k, In k K -> survives s (g k) = true) ->
  admin_deduplicated s (map g K) = map g K.
Proof.
  intros HK Hs.
  assert (Hnd : NoDup K).
  { clear Hs. induction HK as [|k K HK' IH Hk]; constructor; [|exact IH].
    rewrite Forall_forall in Hk. intros Hin. pose proof (Hk k Hin). lia. }
  unfold admin_deduplicated.
  assert (E1 : admin_filtered s (map g K) = map g K).
  { rewrite admin_filtered_survives. apply filter_all.
    intros x Hx. apply in_map_iff in Hx. destruct Hx as (k & <- & Hk). apply Hs, Hk. }
  rewrite E1.
  assert (E2 : sort_values s (map g K) = map g K)
    by (apply sort_of_sorted, map_sorted_by_ufi, HK).
  rewrite E2. unfold groupby_first.
  assert (E3 : group_keys (map g K) = K).
  { unfold group_keys. rewrite ufi_values_map, (nodup_fixed_point Z.eq_dec Hnd).
    apply sort_of_sorted.
    clear Hs Hnd E1 E2. induction HK as [|k K HK' IH Hk]; constructor; [exact IH|].
    rewrite Forall_forall in *. intros x Hx. apply Z.leb_le.
    pose proof (Hk x Hx). lia. }
  rewrite E3. apply map_ext_in. intros k Hk.
  rewrite (group_present k K Hnd Hk). apply first_single, g_ufi.
Qed.

End TwiceFacts.

(** X9.  Deduplicating a deduplicated frame changes nothing: run on its own
    result, the filtering, sorting and grouping return that result, row for
    row, and so the same output frame. *)
Theorem dedup_idempotent
    (R : Runtime) (s : script) (countries_df : list CountryCodes.row)
    (admin_df : list admin_row) :
  admin_deduplicated s (admin_deduplicated s admin_df) = admin_deduplicated s admin_df /\
  output_df s countries_df (admin_deduplicated s admin_df)
  = output_df s countries_df admin_df.
Proof.
  assert (E : admin_deduplicated s (admin_deduplicated s admin_df)
              = admin_deduplicated s admin_df).
  { set (F := sort_values s (admin_filtered s admin_df)).
    set (g := fun k => first k (group k F)).
    assert (ED : admin_deduplicated s admin_df = map g (group_keys F)) by reflexivity.
    rewrite ED. apply dedup_fixed.
    - intros k. reflexivity.
    - apply group_keys_strict.
    - intros k Hk. apply (dedup_survives s admin_df). rewrite ED.
      apply in_map, Hk. }
  split; [exact E|]. unfold output_df. rewrite E. reflexivity.
Qed.

(* ================================================================== *)
(** * What the country summary counts *)

Lemma sum_indicator_dec {B : Type} (dec : forall x y : B, {x = y} + {x <> y})
    (x : B) (I : list B) :
  NoDup I -> In x I ->
  sum (map (fun i => if dec x i then 1%Z else 0%Z) I) = 1%Z.
Proof.
  induction 1 as [|c I Hc Hnd IH]; intros Hin; [contradiction|].
  cbn [map]. change (((if dec x c then 1 else 0)
                      + sum (map (fun i => if dec x i then 1%Z else 0%Z) I))%Z = 1%Z).
  destruct (dec x c) as [->|Hne].
  - rewrite sum_map_zero; [reflexivity|].
    intros y Hy. destruct (dec c y) as [->|]; [contradiction|reflexivity].
  - destruct Hin as [->|Hin]; [contradiction|]. rewrite (IH Hin). reflexivity.
Qed.

(** Counting the rows key by key, over distinct keys that cover them,
    counts every row once. *)
Lemma sum_partition_count {A B : Type} (dec : forall x y : B, {x = y} + {x <> y})
    (f : A -> B) (I : list B) (l : list A) :
  NoDup I ->
  (forall x, In x l -> In (f x) I) ->
  sum (map (fun i => Z.of_nat
                       (List.length (filter (fun x => if dec (f x) i then true else false) l)))
         I)
  = Z.of_nat (List.length l).
Proof.
  intros Hnd. induction l as [|a l IH]; intros Hcov.
  - cbn [filter List.length]. apply sum_map_zero. reflexivity.
  - assert (IH' := IH (fun x Hx => Hcov x (or_intror Hx))). clear IH.
    assert (Ha : In (f a) I) by (apply Hcov; left; reflexivity).
    transitivity
      (sum (map (fun i => ((if dec (f a) i then 1 else 0)
                           + Z.of_nat
                               (List.length
                                  (filter (fun x => if dec (f x) i then true else false) l)))%Z)
              I)).
    + f_equal. apply map_ext. intros i. cbn [filter].
      destruct (dec (f a) i); cbn [List.length]; lia.
    + rewrite sum_map_add, IH', (sum_indicator_dec dec (f a) I Hnd Ha).
      cbn [List.length]. lia.
Qed.

Lemma summary_keys_length (out : list division) :
  List.length (summary_keys out) = List.length (filter summary_row out).
Proof.
  induction out as [|d out IH]; [reflexivity|].
  change (summary_keys (d :: out))
    with (match Country_Code d, Country_Name d, Administrative_Level d with
          | Some c, Some n, Some l => [((c, n), l)]
          | _, _, _ => []
          end ++ summary_keys out).
  rewrite length_app. cbn [filter]. unfold summary_row at 1.
  destruct (Country_Code d), (Country_Name d), (Administrative_Level d);
    cbn [notna andb List.length Nat.add];
    first [exact IH | f_equal; exact IH].
Qed.

Lemma summary_keys_In (out : list division) (c n l : string) :
  In ((c, n), l) (summary_keys out)
  <-> exists d, In d out /\ Country_Code d = Some c /\ Country_Name d = Some n /\
                Administrative_Level d = Some l.
Proof.
  unfold summary_keys. rewrite in_flat_map. split.
  - intros (d & Hd & H). exists d. split; [exact Hd|].
    destruct (Country_Code d), (Country_Name d), (Administrative_Level d);
      try contradiction.
    destruct H as [H|[]]. injection H as -> -> ->. repeat split.
  - intros (d & Hd & Hc & Hn & Hl). exists d. split; [exact Hd|].
    rewrite Hc, Hn, Hl. left. reflexivity.
Qed.

Lemma pivot_index_In (out : list division) (i : string * string) :
  In i (pivot_index (country_summary out))
  <-> exists l, In (i, l) (summary_keys out).
Proof.
  unfold pivot_index. rewrite sort_In, nodup_In.
  unfold country_summary. rewrite map_map. cbn [fst].
  rewrite in_map_iff. split.
  - intros ([i' l] & <- & H). apply sort_In, nodup_In in H. exists l. exact H.
  - intros (l & H). exists (i, l). split; [reflexivity|]. apply sort_In, nodup_In, H.
Qed.

Lemma country_pivot_index (out : list division) :
  map index (country_pivot out) = pivot_index (country_summary out).
Proof. unfold country_pivot. rewrite map_map. cbn [index]. apply map_id. Qed.

Lemma In_length_pos {A : Type} (x : A) (l : list A) : In x l -> (0 < List.length l)%nat.
Proof. destruct l; simpl; [contradiction|lia]. Qed.

(** X10.  The country summary has one row for each pair of country code
    and name that some output row carries together with a level; its
    Totals are positive and add up to the number of output rows in which
    the code, the name and the level are all present.  A division whose
    country columns are empty is counted in no row. *)
Theorem country_summary_counts_rows_with_country (out : list division) :
  sum (map Total (country_pivot out)) = Z.of_nat (List.length (filter summary_row out)) /\
  NoDup (map index (country_pivot out)) /\
  (forall row, In row (country_pivot out) -> (0 < Total row)%Z) /\
  (forall c n,
     In (c, n) (map index (country_pivot out))
     <-> exists d, In d out /\ Country_Code d = Some c /\ Country_Name d = Some n /\
                   Administrative_Level d <> None).
Proof.
  assert (Hnd : NoDup (pivot_index (country_summary out))).
  { unfold pivot_index. eapply Permutation_NoDup; [apply sort_perm|]. apply NoDup_nodup. }
  split; [|split; [|split]].
  - rewrite <- summary_keys_length.
    assert (Hcov : forall k : summary_key,
               In k (summary_keys out) -> In (fst k) (pivot_index (country_summary out))).
    { intros [i l] Hk. apply pivot_index_In. exists l. exact Hk. }
    etransitivity;
      [|exact (sum_partition_count pair_eq_dec fst (pivot_index (country_summary out))
                 (summary_keys out) Hnd Hcov)].
    rewrite <- country_pivot_index, map_map. f_equal. apply map_ext_in.
    intros row Hrow. exact (proj2 (country_pivot_totals out row Hrow)).
  - rewrite country_pivot_index. exact Hnd.
  - intros row Hrow.
    rewrite (proj2 (country_pivot_totals out row Hrow)). unfold country_rows_count.
    assert (Hi : In (index row) (pivot_index (country_summary out))).
    { rewrite <- country_pivot_index. apply in_map, Hrow. }
    apply pivot_index_In in Hi. destruct Hi as (l & Hl).
    assert (Hin : In (index row, l)
                    (filter (fun k => if pair_eq_dec (fst k) (index row) then true else false)
                       (summary_keys out))).
    { apply filter_In. split; [exact Hl|]. cbn [fst].
      destruct (pair_eq_dec (index row) (index row)); [reflexivity|contradiction]. }
    apply (proj1 (Nat2Z.inj_lt 0 _)). exact (In_length_pos _ _ Hin).
  - intros c n. rewrite country_pivot_index, pivot_index_In. split.
    + intros (l & H). apply summary_keys_In in H. destruct H as (d & Hd & Hc & Hn & Hl).
      exists d. repeat split; try assumption. congruence.
    + intros (d & Hd & Hc & Hn & Hl).
      destruct (Administrative_Level d) as [l|] eqn:E; [|contradiction].
      exists l. apply summary_keys_In. exists d. repeat split; assumption.
Qed.

(** With an empty reference the output keeps its division and the summary
    has no row. *)
Example unmatched_division_in_no_summary_row :
  forall s,
    List.length (@output_df ascii_runtime s [] [Examples.approved_row]) = 1%nat /\
    country_pivot (@output_df ascii_runtime s [] [Examples.approved_row]) = [].
Proof. intros []; split; vm_compute; reflexivity. Qed.

Lemma StronglySorted_app_le {A : Type} (Rel : A -> A -> Prop) (l1 l2 : list A) :
  StronglySorted Rel (l1 ++ l2) ->
  forall a b, In a l1 -> In b l2 -> Rel a b.
Proof.
  induction l1 as [|x l1 IH]; simpl; intros H a b Ha Hb; [contradiction|].
  inversion H as [|? ? Hs Hx]; subst. destruct Ha as [->|Ha].
  - rewrite Forall_forall in Hx. apply Hx, in_or_app. right. exact Hb.
  - exact (IH Hs a b Ha Hb).
Qed.

(** X11.  The sheet of the top countries holds the first thirty rows of the
    sorted summary, all of them when there are no more than thirty, and
    no country left out has a larger Total than a country on the sheet. *)
Theorem top_countries_are_largest (pivot sorted : list pivot_row) :
  sort_values_Total_desc pivot sorted ->
  (List.length (top_countries sorted) <= 30)%nat /\
  sorted = top_countries sorted ++ skipn 30 sorted /\
  (forall a b, In a (top_countries sorted) -> In b (skipn 30 sorted) ->
               (Total b <= Total a)%Z) /\
  ((List.length pivot <= 30)%nat -> Permutation pivot (top_countries sorted)).
Proof.
  intros [Hperm Hsorted]. unfold top_countries.
  split; [apply firstn_le_length|]. split; [symmetry; apply firstn_skipn|]. split.
  - intros a b Ha Hb. rewrite <- (firstn_skipn 30 sorted) in Hsorted.
    exact (StronglySorted_app_le _ _ _ Hsorted a b Ha Hb).
  - intros Hlen. rewrite firstn_all2; [exact Hperm|].
    rewrite <- (Permutation_length Hperm). exact Hlen.
Qed.

Lemma top_countries_are_largest_witness :
  sort_values_Total_desc (country_pivot Examples.two_countries)
    [Examples.germany_total; Examples.france_total] /\
  [Examples.germany_total; Examples.france_total]
  = top_countries [Examples.germany_total; Examples.france_total]
    ++ skipn 30 [Examples.germany_total; Examples.france_total].
Proof.
  assert (H : sort_values_Total_desc (country_pivot Examples.two_countries)
                [Examples.germany_total; Examples.france_total]).
  { rewrite two_countries_pivot. split; [apply Permutation_refl|].
    repeat constructor; simpl; lia. }
  split; [exact H|].
  exact (proj1 (proj2 (top_countries_are_largest (country_pivot Examples.two_countries)
                         [Examples.germany_total; Examples.france_total] H))).
Defined.

(* ================================================================== *)
(** * The query tool, beyond the country code *)

Lemma is_empty_true {A : Type} (l : list A) :
  QuerySubdivisions.is_empty l = true <-> l = [].
Proof. destruct l; simpl; split; congruence. Qed.

Lemma filter_nil_all {A : Type} (p : A -> bool) (l : list A) :
  filter p l = [] -> forall x, In x l -> p x = false.
Proof.
  intros E x Hx. destruct (p x) eqn:Px; [|reflexivity].
  assert (H : In x (filter p l)) by (apply filter_In; split; assumption).
  rewrite E in H. contradiction.
Qed.

(** X12.  [search_country] returns rows of the frame, in the order of the
    frame, and each of them matches the query: by its country code, or by
    the pattern in its short name or in its full name.  It returns no row
    only when the pattern compiles and no row of the frame matches in any
    of the three columns. *)
Theorem search_country_sound_and_complete
    (R : Runtime) (df : list QuerySubdivisions.row) (query : string)
    (rows : list QuerySubdivisions.row) :
  QuerySubdivisions.search_country df query = Some rows ->
  (exists p, rows = filter p df) /\
  (forall x, In x rows ->
     In x df /\
     (QuerySubdivisions.Country_Code x = Some (upper query) \/
      exists matcher,
        re_compile (upper query) = Some matcher /\
        (QuerySubdivisions.contains matcher (QuerySubdivisions.Country_Short_Name x) = true \/
         QuerySubdivisions.contains matcher (QuerySubdivisions.Country_Full_Name x) = true))) /\
  (rows = [] ->
     exists matcher,
       re_compile (upper query) = Some matcher /\
       forall x, In x df ->
         QuerySubdivisions.Country_Code x <> Some (upper query) /\
         QuerySubdivisions.contains matcher (QuerySubdivisions.Country_Short_Name x) = false /\
         QuerySubdivisions.contains matcher (QuerySubdivisions.Country_Full_Name x) = false).
Proof.
  unfold QuerySubdivisions.search_country.
  set (by_code := fun r => opt_eqb String.eqb (QuerySubdivisions.Country_Code r)
                             (Some (upper query))).
  destruct (filter by_code df) as [|y ys] eqn:Ec; cbn [QuerySubdivisions.is_empty negb].
  - destruct (re_compile (upper query)) as [matcher|] eqn:Em; [|discriminate].
    set (by_short := fun r => QuerySubdivisions.contains matcher
                                (QuerySubdivisions.Country_Short_Name r)).
    set (by_full := fun r => QuerySubdivisions.contains matcher
                               (QuerySubdivisions.Country_Full_Name r)).
    assert (Hno_code : forall x, In x df ->
                                 QuerySubdivisions.Country_Code x <> Some (upper query)).
    { intros x Hx E. pose proof (filter_nil_all by_code df Ec x Hx) as H.
      unfold by_code in H. rewrite E in H.
      assert (opt_eqb String.eqb (Some (upper query)) (Some (upper query)) = true)
        by (apply opt_string_eqb_eq; reflexivity).
      congruence. }
    destruct (filter by_short df) as [|s1 ss] eqn:Es; cbn [QuerySubdivisions.is_empty negb].
    + destruct (filter by_full df) as [|f1 fs] eqn:Ef; cbn [QuerySubdivisions.is_empty negb];
        intros H; injection H as <-.
      * split; [exists by_full; symmetry; exact Ef|]. split; [intros x []|].
        intros _. exists matcher. split; [reflexivity|]. intros x Hx.
        split; [apply Hno_code, Hx|]. split.
        -- exact (filter_nil_all by_short df Es x Hx).
        -- exact (filter_nil_all by_full df Ef x Hx).
      * split; [exists by_full; symmetry; exact Ef|]. split; [|discriminate].
        intros x Hx. rewrite <- Ef in Hx. apply filter_In in Hx. destruct Hx as [Hx Hp].
        split; [exact Hx|]. right. exists matcher. split; [reflexivity|]. right. exact Hp.
    + intros H. injection H as <-.
      split; [exists by_short; symmetry; exact Es|]. split; [|discriminate].
      intros x Hx. rewrite <- Es in Hx. apply filter_In in Hx. destruct Hx as [Hx Hp].
      split; [exact Hx|]. right. exists matcher. split; [reflexivity|]. left. exact Hp.
  - intros H. injection H as <-.
    split; [exists by_code; symmetry; exact Ec|]. split; [|discriminate].
    intros x Hx. rewrite <- Ec in Hx. apply filter_In in Hx. destruct Hx as [Hx Hp].
    split; [exact Hx|]. left. apply opt_string_eqb_eq. exact Hp.
Qed.

Lemma search_country_sound_and_complete_witness :
  @QuerySubdivisions.search_country ascii_runtime
    [Examples.jakarta; Examples.goa] "indo" = Some [Examples.jakarta] /\
  forall x, In x [Examples.jakarta] -> In x [Examples.jakarta; Examples.goa].
Proof.
  assert (H : @QuerySubdivisions.search_country ascii_runtime
                [Examples.jakarta; Examples.goa] "indo" = Some [Examples.jakarta])
    by (vm_compute; reflexivity).
  split; [exact H|].
  intros x Hx.
  exact (proj1 (proj1 (proj2 (search_country_sound_and_complete ascii_runtime
                                [Examples.jakarta; Examples.goa] "indo"
                                [Examples.jakarta] H)) x Hx)).
Defined.

(** X13.  [search_country] raises in one case only: no row carries the
    upper-cased query as its country code and the query is no pattern that
    compiles. *)
Theorem search_country_raises_only_on_bad_pattern
    (R : Runtime) (df : list QuerySubdivisions.row) (query : string) :
  QuerySubdivisions.search_country df query = None
  <-> (forall x, In x df -> QuerySubdivisions.Country_Code x <> Some (upper query)) /\
      re_compile (upper query) = None.
Proof.
  unfold QuerySubdivisions.search_country.
  set (by_code := fun r => opt_eqb String.eqb (QuerySubdivisions.Country_Code r)
                             (Some (upper query))).
  destruct (filter by_code df) as [|y ys] eqn:Ec; cbn [QuerySubdivisions.is_empty negb].
  - assert (Hno_code : forall x, In x df ->
                                 QuerySubdivisions.Country_Code x <> Some (upper query)).
    { intros x Hx E. pose proof (filter_nil_all by_code df Ec x Hx) as H.
      unfold by_code in H. rewrite E in H.
      assert (opt_eqb String.eqb (Some (upper query)) (Some (upper query)) = true)
        by (apply opt_string_eqb_eq; reflexivity).
      congruence. }
    destruct (re_compile (upper query)) as [matcher|].
    + split; [|intros [_ H]; discriminate H].
      destruct (filter (fun r => QuerySubdivisions.contains matcher
                                   (QuerySubdivisions.Country_Short_Name r)) df);
        cbn [QuerySubdivisions.is_empty negb]; [|discriminate].
      destruct (filter (fun r => QuerySubdivisions.contains matcher
                                   (QuerySubdivisions.Country_Full_Name r)) df);
        cbn [QuerySubdivisions.is_empty negb]; discriminate.
    + split; [intros _; split; [exact Hno_code|reflexivity]|reflexivity].
  - split; [discriminate|]. intros [H _]. exfalso.
    assert (Hy : In y (filter by_code df)) by (rewrite Ec; left; reflexivity).
    apply filter_In in Hy. destruct Hy as [Hy Hp].
    apply (H y Hy). apply opt_string_eqb_eq. exact Hp.
Qed.

(* ================================================================== *)
(** * Running the splitter again *)

Section SplitAgainFacts.

Import SplitByCountry.

Context {R : Runtime}.

(** The file named after a country of the loop ends with the rows of the
    last such country, whatever the directory held. *)
Lemma export_last_writer (df : list division) (cs : list (option string)) (p : string) :
  (exists c, In (Some c) cs /\ output_file c = p) ->
  exists c0, In (Some c0) cs /\ output_file c0 = p /\
             forall fs, fold_left (export_country df) cs fs p = Some (country_df df c0).
Proof.
  induction cs as [|x cs IH]; intros (c & Hc & Hp); [contradiction|].
  destruct (existsb (writes_to p) cs) eqn:E.
  - apply existsb_exists in E. destruct E as ([c1|] & Hc1 & Hw); [|discriminate].
    apply String.eqb_eq in Hw.
    destruct IH as (c0 & Hc0 & Hp0 & Hfs); [exists c1; split; assumption|].
    exists c0. split; [right; exact Hc0|]. split; [exact Hp0|].
    intros fs. simpl. apply Hfs.
  - assert (Hnone : forall c', In (Some c') cs -> output_file c' <> p).
    { intros c' Hc' Hp'. apply Bool.not_true_iff_false in E. apply E.
      apply existsb_exists. exists (Some c'). split; [exact Hc'|].
      simpl. apply String.eqb_eq. exact Hp'. }
    destruct Hc as [->|Hc]; [|exfalso; exact (Hnone c Hc Hp)].
    exists c. split; [left; reflexivity|]. split; [exact Hp|].
    intros fs. simpl. rewrite (export_untouched df cs _ p Hnone).
    rewrite <- Hp. apply to_excel_same.
Qed.

End SplitAgainFacts.

(** X14.  Running the splitter a second time leaves every file as the first
    run left it.  A file named after a country of the frame ends with the
    rows of one country of that file name, at least one row, whatever the
    directory held before the run. *)
Theorem split_rerun_changes_nothing
    (R : Runtime) (df : list division) (p : string) :
  (forall fs,
     SplitByCountry.split_data_by_country df
       (SplitByCountry.split_data_by_country df fs) p
     = SplitByCountry.split_data_by_country df fs p) /\
  ((exists c, In (Some c) (map Country_Name df) /\ SplitByCountry.output_file c = p) ->
   exists c0,
     In (Some c0) (map Country_Name df) /\
     SplitByCountry.output_file c0 = p /\
     SplitByCountry.country_df df c0 <> [] /\
     forall fs, SplitByCountry.split_data_by_country df fs p
                = Some (SplitByCountry.country_df df c0)).
Proof.
  assert (Hwritten :
            (exists c, In (Some c) (map Country_Name df) /\ SplitByCountry.output_file c = p) ->
            exists c0,
              In (Some c0) (map Country_Name df) /\
              SplitByCountry.output_file c0 = p /\
              SplitByCountry.country_df df c0 <> [] /\
              forall fs, SplitByCountry.split_data_by_country df fs p
                         = Some (SplitByCountry.country_df df c0)).
  { intros (c & Hc & Hp).
    destruct (export_last_writer df (SplitByCountry.unique (map Country_Name df)) p)
      as (c0 & Hc0 & Hp0 & Hfs).
    - exists c. split; [apply (proj2 (unique_In _ _)), Hc|exact Hp].
    - apply (proj1 (unique_In _ _)) in Hc0.
      exists c0. split; [exact Hc0|]. split; [exact Hp0|]. split; [|exact Hfs].
      apply in_map_iff in Hc0. destruct Hc0 as (d & Hd & Hin).
      intros E.
      assert (H : In d (SplitByCountry.country_df df c0))
        by (apply country_df_In; split; assumption).
      rewrite E in H. exact H. }
  split; [|exact Hwritten].
  intros fs.
  destruct (existsb (writes_to p) (map Country_Name df)) eqn:E.
  - apply existsb_exists in E. destruct E as ([c|] & Hc & Hw); [|discriminate].
    apply String.eqb_eq in Hw.
    destruct Hwritten as (c0 & _ & _ & _ & Hfs); [exists c; split; assumption|].
    rewrite !Hfs. reflexivity.
  - unfold SplitByCountry.split_data_by_country at 1. apply export_untouched.
    intros c Hc Hp. apply (proj1 (unique_In _ _)) in Hc.
    apply Bool.not_true_iff_false in E. apply E.
    apply existsb_exists. exists (Some c). split; [exact Hc|].
    simpl. apply String.eqb_eq. exact Hp.
Qed.

(* ================================================================== *)
(** * Loading the frame of the query tool *)

Lemma map_filter_comp {A B : Type} (f : A -> B) (p : B -> bool) (l : list A) :
  map f (filter (fun x => p (f x)) l) = filter p (map f l).
Proof.
  induction l as [|x l IH]; simpl; [reflexivity|].
  destruct (p (f x)); simpl; rewrite IH; reflexivity.
Qed.

Lemma subdivision_of_merged (s : LoadData.adm1_row) (short full : option string) :
  LoadData.subdivision_of (LoadData.merged_row s short full) = s.
Proof. destruct s. reflexivity. Qed.

Lemma code_match_spec (s : LoadData.adm1_row) (c : CountryCodes.row) :
  LoadData.code_match s c = true
  <-> CountryCodes.Country_Code c = LoadData.Country_Code s.
Proof. unfold LoadData.code_match. rewrite opt_string_eqb_eq. split; congruence. Qed.

(** With distinct codes in the reference, at most one row matches. *)
Lemma code_match_at_most_one (s : LoadData.adm1_row) (countries_df : list CountryCodes.row) :
  NoDup (map CountryCodes.Country_Code countries_df) ->
  filter (LoadData.code_match s) countries_df = []
  \/ exists c, filter (LoadData.code_match s) countries_df = [c].
Proof.
  induction countries_df as [|c cs IH]; simpl; intros Hnd; [left; reflexivity|].
  inversion Hnd as [|? ? Hnotin Hnd']; subst.
  destruct (LoadData.code_match s c) eqn:E.
  - right. exists c. f_equal. apply code_match_spec in E.
    clear IH Hnd Hnd'. induction cs as [|c' cs IH]; simpl; [reflexivity|].
    destruct (LoadData.code_match s c') eqn:E'.
    + exfalso. apply Hnotin. apply code_match_spec in E'. simpl. left. congruence.
    + apply IH. intros Hin. apply Hnotin. simpl. right. exact Hin.
  - apply IH, Hnd'.
Qed.

(** X15.  [load_data] keeps every subdivision of [ADM1_Codes.csv] and adds
    none: each merged row is a subdivision of the file with the names of
    a country of its code, or with empty names when the reference has no
    such country.  When the codes of the reference are pairwise distinct
    the merged frame has the subdivisions of the file, one row each, in
    the order of the file. *)
Theorem load_data_keeps_every_subdivision
    (subdivisions_df : list LoadData.adm1_row) (countries_df : list CountryCodes.row) :
  (forall s, In s (map LoadData.subdivision_of
                     (LoadData.load_data subdivisions_df countries_df))
             <-> In s subdivisions_df) /\
  (forall r, In r (LoadData.load_data subdivisions_df countries_df) ->
     (exists c, In c countries_df /\
                CountryCodes.Country_Code c = QuerySubdivisions.Country_Code r /\
                QuerySubdivisions.Country_Short_Name r = CountryCodes.Short_Name c /\
                QuerySubdivisions.Country_Full_Name r = CountryCodes.Full_Name c)
     \/ ((forall c, In c countries_df ->
                    CountryCodes.Country_Code c <> QuerySubdivisions.Country_Code r) /\
         QuerySubdivisions.Country_Short_Name r = None /\
         QuerySubdivisions.Country_Full_Name r = None)) /\
  (NoDup (map CountryCodes.Country_Code countries_df) ->
   map LoadData.subdivision_of (LoadData.load_data subdivisions_df countries_df)
   = subdivisions_df).
Proof.
  split; [|split].
  - intros s. unfold LoadData.load_data. rewrite in_map_iff. split.
    + intros (r & <- & Hr). apply in_flat_map in Hr. destruct Hr as (s0 & Hs0 & Hr).
      destruct (filter (LoadData.code_match s0) countries_df) as [|c cs].
      * destruct Hr as [<-|[]]. rewrite subdivision_of_merged. exact Hs0.
      * apply in_map_iff in Hr. destruct Hr as (c' & <- & _).
        rewrite subdivision_of_merged. exact Hs0.
    + intros Hs.
      destruct (filter (LoadData.code_match s) countries_df) as [|c cs] eqn:E.
      * exists (LoadData.merged_row s None None).
        split; [apply subdivision_of_merged|].
        apply in_flat_map. exists s. split; [exact Hs|]. rewrite E. left. reflexivity.
      * exists (LoadData.merged_row s (CountryCodes.Short_Name c) (CountryCodes.Full_Name c)).
        split; [apply subdivision_of_merged|].
        apply in_flat_map. exists s. split; [exact Hs|]. rewrite E. left. reflexivity.
  - intros r Hr. unfold LoadData.load_data in Hr. apply in_flat_map in Hr.
    destruct Hr as (s & Hs & Hr).
    destruct (filter (LoadData.code_match s) countries_df) as [|c cs] eqn:E.
    + destruct Hr as [<-|[]]. right. split; [|split; reflexivity].
      intros c Hc Hcode. pose proof (filter_nil_all _ _ E c Hc) as H.
      assert (H' : LoadData.code_match s c = true) by (apply code_match_spec; exact Hcode).
      congruence.
    + left. apply in_map_iff in Hr. destruct Hr as (c' & <- & Hc').
      rewrite <- E in Hc'. apply filter_In in Hc'. destruct Hc' as [Hc' Hm].
      exists c'. split; [exact Hc'|]. split; [|split; reflexivity].
      apply code_match_spec. exact Hm.
  - intros Hnd. unfold LoadData.load_data.
    induction subdivisions_df as [|s subs IH]; [reflexivity|].
    cbn [flat_map]. rewrite map_app, IH. clear IH.
    destruct (code_match_at_most_one s countries_df Hnd) as [->|(c & ->)];
      cbn [map app]; rewrite subdivision_of_merged; reflexivity.
Qed.

Lemma load_data_keeps_every_subdivision_witness :
  NoDup (map CountryCodes.Country_Code [Examples2.india; Examples2.indonesia]) /\
  LoadData.load_data [Examples2.jakarta_code; Examples2.goa_code]
    [Examples2.india; Examples2.indonesia]
  = [Examples.jakarta; Examples.goa] /\
  map LoadData.subdivision_of
    (LoadData.load_data [Examples2.jakarta_code; Examples2.goa_code]
       [Examples2.india; Examples2.indonesia])
  = [Examples2.jakarta_code; Examples2.goa_code].
Proof.
  assert (H : NoDup (map CountryCodes.Country_Code [Examples2.india; Examples2.indonesia])).
  { simpl. constructor.
    - simpl. intros [E|[]]. discriminate E.
    - constructor; [intros []|constructor]. }
  split; [exact H|]. split; [reflexivity|].
  exact (proj2 (proj2 (load_data_keeps_every_subdivision
                         [Examples2.jakarta_code; Examples2.goa_code]
                         [Examples2.india; Examples2.indonesia])) H).
Defined.

(** X16.  Asked for a country code that some subdivision of the file
    carries, the tool answers, on the frame it loads from a reference of
    pairwise distinct codes, with the subdivisions of that code, all of
    them and each once, in the order of the file. *)
Theorem search_by_code_lists_subdivisions
    (R : Runtime) (subdivisions_df : list LoadData.adm1_row)
    (countries_df : list CountryCodes.row) (query : string) (s : LoadData.adm1_row) :
  NoDup (map CountryCodes.Country_Code countries_df) ->
  In s subdivisions_df ->
  LoadData.Country_Code s = Some (upper query) ->
  exists rows,
    QuerySubdivisions.search_country
      (LoadData.load_data subdivisions_df countries_df) query = Some rows /\
    map LoadData.subdivision_of rows
    = filter (fun x => opt_eqb String.eqb (LoadData.Country_Code x) (Some (upper query)))
        subdivisions_df.
Proof.
  intros Hnd Hs Hcode.
  set (L := LoadData.load_data subdivisions_df countries_df).
  set (by_code := fun x => opt_eqb String.eqb (LoadData.Country_Code x)
                             (Some (upper query))).
  pose proof (load_data_keeps_every_subdivision subdivisions_df countries_df)
    as (Hin & _ & Hmap).
  specialize (Hmap Hnd). fold L in Hin, Hmap.
  exists (filter (fun r => by_code (LoadData.subdivision_of r)) L). split.
  - unfold QuerySubdivisions.search_country. fold L.
    change (filter (fun r => opt_eqb String.eqb (QuerySubdivisions.Country_Code r)
                               (Some (upper query))) L)
      with (filter (fun r => by_code (LoadData.subdivision_of r)) L).
    destruct (filter (fun r => by_code (LoadData.subdivision_of r)) L) as [|y ys] eqn:E;
      [|reflexivity].
    exfalso. apply (proj2 (Hin s)) in Hs. apply in_map_iff in Hs.
    destruct Hs as (r & Er & Hr).
    pose proof (filter_nil_all _ _ E r Hr) as H. cbv beta in H. rewrite Er in H.
    unfold by_code in H. rewrite Hcode in H.
    assert (opt_eqb String.eqb (Some (upper query)) (Some (upper query)) = true)
      by (apply opt_string_eqb_eq; reflexivity).
    congruence.
  - rewrite map_filter_comp, Hmap. reflexivity.
Qed.

Lemma search_by_code_lists_subdivisions_witness :
  NoDup (map CountryCodes.Country_Code [Examples2.india; Examples2.indonesia]) /\
  exists rows,
    @QuerySubdivisions.search_country ascii_runtime
      (LoadData.load_data [Examples2.jakarta_code; Examples2.goa_code]
         [Examples2.india; Examples2.indonesia]) "ind" = Some rows /\
    map LoadData.subdivision_of rows = [Examples2.goa_code].
Proof.
  assert (H : NoDup (map CountryCodes.Country_Code [Examples2.india; Examples2.indonesia])).
  { simpl. constructor.
    - simpl. intros [E|[]]. discriminate E.
    - constructor; [intros []|constructor]. }
  split; [exact H|].
  apply (search_by_code_lists_subdivisions ascii_runtime
           [Examples2.jakarta_code; Examples2.goa_code]
           [Examples2.india; Examples2.indonesia] "ind" Examples2.goa_code H).
  - right. left. reflexivity.
  - reflexivity.
Defined.

(* ================================================================== *)
(** * The quicksort of numpy sorts *)

Module NumpyFacts.

Import Numpy.

Local Open Scope nat_scope.

Lemma length_set (a : list nat) (p x : nat) :
  List.length (set a p x) = List.length a.
Proof.
  revert p. induction a as [|y a IH]; intros [|p]; simpl; try reflexivity.
  rewrite IH. reflexivity.
Qed.

Lemma get_set_same (a : list nat) (p x : nat) :
  p < List.length a -> get (set a p x) p = x.
Proof.
  unfold get. revert p. induction a as [|y a IH]; intros [|p]; simpl; intros H;
    try lia; try reflexivity.
  apply IH. lia.
Qed.

Lemma get_set_other (a : list nat) (p q x : nat) :
  p <> q -> get (set a p x) q = get a q.
Proof.
  unfold get. revert p q. induction a as [|y a IH]; intros [|p] [|q]; simpl; intros H;
    try reflexivity; try lia.
  apply IH. lia.
Qed.

Lemma set_get_same (a : list nat) (p : nat) :
  set a p (get a p) = a.
Proof.
  unfold get. revert p. induction a as [|y a IH]; intros [|p]; simpl; try reflexivity.
  rewrite IH. reflexivity.
Qed.

(** Writing one entry changes the count of a value by what goes in and
    what goes out. *)
Lemma count_set (a : list nat) (p x z : nat) :
  p < List.length a ->
  count_occ Nat.eq_dec (set a p x) z + (if Nat.eq_dec (get a p) z then 1 else 0)
  = count_occ Nat.eq_dec a z + (if Nat.eq_dec x z then 1 else 0).
Proof.
  unfold get. revert p. induction a as [|y a IH]; intros [|p]; simpl; intros H; try lia.
  - destruct (Nat.eq_dec x z), (Nat.eq_dec y z); lia.
  - specialize (IH p ltac:(lia)).
    destruct (Nat.eq_dec y z); lia.
Qed.

Lemma length_INTP_SWAP (a : list nat) (p q : nat) :
  List.length (INTP_SWAP a p q) = List.length a.
Proof. unfold INTP_SWAP. rewrite !length_set. reflexivity. Qed.

Lemma get_INTP_SWAP_l (a : list nat) (p q : nat) :
  p < List.length a -> q < List.length a -> get (INTP_SWAP a p q) p = get a q.
Proof.
  intros Hp Hq. unfold INTP_SWAP.
  destruct (Nat.eq_dec p q) as [E|E].
  - subst q. rewrite get_set_same; [reflexivity|]. rewrite length_set. exact Hp.
  - rewrite get_set_other by congruence. apply get_set_same, Hp.
Qed.

Lemma get_INTP_SWAP_r (a : list nat) (p q : nat) :
  p < List.length a -> q < List.length a -> get (INTP_SWAP a p q) q = get a p.
Proof.
  intros Hp Hq. unfold INTP_SWAP.
  apply get_set_same. rewrite length_set. exact Hq.
Qed.

Lemma get_INTP_SWAP_other (a : list nat) (p q k : nat) :
  k <> p -> k <> q -> get (INTP_SWAP a p q) k = get a k.
Proof.
  intros Hp Hq. unfold INTP_SWAP.
  rewrite !get_set_other by congruence. reflexivity.
Qed.

Lemma INTP_SWAP_perm (a : list nat) (p q : nat) :
  p < List.length a -> q < List.length a -> Permutation a (INTP_SWAP a p q).
Proof.
  intros Hp Hq. apply (Permutation_count_occ Nat.eq_dec). intros z.
  unfold INTP_SWAP.
  pose proof (count_set a p (get a q) z Hp) as H1.
  pose proof (count_set (set a p (get a q)) q (get a p) z
                ltac:(rewrite length_set; exact Hq)) as H2.
  assert (E : get (set a p (get a q)) q = get a q).
  { destruct (Nat.eq_dec p q) as [E|E].
    - subst q. apply get_set_same, Hp.
    - apply get_set_other, E. }
  rewrite E in H2.
  destruct (Nat.eq_dec (get a p) z), (Nat.eq_dec (get a q) z); lia.
Qed.

(** The move of the insertion sort: the entry at [pk] goes up to [pj],
    and the value in hand goes where it finally lands. *)
Lemma shift_perm (a : list nat) (pj pk x : nat) :
  pj < List.length a -> pk < List.length a -> pk <> pj ->
  Permutation (set a pj x) (set (set a pj (get a pk)) pk x).
Proof.
  intros Hj Hk Hne. apply (Permutation_count_occ Nat.eq_dec). intros z.
  pose proof (count_set a pj x z Hj) as H1.
  pose proof (count_set a pj (get a pk) z Hj) as H2.
  pose proof (count_set (set a pj (get a pk)) pk x z
                ltac:(rewrite length_set; exact Hk)) as H3.
  rewrite get_set_other in H3 by congruence.
  destruct (Nat.eq_dec (get a pj) z), (Nat.eq_dec (get a pk) z), (Nat.eq_dec x z); lia.
Qed.

Lemma rearranges_refl (a : list nat) (l r : nat) : rearranges a a l r.
Proof.
  split; [reflexivity|]. split; [intros k _; reflexivity|].
  split; [|apply Permutation_refl].
  intros j Hj. exists j. split; [exact Hj|reflexivity].
Qed.

Lemma rearranges_trans (a b c : list nat) (l r : nat) :
  rearranges a b l r -> rearranges b c l r -> rearranges a c l r.
Proof.
  intros (L1 & A1 & W1 & P1) (L2 & A2 & W2 & P2).
  split; [congruence|]. split; [|split].
  - intros k Hk. rewrite (A2 k Hk). apply A1, Hk.
  - intros j Hj. destruct (W2 j Hj) as (j' & Hj' & E').
    destruct (W1 j' Hj') as (j'' & Hj'' & E'').
    exists j''. split; [exact Hj''|congruence].
  - eapply Permutation_trans; eassumption.
Qed.

Lemma rearranges_sub (a b : list nat) (l r l' r' : nat) :
  l <= l' -> r' <= r -> rearranges a b l' r' -> rearranges a b l r.
Proof.
  intros Hl Hr (L & A & W & P).
  split; [exact L|]. split; [|split; [|exact P]].
  - intros k Hk. apply A. lia.
  - intros j Hj.
    destruct (le_lt_dec l' j) as [H1|H1]; [destruct (le_lt_dec j r') as [H2|H2]|].
    + destruct (W j ltac:(lia)) as (j' & Hj' & E). exists j'. split; [lia|exact E].
    + exists j. split; [exact Hj|]. apply A. lia.
    + exists j. split; [exact Hj|]. apply A. lia.
Qed.

Lemma rearranges_swap (a : list nat) (p q l r : nat) :
  p < List.length a -> q < List.length a ->
  l <= p <= r -> l <= q <= r ->
  rearranges a (INTP_SWAP a p q) l r.
Proof.
  intros Hp Hq Lp Lq.
  split; [apply length_INTP_SWAP|]. split; [|split].
  - intros k Hk. apply get_INTP_SWAP_other; lia.
  - intros j Hj.
    destruct (Nat.eq_dec j p) as [E|E]; [|destruct (Nat.eq_dec j q) as [E'|E']].
    + subst j. exists q. split; [exact Lq|]. apply get_INTP_SWAP_l; assumption.
    + subst j. exists p. split; [exact Lp|]. apply get_INTP_SWAP_r; assumption.
    + exists j. split; [exact Hj|]. apply get_INTP_SWAP_other; assumption.
  - apply INTP_SWAP_perm; assumption.
Qed.

Section QuicksortFacts.

Variable v : list Z.

Lemma scan_up_spec (fuel : nat) (a : list nat) (vp : Z) (s : nat) :
  forall pi,
  pi < s -> s - pi <= fuel -> (vp <= key v (get a s))%Z ->
  pi < scan_up v fuel a vp pi /\
  scan_up v fuel a vp pi <= s /\
  (vp <= key v (get a (scan_up v fuel a vp pi)))%Z /\
  forall k, pi < k -> k < scan_up v fuel a vp pi -> (key v (get a k) < vp)%Z.
Proof.
  induction fuel as [|f IH]; intros pi Hs Hf Hsent; [lia|].
  simpl. unfold less.
  destruct (Z.ltb_spec (key v (get a (S pi))) vp) as [Hlt|Hge].
  - assert (Hne : S pi <> s) by (intros E; rewrite E in Hlt; lia).
    destruct (IH (S pi) ltac:(lia) ltac:(lia) Hsent) as (H1 & H2 & H3 & H4).
    split; [lia|]. split; [exact H2|]. split; [exact H3|].
    intros k Hk1 Hk2. destruct (Nat.eq_dec k (S pi)) as [E|E].
    + subst k. exact Hlt.
    + apply H4; lia.
  - split; [lia|]. split; [lia|]. split; [exact Hge|].
    intros k Hk1 Hk2. lia.
Qed.

Lemma scan_down_spec (a : list nat) (vp : Z) (s : nat) :
  forall pj,
  s < pj -> (key v (get a s) <= vp)%Z ->
  s <= scan_down v a vp pj /\
  scan_down v a vp pj < pj /\
  (key v (get a (scan_down v a vp pj)) <= vp)%Z /\
  forall k, scan_down v a vp pj < k -> k < pj -> (vp < key v (get a k))%Z.
Proof.
  induction pj as [|pj IH]; intros Hs Hsent; [lia|].
  simpl. unfold less.
  destruct (Z.ltb_spec vp (key v (get a pj))) as [Hlt|Hge].
  - assert (Hne : s <> pj) by (intros E; rewrite E in Hsent; lia).
    destruct (IH ltac:(lia) Hsent) as (H1 & H2 & H3 & H4).
    split; [exact H1|]. split; [lia|]. split; [exact H3|].
    intros k Hk1 Hk2. destruct (Nat.eq_dec k pj) as [E|E].
    + subst k. exact Hlt.
    + apply H4; lia.
  - split; [lia|]. split; [lia|]. split; [exact Hge|].
    intros k Hk1 Hk2. lia.
Qed.

(** The loop of the partition, entered with the entries up to [pi] no
    greater than the pivot and those from [pj] on no smaller: it leaves
    with [r] between them, all that stands before [r] no greater than the
    pivot and all from [r] on no smaller. *)
Lemma partition_loop_spec (vp : Z) (pl pr : nat) (fuel : nat) :
  forall (a : list nat) (pi pj : nat),
  pr < List.length a -> pl <= pi -> pi < pj -> pj < pr -> pj - pi <= fuel ->
  (forall k, pl <= k -> k <= pi -> (key v (get a k) <= vp)%Z) ->
  (forall k, pj <= k -> k <= pr -> (vp <= key v (get a k))%Z) ->
  forall a' r, partition_loop v fuel a vp pi pj = (a', r) ->
  rearranges a a' (S pi) (pj - 1) /\
  pi < r /\ r <= pj /\
  (forall k, pl <= k -> k < r -> (key v (get a' k) <= vp)%Z) /\
  (forall k, r <= k -> k <= pr -> (vp <= key v (get a' k))%Z).
Proof.
  induction fuel as [|f IH]; intros a pi pj Hlen Hpl Hij Hpr Hfuel Hleft Hright a' r Hrun.
  - lia.
  - assert (Hrun' :
      (let pi' := scan_up v (List.length a) a vp pi in
       let pj' := scan_down v a vp pj in
       if pj' <=? pi' then (a, pi')
       else partition_loop v f (INTP_SWAP a pi' pj') vp pi' pj') = (a', r))
      by exact Hrun.
    clear Hrun. cbv zeta in Hrun'.
    destruct (scan_up_spec (List.length a) a vp pj pi Hij ltac:(lia)
                (Hright pj ltac:(lia) ltac:(lia))) as (U1 & U2 & U3 & U4).
    destruct (scan_down_spec a vp pi pj Hij (Hleft pi Hpl ltac:(lia)))
      as (D1 & D2 & D3 & D4).
    set (pi' := scan_up v (List.length a) a vp pi) in *.
    set (pj' := scan_down v a vp pj) in *.
    destruct (Nat.leb_spec pj' pi') as [Hmet|Hapart].
    + injection Hrun' as Ea Er. subst a' r.
      split; [apply rearranges_refl|]. split; [exact U1|]. split; [exact U2|]. split.
      * intros k Hk1 Hk2. destruct (le_lt_dec k pi) as [H|H].
        -- apply Hleft; assumption.
        -- apply Z.lt_le_incl, U4; assumption.
      * intros k Hk1 Hk2. destruct (Nat.eq_dec k pi') as [E|E]; [subst k; exact U3|].
        destruct (le_lt_dec pj k) as [H|H].
        -- apply Hright; assumption.
        -- apply Z.lt_le_incl, D4; lia.
    + assert (Hi' : pi' < List.length a) by lia.
      assert (Hj' : pj' < List.length a) by lia.
      destruct (IH (INTP_SWAP a pi' pj') pi' pj') with (a' := a') (r := r)
        as (R & I1 & I2 & I3 & I4).
      * rewrite length_INTP_SWAP. exact Hlen.
      * lia.
      * exact Hapart.
      * lia.
      * lia.
      * intros k Hk1 Hk2. destruct (Nat.eq_dec k pi') as [E|E].
        -- subst k. rewrite get_INTP_SWAP_l by assumption. exact D3.
        -- rewrite get_INTP_SWAP_other by lia.
           destruct (le_lt_dec k pi) as [H|H].
           ++ apply Hleft; assumption.
           ++ apply Z.lt_le_incl, U4; lia.
      * intros k Hk1 Hk2. destruct (Nat.eq_dec k pj') as [E|E].
        -- subst k. rewrite get_INTP_SWAP_r by assumption. exact U3.
        -- rewrite get_INTP_SWAP_other by lia.
           destruct (le_lt_dec pj k) as [H|H].
           ++ apply Hright; assumption.
           ++ apply Z.lt_le_incl, D4; lia.
      * exact Hrun'.
      * split; [|split; [lia|split; [lia|split; assumption]]].
        apply rearranges_trans with (b := INTP_SWAP a pi' pj').
        -- apply rearranges_swap; try assumption; lia.
        -- apply rearranges_sub with (l' := S pi') (r' := pj' - 1); try lia. exact R.
Qed.

(** An exchange made when the key at [p] is below the key at [q]. *)
Lemma exchange_spec (a : list nat) (p q l r : nat) :
  p < List.length a -> q < List.length a -> p <> q ->
  l <= p <= r -> l <= q <= r ->
  forall a',
  a' = (if less (key v (get a p)) (key v (get a q)) then INTP_SWAP a p q else a) ->
  rearranges a a' l r /\
  (forall k, k <> p -> k <> q -> get a' k = get a k) /\
  ((key v (get a' p) = key v (get a p) /\ key v (get a' q) = key v (get a q) /\
    (key v (get a q) <= key v (get a p))%Z) \/
   (key v (get a' p) = key v (get a q) /\ key v (get a' q) = key v (get a p) /\
    (key v (get a p) < key v (get a q))%Z)).
Proof.
  intros Hp Hq Hne Lp Lq a' Ea. unfold less in Ea.
  destruct (Z.ltb_spec (key v (get a p)) (key v (get a q))) as [Hlt|Hge]; subst a'.
  - split; [apply rearranges_swap; assumption|]. split.
    + intros k Hk1 Hk2. apply get_INTP_SWAP_other; assumption.
    + right. rewrite get_INTP_SWAP_l, get_INTP_SWAP_r by assumption.
      split; [reflexivity|]. split; [reflexivity|exact Hlt].
  - split; [apply rearranges_refl|]. split; [intros; reflexivity|].
    left. split; [reflexivity|]. split; [reflexivity|exact Hge].
Qed.

Lemma shiftr_1_bounds (d : nat) :
  3 <= d -> 1 <= Nat.shiftr d 1 /\ Nat.shiftr d 1 + 1 < d.
Proof.
  intros H. change (Nat.shiftr d 1) with (Nat.div2 d).
  rewrite Nat.div2_div.
  pose proof (Nat.div_mod_eq d 2) as E.
  pose proof (Nat.mod_upper_bound d 2 ltac:(lia)) as M.
  lia.
Qed.

(** One round of partition: the pivot stands at [pi], strictly inside
    the segment, with nothing greater before it and nothing smaller
    after it. *)
Lemma partition_spec (a : list nat) (pl pr : nat) (a' : list nat) (pi : nat) :
  pr < List.length a -> 3 <= pr - pl ->
  partition v a pl pr = (a', pi) ->
  rearranges a a' pl pr /\
  pl < pi /\ pi < pr /\
  (forall k, pl <= k -> k < pi -> (key v (get a' k) <= key v (get a' pi))%Z) /\
  (forall k, pi < k -> k <= pr -> (key v (get a' pi) <= key v (get a' k))%Z).
Proof.
  intros Hlen Hd Hrun. unfold partition in Hrun.
  destruct (shiftr_1_bounds (pr - pl) Hd) as [M1 M2].
  set (pm := pl + Nat.shiftr (pr - pl) 1) in *.
  assert (Hm1 : pl < pm) by lia.
  assert (Hm2 : pm + 1 < pr) by lia.
  set (a1 := if less (key v (get a pm)) (key v (get a pl)) then INTP_SWAP a pm pl else a) in *.
  destruct (exchange_spec a pm pl pl pr ltac:(lia) ltac:(lia) ltac:(lia) ltac:(lia)
              ltac:(lia) a1 eq_refl) as (R1 & O1 & K1).
  assert (L1 : List.length a1 = List.length a) by apply R1.
  set (a2 := if less (key v (get a1 pr)) (key v (get a1 pm)) then INTP_SWAP a1 pr pm else a1) in *.
  destruct (exchange_spec a1 pr pm pl pr ltac:(lia) ltac:(lia) ltac:(lia) ltac:(lia)
              ltac:(lia) a2 eq_refl) as (R2 & O2 & K2).
  assert (L2 : List.length a2 = List.length a) by (rewrite <- L1; apply R2).
  set (a3 := if less (key v (get a2 pm)) (key v (get a2 pl)) then INTP_SWAP a2 pm pl else a2) in *.
  destruct (exchange_spec a2 pm pl pl pr ltac:(lia) ltac:(lia) ltac:(lia) ltac:(lia)
              ltac:(lia) a3 eq_refl) as (R3 & O3 & K3).
  assert (L3 : List.length a3 = List.length a) by (rewrite <- L2; apply R3).
  pose proof (f_equal (key v) (O2 pl ltac:(lia) ltac:(lia))) as E2.
  pose proof (f_equal (key v) (O3 pr ltac:(lia) ltac:(lia))) as E3.
  pose proof (f_equal (key v) (O1 pr ltac:(lia) ltac:(lia))) as E1.
  assert (Hmed : (key v (get a3 pl) <= key v (get a3 pm))%Z /\
                 (key v (get a3 pm) <= key v (get a3 pr))%Z) by lia.
  destruct Hmed as [Hlo Hhi].
  clear K1 K2 K3 E1 E2 E3 O1 O2 O3.
  set (vp := key v (get a3 pm)) in *.
  set (a4 := INTP_SWAP a3 pm (pr - 1)) in *.
  assert (R4 : rearranges a3 a4 pl pr) by (apply rearranges_swap; lia).
  assert (L4 : List.length a4 = List.length a) by (rewrite <- L3; apply R4).
  assert (G4l : get a4 pl = get a3 pl)
    by (apply get_INTP_SWAP_other; lia).
  assert (G4r : get a4 pr = get a3 pr)
    by (apply get_INTP_SWAP_other; lia).
  assert (G4p : get a4 (pr - 1) = get a3 pm)
    by (apply get_INTP_SWAP_r; lia).
  destruct (partition_loop v (pr - pl) a4 vp pl (pr - 1)) as [a5 r] eqn:Hloop.
  injection Hrun as Ea Er. subst a' pi.
  destruct (partition_loop_spec vp pl pr (pr - pl) a4 pl (pr - 1)) with (a' := a5) (r := r)
    as (R5 & I1 & I2 & I3 & I4); try lia.
  - intros k Hk1 Hk2. assert (k = pl) by lia. subst k. rewrite G4l. exact Hlo.
  - intros k Hk1 Hk2. assert (Hk : k = pr - 1 \/ k = pr) by lia.
    destruct Hk as [E|E]; subst k.
    + rewrite G4p. apply Z.le_refl.
    + rewrite G4r. exact Hhi.
  - exact Hloop.
  - assert (L5 : List.length a5 = List.length a) by (rewrite <- L4; apply R5).
    assert (G5p : get a5 (pr - 1) = get a4 (pr - 1)).
    { destruct R5 as (_ & A5 & _). apply A5. lia. }
    assert (Gpi : get (INTP_SWAP a5 r (pr - 1)) r = get a5 (pr - 1))
      by (apply get_INTP_SWAP_l; lia).
    split; [|split; [lia|split; [lia|split]]].
    + apply rearranges_trans with (b := a1); [exact R1|].
      apply rearranges_trans with (b := a2); [exact R2|].
      apply rearranges_trans with (b := a3); [exact R3|].
      apply rearranges_trans with (b := a4); [exact R4|].
      apply rearranges_trans with (b := a5).
      * apply rearranges_sub with (l' := S pl) (r' := pr - 1 - 1); try lia. exact R5.
      * apply rearranges_swap; lia.
    + intros k Hk1 Hk2. rewrite Gpi, G5p, G4p.
      rewrite get_INTP_SWAP_other by lia. apply I3; assumption.
    + intros k Hk1 Hk2. rewrite Gpi, G5p, G4p.
      destruct (Nat.eq_dec k (pr - 1)) as [E|E].
      * subst k. rewrite get_INTP_SWAP_r by lia. apply I4; lia.
      * rewrite get_INTP_SWAP_other by lia. apply I4; lia.
Qed.

(** The loop that makes room for the entry in hand: with the entries of
    [pl .. pi] in order but for the place [pj], and those above [pj]
    greater than the key in hand, it stops at a place where the entry in
    hand can be put. *)
Lemma shift_spec (vp : Z) (vi pl pi : nat) :
  forall (pj : nat) (a : list nat),
  pi < List.length a -> pl <= pj -> pj <= pi ->
  (forall i j, pl <= i -> i <= j -> j <= pi -> i <> pj -> j <> pj ->
     (key v (get a i) <= key v (get a j))%Z) ->
  (forall k, pj < k -> k <= pi -> (vp < key v (get a k))%Z) ->
  forall a1 pj1, shift v a vp pl pj = (a1, pj1) ->
  List.length a1 = List.length a /\
  agree_outside a a1 pl pi /\
  within a a1 pl pi /\
  Permutation (set a pj vi) (set a1 pj1 vi) /\
  pl <= pj1 /\ pj1 <= pj /\
  (forall i j, pl <= i -> i <= j -> j <= pi -> i <> pj1 -> j <> pj1 ->
     (key v (get a1 i) <= key v (get a1 j))%Z) /\
  (forall k, pj1 < k -> k <= pi -> (vp < key v (get a1 k))%Z) /\
  (forall k, pl <= k -> k < pj1 -> (key v (get a1 k) <= vp)%Z).
Proof.
  induction pj as [|pk IH]; intros a Hlen Hpl Hpi Hord Hup a1 pj1 Hrun.
  - simpl in Hrun. injection Hrun as Ea Ej. subst a1 pj1.
    split; [reflexivity|]. split; [intros k _; reflexivity|].
    split; [intros j Hj; exists j; split; [exact Hj|reflexivity]|].
    split; [apply Permutation_refl|].
    split; [lia|]. split; [lia|]. split; [exact Hord|]. split; [exact Hup|].
    intros k Hk1 Hk2. lia.
  - simpl in Hrun. unfold less in Hrun.
    destruct (Nat.ltb_spec pl (S pk)) as [Hgt|Hle];
      [destruct (Z.ltb_spec vp (key v (get a pk))) as [Hlt|Hge]|]; simpl in Hrun.
    + set (a' := set a (S pk) (get a pk)) in *.
      assert (G1 : get a' (S pk) = get a pk) by (apply get_set_same; lia).
      assert (G2 : forall k, k <> S pk -> get a' k = get a k)
        by (intros k Hk; apply get_set_other; lia).
      destruct (IH a') with (a1 := a1) (pj1 := pj1)
        as (L & A & W & P & B1 & B2 & O & U & D).
      * unfold a'. rewrite length_set. exact Hlen.
      * lia.
      * lia.
      * intros i j Hi Hij Hj Ni Nj.
        destruct (Nat.eq_dec i (S pk)) as [Ei|Ei]; destruct (Nat.eq_dec j (S pk)) as [Ej|Ej].
        -- subst i j. apply Z.le_refl.
        -- subst i. rewrite G1, (G2 j Ej). apply Hord; lia.
        -- subst j. rewrite G1, (G2 i Ei). apply Hord; lia.
        -- rewrite (G2 i Ei), (G2 j Ej). apply Hord; lia.
      * intros k Hk1 Hk2. destruct (Nat.eq_dec k (S pk)) as [E|E].
        -- subst k. rewrite G1. exact Hlt.
        -- rewrite (G2 k E). apply Hup; lia.
      * exact Hrun.
      * split; [rewrite L; apply length_set|]. split; [|split; [|split]].
        -- intros k Hk. rewrite (A k Hk). apply G2. lia.
        -- intros j Hj. destruct (W j Hj) as (j' & Hj' & E).
           destruct (Nat.eq_dec j' (S pk)) as [E'|E'].
           ++ subst j'. exists pk. split; [lia|]. rewrite E. exact G1.
           ++ exists j'. split; [exact Hj'|]. rewrite E. apply G2, E'.
        -- apply Permutation_trans with (l' := set a' pk vi); [|exact P].
           apply shift_perm; lia.
        -- split; [exact B1|]. split; [lia|]. split; [exact O|]. split; [exact U|exact D].
    + injection Hrun as Ea Ej. subst a1 pj1.
      split; [reflexivity|]. split; [intros k _; reflexivity|].
      split; [intros j Hj; exists j; split; [exact Hj|reflexivity]|].
      split; [apply Permutation_refl|].
      split; [lia|]. split; [lia|]. split; [exact Hord|]. split; [exact Hup|].
      intros k Hk1 Hk2. apply Z.le_trans with (m := key v (get a pk)); [|exact Hge].
      apply Hord; lia.
    + injection Hrun as Ea Ej. subst a1 pj1.
      split; [reflexivity|]. split; [intros k _; reflexivity|].
      split; [intros j Hj; exists j; split; [exact Hj|reflexivity]|].
      split; [apply Permutation_refl|].
      split; [lia|]. split; [lia|]. split; [exact Hord|]. split; [exact Hup|].
      intros k Hk1 Hk2. lia.
Qed.

(** The insertion sort sorts its segment. *)
Lemma insertion_sort_rounds (pl : nat) (n : nat) :
  forall (a : list nat) (pi : nat),
  pl < pi -> pi + n <= List.length a -> sorted_seg v a pl (pi - 1) ->
  sorts_segment v a pl (pi + n - 1) (insertion_sort v n a pl pi).
Proof.
  induction n as [|n IH]; intros a pi Hpl Hlen Hsorted.
  - simpl. split; [apply rearranges_refl|].
    replace (pi + 0 - 1) with (pi - 1) by lia. exact Hsorted.
  - simpl. destruct (shift v a (key v (get a pi)) pl pi) as [a1 pj] eqn:Hshift.
    destruct (shift_spec (key v (get a pi)) (get a pi) pl pi pi a) with (a1 := a1) (pj1 := pj)
      as (L & A & W & P & B1 & B2 & O & U & D); try lia.
    + intros i j Hi Hij Hj Ni Nj. apply Hsorted; lia.
    + exact Hshift.
    + set (a2 := set a1 pj (get a pi)) in *.
      assert (G1 : get a2 pj = get a pi) by (apply get_set_same; lia).
      assert (G2 : forall k, k <> pj -> get a2 k = get a1 k)
        by (intros k Hk; apply get_set_other; lia).
      assert (L2 : List.length a2 = List.length a)
        by (unfold a2; rewrite length_set; exact L).
      assert (R : rearranges a a2 pl pi).
      { split; [exact L2|]. split; [|split].
        - intros k Hk. rewrite G2 by lia. apply A, Hk.
        - intros j Hj. destruct (Nat.eq_dec j pj) as [E|E].
          + subst j. exists pi. split; [lia|exact G1].
          + rewrite (G2 j E). apply W, Hj.
        - rewrite set_get_same in P. exact P. }
      assert (S2 : sorted_seg v a2 pl pi).
      { intros i j Hi Hij Hj.
        destruct (Nat.eq_dec i pj) as [Ei|Ei]; destruct (Nat.eq_dec j pj) as [Ej|Ej].
        - subst i j. apply Z.le_refl.
        - subst i. rewrite G1, (G2 j Ej). apply Z.lt_le_incl, U; lia.
        - subst j. rewrite G1, (G2 i Ei). apply D; lia.
        - rewrite (G2 i Ei), (G2 j Ej). apply O; lia. }
      destruct (IH a2 (S pi)) as [R' S']; try lia.
      * replace (S pi - 1) with pi by lia. exact S2.
      * replace (pi + S n - 1) with (S pi + n - 1) by lia.
        split; [|exact S'].
        apply rearranges_trans with (b := a2); [|exact R'].
        apply rearranges_sub with (l' := pl) (r' := pi); try lia. exact R.
Qed.

Lemma insertion_sort_spec (a : list nat) (pl pr : nat) :
  pl <= pr -> pr < List.length a ->
  sorts_segment v a pl pr (insertion_sort v (pr - pl) a pl (pl + 1)).
Proof.
  intros Hle Hlen.
  replace pr with (pl + 1 + (pr - pl) - 1) at 1 by lia.
  apply insertion_sort_rounds; try lia.
  intros i j Hi Hij Hj. assert (i = j) by lia. subst j. apply Z.le_refl.
Qed.

(** The entry in hand goes one place on: seen with the free place
    filled, two entries have changed places. *)
Lemma hole_move_rearranges (a : list nat) (i j x l r : nat) :
  i < List.length a -> j < List.length a -> i <> j ->
  l <= i <= r -> l <= j <= r ->
  rearranges (set a i x) (set (set a i (get a j)) j x) l r.
Proof.
  intros Hi Hj Hne Li Lj.
  split; [rewrite !length_set; reflexivity|]. split; [|split].
  - intros k Hk. rewrite !get_set_other by lia. reflexivity.
  - intros q Hq.
    destruct (Nat.eq_dec q j) as [E|E]; [|destruct (Nat.eq_dec q i) as [E'|E']].
    + subst q. exists i. split; [exact Li|].
      rewrite !get_set_same by (rewrite ?length_set; assumption). reflexivity.
    + subst q. exists j. split; [exact Lj|].
      rewrite (get_set_other _ j i) by congruence.
      rewrite get_set_same by assumption.
      rewrite get_set_other by congruence. reflexivity.
    + exists q. split; [exact Hq|].
      rewrite !get_set_other by congruence. reflexivity.
  - apply shift_perm; congruence.
Qed.

(** Where the entry in hand is above the children of the free place, it
    can be put there. *)
Lemma sift_exit (a : list nat) (pl lo n tmp i : nat) :
  1 <= lo -> lo <= i -> i <= n -> pl + n <= List.length a ->
  sift_inv v a pl lo n tmp i ->
  (forall c, child i c -> c <= n ->
     (key v (get a (heap_at pl c)) <= key v tmp)%Z) ->
  heap_from v (set a (heap_at pl i) tmp) pl lo n.
Proof.
  intros Hlo Hi Hn Hlen (I1 & I2 & I3) Hch k c Hk Hc Hcn.
  unfold heap_at in *.
  destruct (Nat.eq_dec k i) as [Ek|Ek].
  - subst k. rewrite get_set_same by lia.
    rewrite get_set_other by (destruct Hc; lia).
    apply Hch; assumption.
  - destruct (Nat.eq_dec c i) as [Ec|Ec].
    + subst c. rewrite get_set_same by lia.
      rewrite get_set_other by lia. apply I3; assumption.
    + rewrite !get_set_other by (destruct Hc; lia). apply I1; assumption.
Qed.

(** The entry in hand sinks to a place where the heap holds again. *)
Lemma sift_down_spec (pl lo n tmp : nat) (fuel : nat) :
  forall (a : list nat) (i : nat),
  1 <= lo -> lo <= i -> i <= n -> pl + n <= List.length a ->
  n + 1 - (i + i) <= fuel ->
  sift_inv v a pl lo n tmp i ->
  rearranges (set a (heap_at pl i) tmp) (sift_down v fuel a pl n tmp i (i + i))
    pl (pl + n - 1) /\
  heap_from v (sift_down v fuel a pl n tmp i (i + i)) pl lo n.
Proof.
  induction fuel as [|f IH]; intros a i Hlo Hi Hn Hlen Hfuel Hinv.
  - simpl. split; [apply rearranges_refl|].
    apply sift_exit; try assumption.
    intros c Hc Hcn. destruct Hc; lia.
  - cbn [sift_down].
    destruct (Nat.leb_spec (i + i) n) as [Hj|Hj].
    + set (j := if (i + i <? n) &&
                   less (key v (get a (heap_at pl (i + i))))
                     (key v (get a (heap_at pl (i + i + 1))))
                then i + i + 1 else i + i).
      assert (Hjspec : child i j /\ j <= n /\
                forall c, child i c -> c <= n ->
                  (key v (get a (heap_at pl c)) <= key v (get a (heap_at pl j)))%Z).
      { unfold j, less, child.
        destruct (Nat.ltb_spec (i + i) n) as [Hlt|Hge]; cbn [andb].
        - destruct (Z.ltb_spec (key v (get a (heap_at pl (i + i))))
                      (key v (get a (heap_at pl (i + i + 1))))) as [Hc|Hc].
          + split; [lia|]. split; [lia|].
            intros c [E|E] Hcn; subst c.
            * replace (2 * i) with (i + i) by lia. lia.
            * replace (2 * i + 1) with (i + i + 1) by lia. lia.
          + split; [lia|]. split; [lia|].
            intros c [E|E] Hcn; subst c.
            * replace (2 * i) with (i + i) by lia. lia.
            * replace (2 * i + 1) with (i + i + 1) by lia. lia.
        - split; [lia|]. split; [lia|].
          intros c [E|E] Hcn; subst c.
          + replace (2 * i) with (i + i) by lia. lia.
          + lia. }
      destruct Hjspec as (Hchild & Hjn & Hmax).
      clearbody j. unfold less.
      destruct (Z.ltb_spec (key v tmp) (key v (get a (heap_at pl j)))) as [Hmove|Hstay].
      * assert (Hij : i < j) by (destruct Hchild; lia).
        set (a' := set a (heap_at pl i) (get a (heap_at pl j))).
        assert (G1 : get a' (heap_at pl i) = get a (heap_at pl j))
          by (apply get_set_same; unfold heap_at; lia).
        assert (G2 : forall c, 1 <= c -> c <> i ->
                       get a' (heap_at pl c) = get a (heap_at pl c))
          by (intros c Hc1 Hc2; apply get_set_other; unfold heap_at; lia).
        destruct Hinv as (I1 & I2 & I3).
        destruct (IH a' j) as [R H]; try lia.
        -- unfold a'. rewrite length_set. exact Hlen.
        -- split; [|split].
           ++ intros k c Hk Hc Hcn Nk Nc.
              assert (Hc1 : 1 <= c /\ k < c) by (unfold child in Hc; lia).
              destruct (Nat.eq_dec k i) as [Ek|Ek];
                [|destruct (Nat.eq_dec c i) as [Ec|Ec]].
              ** subst k. rewrite G1, (G2 c) by lia. apply Hmax; assumption.
              ** subst c. rewrite G1, (G2 k) by lia.
                 apply (I2 k j); assumption.
              ** rewrite (G2 c), (G2 k) by lia. apply I1; assumption.
           ++ intros p c Hp Hpj Hjc Hcn.
              assert (Ep : p = i) by (unfold child in *; lia). subst p.
              assert (Hc1 : j < c) by (unfold child in Hjc; lia).
              rewrite G1, (G2 c) by lia.
              apply I1; try assumption; lia.
           ++ intros p Hp Hpj.
              assert (Ep : p = i) by (unfold child in *; lia). subst p.
              rewrite G1. lia.
        -- split; [|exact H].
           apply rearranges_trans with (b := set a' (heap_at pl j) tmp); [|exact R].
           apply hole_move_rearranges; unfold heap_at; lia.
      * split; [apply rearranges_refl|].
        apply sift_exit; try assumption.
        intros c Hc Hcn. specialize (Hmax c Hc Hcn). lia.
    + split; [apply rearranges_refl|].
      apply sift_exit; try assumption.
      intros c Hc Hcn. destruct Hc; lia.
Qed.

(** The first loop of the heap sort builds a heap. *)
Lemma build_heap_spec (pl n : nat) :
  forall (l : nat) (a : list nat),
  pl + n <= List.length a -> l <= n ->
  heap_from v a pl (l + 1) n ->
  rearranges a (build_heap v l a pl n) pl (pl + n - 1) /\
  heap_from v (build_heap v l a pl n) pl 1 n.
Proof.
  induction l as [|l IH]; intros a Hlen Hl Hheap.
  - simpl. split; [apply rearranges_refl|exact Hheap].
  - cbn [build_heap]. change (Nat.shiftl (S l) 1) with (S l + S l).
    destruct (sift_down_spec pl (S l) n (get a (heap_at pl (S l))) n a (S l))
      as [R H]; try lia.
    + split; [|split].
      * intros k c Hk Hc Hcn Nk Nc. apply Hheap; try assumption. lia.
      * intros p c Hp Hpi. unfold child in Hpi. lia.
      * intros p Hp Hpi. unfold child in Hpi. lia.
    + rewrite set_get_same in R.
      destruct (IH (sift_down v n a pl n (get a (heap_at pl (S l))) (S l) (S l + S l)))
        as [R' H'].
      * destruct R as (L & _). rewrite L. exact Hlen.
      * lia.
      * replace (l + 1) with (S l) by lia. exact H.
      * split; [|exact H'].
        apply rearranges_trans with (1 := R). exact R'.
Qed.

(** The entry at the root of a heap is the greatest. *)
Lemma heap_root_greatest (a : list nat) (pl n : nat) :
  heap_from v a pl 1 n ->
  forall k, 1 <= k -> k <= n ->
    (key v (get a (heap_at pl k)) <= key v (get a (heap_at pl 1)))%Z.
Proof.
  intros H k. induction k as [k IH] using lt_wf_ind. intros Hk Hn.
  destruct (Nat.eq_dec k 1) as [E|E]; [subst k; apply Z.le_refl|].
  assert (Hp : exists p, 1 <= p /\ p < k /\ child p k).
  { destruct (Nat.Even_or_Odd k) as [[p Ep]|[p Ep]];
      exists p; unfold child; lia. }
  destruct Hp as (p & Hp1 & Hp2 & Hc).
  apply Z.le_trans with (m := key v (get a (heap_at pl p))).
  - apply H; assumption.
  - apply IH; lia.
Qed.

(** The second loop of the heap sort: with a heap of [m] entries before
    entries that are in order and above all that stands before them, the
    whole ends in order. *)
Lemma extract_spec (pl N : nat) :
  forall (m : nat) (a : list nat),
  pl + N <= List.length a -> m <= N ->
  heap_from v a pl 1 m ->
  (forall k k', m < k -> k <= N -> 1 <= k' -> k' <= k ->
     (key v (get a (heap_at pl k')) <= key v (get a (heap_at pl k)))%Z) ->
  rearranges a (extract v m a pl) pl (pl + N - 1) /\
  (forall k k', 1 <= k' -> k' <= k -> k <= N ->
     (key v (get (extract v m a pl) (heap_at pl k'))
      <= key v (get (extract v m a pl) (heap_at pl k)))%Z).
Proof.
  induction m as [|m IH]; intros a Hlen Hm Hheap Htail.
  - simpl. split; [apply rearranges_refl|].
    intros k k' H1 H2 H3. apply Htail; lia.
  - cbn [extract]. destruct (Nat.ltb_spec 1 (S m)) as [Hbig|Hone].
    + set (tmp := get a (heap_at pl (S m))).
      set (a1 := set a (heap_at pl (S m)) (get a (heap_at pl 1))).
      assert (L1 : List.length a1 = List.length a) by apply length_set.
      assert (G1 : forall k, 1 <= k -> k <> S m ->
                     get a1 (heap_at pl k) = get a (heap_at pl k))
        by (intros k Hk1 Hk2; apply get_set_other; unfold heap_at; lia).
      destruct (sift_down_spec pl 1 m tmp m a1 1) as [R H]; try lia.
      * split; [|split].
        -- intros k c Hk Hc Hcn Nk Nc.
           assert (Hkc : k < c) by (unfold child in Hc; lia).
           rewrite (G1 c), (G1 k) by lia. apply Hheap; try assumption. lia.
        -- intros p c Hp Hpi. unfold child in Hpi. lia.
        -- intros p Hp Hpi. unfold child in Hpi. lia.
      * change (1 + 1) with 2 in R, H.
        set (a2 := sift_down v m a1 pl m tmp 1 2) in *.
        assert (R0 : rearranges a (set a1 (heap_at pl 1) tmp) pl (pl + S m - 1)).
        { pose proof (hole_move_rearranges a (heap_at pl (S m)) (heap_at pl 1) tmp
                        pl (pl + S m - 1)) as Hmove.
          unfold tmp in Hmove at 1. rewrite set_get_same in Hmove.
          apply Hmove; unfold heap_at; lia. }
        assert (R2 : rearranges a a2 pl (pl + S m - 1)).
        { apply rearranges_trans with (1 := R0).
          apply rearranges_sub with (l' := pl) (r' := pl + m - 1); try lia. exact R. }
        assert (L2 : List.length a2 = List.length a) by apply R2.
        assert (Hfrom : forall k', 1 <= k' -> k' <= S m ->
                  exists k'', 1 <= k'' /\ k'' <= S m /\
                    get a2 (heap_at pl k') = get a (heap_at pl k'')).
        { intros k' H1 H2. destruct R2 as (_ & _ & W & _).
          destruct (W (heap_at pl k')) as (q & Hq & E); [unfold heap_at; lia|].
          exists (q - pl + 1). split; [lia|]. split; [lia|].
          rewrite E. f_equal. unfold heap_at. lia. }
        assert (Hkeep : forall k, S m < k -> get a2 (heap_at pl k) = get a (heap_at pl k)).
        { intros k Hk. destruct R2 as (_ & A & _). apply A. unfold heap_at. lia. }
        assert (Htop : get a2 (heap_at pl (S m)) = get a (heap_at pl 1)).
        { destruct R as (_ & A & _). rewrite A by (unfold heap_at; lia).
          rewrite get_set_other by (unfold heap_at; lia).
          apply get_set_same. unfold heap_at. lia. }
        destruct (IH a2) as [R' S'].
        -- rewrite L2. exact Hlen.
        -- lia.
        -- exact H.
        -- intros k k' Hk1 Hk2 Hk3 Hk4.
           destruct (Nat.eq_dec k (S m)) as [Ek|Ek].
           ++ subst k. rewrite Htop.
              destruct (Hfrom k' Hk3 Hk4) as (k'' & B1 & B2 & E). rewrite E.
              apply (heap_root_greatest a pl (S m) Hheap); assumption.
           ++ rewrite (Hkeep k) by lia.
              destruct (le_lt_dec k' (S m)) as [Hk'|Hk'].
              ** destruct (Hfrom k' Hk3 Hk') as (k'' & B1 & B2 & E). rewrite E.
                 apply Htail; lia.
              ** rewrite (Hkeep k') by lia. apply Htail; lia.
        -- split; [|exact S'].
           apply rearranges_trans with (b := a2); [|exact R'].
           apply rearranges_sub with (l' := pl) (r' := pl + S m - 1); try lia. exact R2.
    + split; [apply rearranges_refl|].
      intros k k' H1 H2 H3.
      destruct (Nat.eq_dec k 1) as [E|E].
      * assert (k' = 1) by lia. subst k k'. apply Z.le_refl.
      * apply Htail; lia.
Qed.

(** The heap sort sorts its segment. *)
Lemma aheapsort_sorts (a : list nat) (pl n : nat) :
  0 < n -> pl + n <= List.length a ->
  sorts_segment v a pl (pl + n - 1) (aheapsort v a pl n).
Proof.
  intros Hn Hlen. unfold aheapsort.
  destruct (build_heap_spec pl n (Nat.shiftr n 1) a Hlen) as [R1 H1].
  - change (Nat.shiftr n 1) with (Nat.div2 n). rewrite Nat.div2_div.
    pose proof (Nat.div_mod_eq n 2). lia.
  - intros k c Hk Hc Hcn. exfalso.
    change (Nat.shiftr n 1) with (Nat.div2 n) in Hk. rewrite Nat.div2_div in Hk.
    pose proof (Nat.div_mod_eq n 2) as E.
    pose proof (Nat.mod_upper_bound n 2 ltac:(lia)) as M.
    unfold child in Hc. lia.
  - set (a1 := build_heap v (Nat.shiftr n 1) a pl n) in *.
    destruct (extract_spec pl n n a1) as [R2 S2].
    + destruct R1 as (L & _). rewrite L. exact Hlen.
    + lia.
    + exact H1.
    + intros k k' Hk1 Hk2. lia.
    + split; [apply rearranges_trans with (1 := R1); exact R2|].
      intros i j Hi Hij Hj.
      replace i with (heap_at pl (i - pl + 1)) by (unfold heap_at; lia).
      replace j with (heap_at pl (j - pl + 1)) by (unfold heap_at; lia).
      apply S2; lia.
Qed.

(** Two segments that do not meet, sorted one after the other. *)
Lemma two_segments (b b1 b2 : list nat) (l1 r1 l2 r2 : nat) :
  r1 < l2 \/ r2 < l1 ->
  sorts_segment v b l1 r1 b1 -> sorts_segment v b1 l2 r2 b2 ->
  sorted_seg v b2 l1 r1 /\ sorted_seg v b2 l2 r2 /\
  within b b2 l1 r1 /\ within b b2 l2 r2 /\
  (forall k, k < l1 \/ r1 < k -> k < l2 \/ r2 < k -> get b2 k = get b k).
Proof.
  intros Hdisj [(L1 & A1 & W1 & P1) S1] [(L2 & A2 & W2 & P2) S2].
  split; [|split; [exact S2|split; [|split]]].
  - intros i j Hi Hij Hj. rewrite (A2 i), (A2 j) by lia. apply S1; assumption.
  - intros j Hj. rewrite (A2 j) by lia. apply W1, Hj.
  - intros j Hj. destruct (W2 j Hj) as (j' & Hj' & E).
    exists j'. split; [exact Hj'|]. rewrite E. apply A1. lia.
  - intros k H1 H2. rewrite (A2 k H2). apply A1, H1.
Qed.

(** A segment split around its pivot, both sides then sorted, is sorted. *)
Lemma halves_sorted (a ap a2 : list nat) (pl pr pi : nat) :
  rearranges a ap pl pr -> pl < pi -> pi < pr ->
  (forall k, pl <= k -> k < pi -> (key v (get ap k) <= key v (get ap pi))%Z) ->
  (forall k, pi < k -> k <= pr -> (key v (get ap pi) <= key v (get ap k))%Z) ->
  rearranges ap a2 pl pr ->
  sorted_seg v a2 pl (pi - 1) -> sorted_seg v a2 (pi + 1) pr ->
  within ap a2 pl (pi - 1) -> within ap a2 (pi + 1) pr ->
  get a2 pi = get ap pi ->
  sorts_segment v a pl pr a2.
Proof.
  intros R Hl Hr Hleft Hright R2 S1 S2 W1 W2 Epi.
  split; [apply rearranges_trans with (b := ap); assumption|].
  assert (Lo : forall k, pl <= k -> k < pi ->
                 (key v (get a2 k) <= key v (get ap pi))%Z).
  { intros k Hk1 Hk2. destruct (W1 k ltac:(lia)) as (k' & Hk' & E).
    rewrite E. apply Hleft; lia. }
  assert (Hi : forall k, pi < k -> k <= pr ->
                 (key v (get ap pi) <= key v (get a2 k))%Z).
  { intros k Hk1 Hk2. destruct (W2 k ltac:(lia)) as (k' & Hk' & E).
    rewrite E. apply Hright; lia. }
  intros i j Hi1 Hij Hj.
  destruct (lt_eq_lt_dec i pi) as [[Ci|Ci]|Ci];
    destruct (lt_eq_lt_dec j pi) as [[Cj|Cj]|Cj]; try lia.
  - apply S1; lia.
  - subst j. rewrite Epi. apply Lo; lia.
  - apply Z.le_trans with (m := key v (get ap pi)); [apply Lo|apply Hi]; lia.
  - subst i j. apply Z.le_refl.
  - subst i. rewrite Epi. apply Hi; lia.
  - apply S2; lia.
Qed.

Lemma work_pos (pl pr : nat) (segs : list (nat * nat)) :
  3 <= work ((pl, pr) :: segs).
Proof. simpl. lia. Qed.

(** The loop of [aquicksort_] ends within the rounds counted by [work],
    having sorted the segment in hand and then those of the stack. *)
Lemma aquicksort_loop_spec (fuel : nat) :
  forall (inner : bool) (a : list nat) (pl pr : nat) (cdepth : Z)
         (stack : list (nat * nat * Z)),
  work ((pl, pr) :: map fst stack) <= fuel ->
  (forall l r, In (l, r) ((pl, pr) :: map fst stack) ->
     l <= r /\ r < List.length a) ->
  exists a',
    aquicksort_loop v fuel inner a pl pr cdepth stack = Some a' /\
    chain v a ((pl, pr) :: map fst stack) a'.
Proof.
  induction fuel as [|f IH]; intros inner a pl pr cdepth stack Hwork Hbounds.
  - pose proof (work_pos pl pr (map fst stack)). lia.
  - destruct (Hbounds pl pr (or_introl eq_refl)) as [Hle Hlen].
    assert (Hpop : forall a1, sorts_segment v a pl pr a1 ->
              exists a',
                match stack with
                | [] => Some a1
                | (pl', pr', cdepth') :: stack' =>
                    aquicksort_loop v f false a1 pl' pr' cdepth' stack'
                end = Some a' /\
                chain v a ((pl, pr) :: map fst stack) a').
    { intros a1 Hs. destruct stack as [|[[pl' pr'] cdepth'] stack'].
      - exists a1. split; [reflexivity|]. exists a1. split; [exact Hs|reflexivity].
      - destruct (IH false a1 pl' pr' cdepth' stack') as (a' & Hrun & Hchain).
        + simpl in Hwork |- *. lia.
        + intros l r Hin. destruct Hs as [(L & _) _]. rewrite L.
          apply Hbounds. right. exact Hin.
        + exists a'. split; [exact Hrun|]. exists a1. split; [exact Hs|exact Hchain]. }
    cbn [aquicksort_loop].
    destruct (negb inner && (cdepth <? 0)%Z).
    + apply Hpop.
      replace pr with (pl + (pr - pl + 1) - 1) at 1 by lia.
      apply aheapsort_sorts; lia.
    + unfold SMALL_QUICKSORT. destruct (Nat.ltb_spec 16 (pr - pl)) as [Hbig|Hsmall].
      * destruct (partition v a pl pr) as [ap pi] eqn:Hpart.
        destruct (partition_spec a pl pr ap pi Hlen ltac:(lia) Hpart)
          as (R & Hl & Hr & Hleft & Hright).
        assert (L : List.length ap = List.length a) by apply R.
        destruct (Nat.ltb_spec (pi - pl) (pr - pi)) as [Hside|Hside].
        -- destruct (IH true ap pl (pi - 1) (cdepth - 1)%Z
                       ((pi + 1, pr, (cdepth - 1)%Z) :: stack))
             as (a' & Hrun & a1 & Hs1 & a2 & Hs2 & Hchain).
           ++ simpl in Hwork |- *. lia.
           ++ intros l r Hin. rewrite L. simpl in Hin.
              destruct Hin as [E|[E|Hin]].
              ** injection E as E1 E2. subst l r. lia.
              ** injection E as E1 E2. subst l r. lia.
              ** apply Hbounds. right. exact Hin.
           ++ exists a'. split; [exact Hrun|]. exists a2. split; [|exact Hchain].
              destruct (two_segments ap a1 a2 pl (pi - 1) (pi + 1) pr ltac:(lia) Hs1 Hs2)
                as (T1 & T2 & T3 & T4 & T5).
              apply halves_sorted with (ap := ap) (pi := pi); try assumption.
              ** apply rearranges_trans with (b := a1).
                 --- apply rearranges_sub with (l' := pl) (r' := pi - 1); try lia.
                     apply Hs1.
                 --- apply rearranges_sub with (l' := pi + 1) (r' := pr); try lia.
                     apply Hs2.
              ** apply T5; lia.
        -- destruct (IH true ap (pi + 1) pr (cdepth - 1)%Z
                       ((pl, pi - 1, (cdepth - 1)%Z) :: stack))
             as (a' & Hrun & a1 & Hs1 & a2 & Hs2 & Hchain).
           ++ simpl in Hwork |- *. lia.
           ++ intros l r Hin. rewrite L. simpl in Hin.
              destruct Hin as [E|[E|Hin]].
              ** injection E as E1 E2. subst l r. lia.
              ** injection E as E1 E2. subst l r. lia.
              ** apply Hbounds. right. exact Hin.
           ++ exists a'. split; [exact Hrun|]. exists a2. split; [|exact Hchain].
              destruct (two_segments ap a1 a2 (pi + 1) pr pl (pi - 1) ltac:(lia) Hs1 Hs2)
                as (T1 & T2 & T3 & T4 & T5).
              apply halves_sorted with (ap := ap) (pi := pi); try assumption.
              ** apply rearranges_trans with (b := a1).
                 --- apply rearranges_sub with (l' := pi + 1) (r' := pr); try lia.
                     apply Hs1.
                 --- apply rearranges_sub with (l' := pl) (r' := pi - 1); try lia.
                     apply Hs2.
              ** apply T5; lia.
      * apply Hpop. apply insertion_sort_spec; assumption.
Qed.

(** [aquicksort_] returns, with the indices [0 .. num - 1] rearranged so
    that their keys ascend. *)
Lemma aquicksort_spec (num : nat) :
  exists a',
    aquicksort v num = Some a' /\
    Permutation (seq 0 num) a' /\
    sorted_seg v a' 0 (num - 1).
Proof.
  destruct num as [|n].
  - exists []. split; [reflexivity|]. split; [apply Permutation_refl|].
    intros i j _ Hij Hj. assert (i = j) by lia. subst j. apply Z.le_refl.
  - unfold aquicksort.
    destruct (aquicksort_loop_spec (2 * S n + 2) false (seq 0 (S n)) 0 (S n - 1)
                (2 * npy_get_msb (S n))%Z [])
      as (a' & Hrun & a1 & [(L & A & W & P) S1] & E).
    + simpl. lia.
    + intros l r [E|[]]. injection E as E1 E2. subst l r.
      rewrite length_seq. lia.
    + simpl in E. subst a1. exists a'. split; [exact Hrun|]. split; assumption.
Qed.

End QuicksortFacts.

Lemma sorted_seg_tail (v : list Z) (x : nat) (a : list nat) :
  sorted_seg v (x :: a) 0 (List.length a) ->
  sorted_seg v a 0 (List.length a - 1).
Proof.
  intros H i j Hi Hij Hj.
  destruct a as [|y a]; [simpl in Hj; assert (i = j) by lia; subst j; apply Z.le_refl|].
  simpl in Hj. apply (H (S i) (S j)); simpl; lia.
Qed.

(** Ascending keys at the places of the array are ascending keys along
    the list. *)
Lemma sorted_seg_StronglySorted (v : list Z) (a : list nat) :
  sorted_seg v a 0 (List.length a - 1) ->
  StronglySorted (fun i j => (key v i <= key v j)%Z) a.
Proof.
  induction a as [|x a IH]; intros H; constructor.
  - apply IH. apply sorted_seg_tail with (x := x).
    simpl in H. rewrite Nat.sub_0_r in H. exact H.
  - apply Forall_forall. intros y Hy.
    destruct (In_nth a y 0 Hy) as (i & Hi & E).
    simpl in H. rewrite Nat.sub_0_r in H.
    specialize (H 0 (S i) ltac:(lia) ltac:(lia) ltac:(lia)).
    unfold get in H. simpl in H. rewrite E in H. exact H.
Qed.

(** [argsort] returns: the places of the column in an order in which the
    entries ascend. *)
Lemma argsort_spec (items : list Z) :
  exists order,
    argsort items = Some order /\
    Permutation (seq 0 (List.length items)) order /\
    StronglySorted (fun i j => (key items i <= key items j)%Z) order.
Proof.
  destruct (aquicksort_spec items (List.length items)) as (order & Hrun & P & S).
  exists order. split; [exact Hrun|]. split; [exact P|].
  apply sorted_seg_StronglySorted.
  rewrite <- (Permutation_length P), length_seq. exact S.
Qed.

End NumpyFacts.

(* ================================================================== *)
(** * The sort of the summary by Total *)

Lemma take_spec {A : Type} (df : list A) (indexer : list nat) :
  Forall (fun i => (i < List.length df)%nat) indexer ->
  exists rows,
    take df indexer = Some rows /\
    map Some rows = map (nth_error df) indexer.
Proof.
  induction indexer as [|i indexer IH]; intros H.
  - exists []. split; reflexivity.
  - inversion H as [|? ? Hi Hrest]; subst.
    destruct (IH Hrest) as (rows & Hrun & Hrows).
    destruct (nth_error df i) as [row|] eqn:E.
    + exists (row :: rows). simpl. rewrite E, Hrun. split; [reflexivity|].
      rewrite Hrows. reflexivity.
    + apply nth_error_None in E. lia.
Qed.

Lemma map_nth_error_seq {A : Type} (l pre : list A) :
  map (nth_error (pre ++ l)) (seq (List.length pre) (List.length l)) = map Some l.
Proof.
  revert pre. induction l as [|x l IH]; intros pre; [reflexivity|].
  simpl. rewrite nth_error_app2 by lia. rewrite Nat.sub_diag. simpl. f_equal.
  specialize (IH (pre ++ [x])).
  rewrite <- app_assoc, length_app in IH. simpl in IH.
  rewrite Nat.add_1_r in IH. exact IH.
Qed.

Lemma map_nth_seq (l : list nat) :
  map (fun i => nth i l 0%nat) (seq 0 (List.length l)) = l.
Proof.
  apply nth_ext with (d := 0%nat) (d' := 0%nat).
  - rewrite length_map, length_seq. reflexivity.
  - intros n Hn. rewrite length_map, length_seq in Hn.
    rewrite (nth_indep _ 0%nat (nth 0 l 0%nat)) by (rewrite length_map, length_seq; exact Hn).
    rewrite (map_nth (fun i => nth i l 0%nat)). rewrite seq_nth by exact Hn.
    reflexivity.
Qed.

Lemma Permutation_map_Some {A : Type} (l l' : list A) :
  Permutation (map Some l) (map Some l') -> Permutation l l'.
Proof.
  intros H.
  assert (E : forall m : list A,
            flat_map (fun o : option A => match o with Some x => [x] | None => [] end)
              (map Some m) = m).
  { induction m as [|x m IH]; simpl; [reflexivity|]. rewrite IH. reflexivity. }
  rewrite <- (E l), <- (E l'). apply Permutation_flat_map. exact H.
Qed.

Lemma take_column {A : Type} (f : A -> Z) (df : list A) (indexer : list nat) :
  forall rows,
  map Some rows = map (nth_error df) indexer ->
  map f rows = map (fun i => nth i (map f df) 0%Z) indexer.
Proof.
  induction indexer as [|i indexer IH]; intros [|row rows] H; simpl in H;
    try discriminate; [reflexivity|].
  injection H as E Hrest. simpl. f_equal.
  - symmetry. apply nth_error_nth. rewrite nth_error_map, <- E. reflexivity.
  - apply IH, Hrest.
Qed.

Lemma StronglySorted_snoc {A : Type} (Rel : A -> A -> Prop) (l : list A) (x : A) :
  StronglySorted Rel l -> Forall (fun y => Rel y x) l ->
  StronglySorted Rel (l ++ [x]).
Proof.
  induction 1 as [|a l Hs IH Ha]; intros Hx; simpl.
  - constructor; constructor.
  - inversion Hx as [|? ? Hax Hlx]; subst.
    constructor; [apply IH, Hlx|].
    apply Forall_app. split; [exact Ha|]. constructor; [exact Hax|constructor].
Qed.

Lemma StronglySorted_rev {A : Type} (Rel : A -> A -> Prop) (l : list A) :
  StronglySorted Rel l -> StronglySorted (fun a b => Rel b a) (rev l).
Proof.
  induction 1 as [|a l Hs IH Ha]; simpl; [constructor|].
  apply StronglySorted_snoc; [exact IH|].
  apply Forall_forall. intros y Hy. apply in_rev in Hy.
  rewrite Forall_forall in Ha. apply Ha, Hy.
Qed.

Lemma StronglySorted_map_of {A B : Type} (f : A -> B) (Rel : B -> B -> Prop) (l : list A) :
  StronglySorted (fun a b => Rel (f a) (f b)) l -> StronglySorted Rel (map f l).
Proof.
  induction 1 as [|a l Hs IH Ha]; simpl; constructor; [exact IH|].
  apply Forall_forall. intros y Hy. apply in_map_iff in Hy.
  destruct Hy as (x & E & Hx). subst y.
  rewrite Forall_forall in Ha. apply Ha, Hx.
Qed.

(** [nargsort] returns: the places of the column in an order in which
    the entries descend. *)
Lemma nargsort_descending_spec (items : list Z) :
  exists indexer,
    nargsort_descending items = Some indexer /\
    Permutation (seq 0 (List.length items)) indexer /\
    StronglySorted (fun x y => (y <= x)%Z)
      (map (fun i => nth i items 0%Z) indexer).
Proof.
  unfold nargsort_descending.
  destruct (NumpyFacts.argsort_spec (rev items)) as (order & Hrun & P & S).
  rewrite Hrun. rewrite length_rev in P.
  set (n := List.length items) in *.
  exists (rev (map (fun i => nth i (rev (seq 0 n)) 0%nat) order)).
  split; [reflexivity|]. split.
  - apply Permutation_trans with (l' := map (fun i => nth i (rev (seq 0 n)) 0%nat) order);
      [|apply Permutation_rev].
    apply Permutation_trans
      with (l' := map (fun i => nth i (rev (seq 0 n)) 0%nat) (seq 0 n));
      [|apply Permutation_map, P].
    pose proof (map_nth_seq (rev (seq 0 n))) as E.
    rewrite length_rev, length_seq in E. rewrite E. apply Permutation_rev.
  - rewrite map_rev. rewrite map_map.
    rewrite (map_ext_in _ (Numpy.key (rev items))).
    + apply StronglySorted_rev. apply StronglySorted_map_of. exact S.
    + intros i Hi. apply (Permutation_in _ (Permutation_sym P)) in Hi.
      apply in_seq in Hi. unfold Numpy.key.
      rewrite rev_nth by (rewrite length_seq; lia).
      rewrite length_seq, seq_nth by lia.
      rewrite rev_nth by (fold n; lia). fold n. reflexivity.
Qed.

(** The sort by Total returns, with the rows of the frame in descending
    order of Total. *)
Lemma sort_values_Total_spec (pivot : list pivot_row) :
  exists sorted,
    sort_values_Total pivot = Some sorted /\
    sort_values_Total_desc pivot sorted.
Proof.
  unfold sort_values_Total.
  destruct (nargsort_descending_spec (map Total pivot)) as (indexer & Hrun & P & S).
  rewrite Hrun. rewrite length_map in P.
  destruct (take_spec pivot indexer) as (rows & Htake & Hrows).
  { apply Forall_forall. intros i Hi.
    apply (Permutation_in _ (Permutation_sym P)) in Hi. apply in_seq in Hi. lia. }
  exists rows. split; [exact Htake|]. split.
  - apply Permutation_map_Some. rewrite Hrows.
    rewrite <- (map_nth_error_seq pivot []). simpl.
    apply Permutation_map, P.
  - apply StronglySorted_map with (f := Total) (Rel := fun x y => (y <= x)%Z).
    rewrite (take_column Total pivot indexer rows Hrows). exact S.
Qed.

(** C5, as the code has it.  The sort of the country summary by Total
    returns a frame; the frame holds the rows of the pivot, each once, in
    descending order of Total, and so does the sheet of the thirty first;
    the Total of every row is the sum of the level columns of the row,
    which is the number of divisions of the country.  Among rows of equal
    Total the order is the one the quicksort leaves. *)
Theorem country_summary_totals_and_order (out : list division) :
  exists sorted,
    sort_values_Total (country_pivot out) = Some sorted /\
    Permutation (country_pivot out) sorted /\
    StronglySorted (fun a b => (Total b <= Total a)%Z) sorted /\
    StronglySorted (fun a b => (Total b <= Total a)%Z) (top_countries sorted) /\
    forall row, In row sorted ->
      Total row = sum (map snd (counts row)) /\
      Total row = country_rows_count out (index row).
Proof.
  destruct (sort_values_Total_spec (country_pivot out)) as (sorted & Hrun & Hperm & Hsorted).
  exists sorted. split; [exact Hrun|]. split; [exact Hperm|]. split; [exact Hsorted|].
  split; [apply StronglySorted_firstn, Hsorted|].
  intros row Hrow. apply country_pivot_totals.
  apply (Permutation_in _ (Permutation_sym Hperm)). exact Hrow.
Qed.

Example two_countries_sorted :
  sort_values_Total (country_pivot Examples.two_countries)
  = Some [Examples.germany_total; Examples.france_total].
Proof. vm_compute. reflexivity. Qed.

Lemma country_summary_totals_and_order_witness :
  sort_values_Total (country_pivot Examples.two_countries)
  = Some [Examples.germany_total; Examples.france_total] /\
  StronglySorted (fun a b => (Total b <= Total a)%Z)
    [Examples.germany_total; Examples.france_total] /\
  Total Examples.germany_total = sum (map snd (counts Examples.germany_total)).
Proof.
  destruct (country_summary_totals_and_order Examples.two_countries)
    as (sorted & Hrun & _ & Hsorted & _ & Htotals).
  rewrite two_countries_sorted in Hrun. injection Hrun as E. subst sorted.
  split; [reflexivity|]. split; [exact Hsorted|].
  apply Htotals. left. reflexivity.
Defined.

(** C5 as stated fails on the order of equal totals.  With eighteen
    countries of one division each, the sort by Total takes the path of
    the quicksort that partitions: the frame it returns has country C17
    in third place, before the countries C16 down to C03, and C18 last. *)
Lemma equal_totals_out_of_code_order :
  sort_values_Total (country_pivot Examples.tied_countries)
  = Some (map Examples.tied_total Examples3.quicksort_order) /\
  ~ ties_by_code_ascending (map Examples.tied_total Examples3.quicksort_order).
Proof.
  split.
  - vm_compute. reflexivity.
  - intros H.
    apply (H (map Examples.tied_total ["C01"; "C02"]%string)
             (Examples.tied_total "C17") []
             (Examples.tied_total "C16")
             (map Examples.tied_total
                ["C15"; "C14"; "C13"; "C12"; "C11"; "C10"; "C09"; "C08"; "C07";
                 "C06"; "C05"; "C04"; "C03"; "C18"]%string));
      reflexivity.
Qed.
